(** * JPEG compression distortion: a shallow embedding

    The development follows
    [dali/kernels/imgproc/jpeg/jpeg_distortion_gpu.cuh]:

    - single-precision arithmetic ([float]) is IEEE binary32, taken from
      the Standard Library's [SpecFloat] at precision 24, computed bit
      for bit;
    - the host-side quantization-table builders;
    - the colour transforms, the chroma subsampling helpers and the
      guarded pixel write;
    - the quantizer and the stages of the distortion kernel. *)

From Stdlib Require Import ZArith QArith Qabs Qpower Lia Lqa List Bool.
From Stdlib Require Import Floats.SpecFloat.
From stdpp Require Import base gmap.

Local Open Scope Z_scope.

(** ** IEEE binary32 *)

Module F32.

Definition prec : Z := 24.
Definition emax : Z := 128.

Definition float32 : Type := spec_float.

Definition fadd : float32 -> float32 -> float32 := SFadd prec emax.
Definition fsub : float32 -> float32 -> float32 := SFsub prec emax.
Definition fmul : float32 -> float32 -> float32 := SFmul prec emax.
Definition fdiv : float32 -> float32 -> float32 := SFdiv prec emax.
Definition fltb : float32 -> float32 -> bool := SFltb.

(** [static_cast<float>(n)] for an integer [n]: round to nearest even. *)
Definition of_Z (n : Z) : float32 := binary_normalize prec emax n 0 false.

(** A decimal literal [n/d] written with the [f] suffix: the binary32
    number nearest to it (the quotient of two exact integers, rounded
    once). *)
Definition of_decimal (n : Z) (d : positive) : float32 :=
  match n with
  | Z0 => S754_zero false
  | Zpos p => fdiv (S754_finite false p 0) (S754_finite false d 0)
  | Zneg p => fdiv (S754_finite true p 0) (S754_finite false d 0)
  end.

(** The rational a float denotes (0 for the non-finite ones). *)
Definition to_Q (x : float32) : Q :=
  match x with
  | S754_finite s m e =>
      let a := (inject_Z (Zpos m) * Qpower 2 e)%Q in
      if s then Qopp a else a
  | _ => 0%Q
  end.

Definition is_finite (x : float32) : bool :=
  match x with
  | S754_finite _ _ _ | S754_zero _ => true
  | _ => false
  end.

Definition is_zero (x : float32) : bool :=
  match x with
  | S754_zero _ => true
  | _ => false
  end.

(** How a value exactly half-way between two integers is rounded. *)
Inductive tie_rule : Type := TiesAway | TiesEven.

(** Nearest integer to the magnitude [m * 2^e]. *)
Definition round_mag (t : tie_rule) (m : positive) (e : Z) : Z :=
  if 0 <=? e then Zpos m * 2 ^ e
  else
    let d := 2 ^ (- e) in
    let q := Zpos m / d in
    let r := Zpos m mod d in
    match 2 * r ?= d with
    | Lt => q
    | Gt => q + 1
    | Eq => match t with
            | TiesAway => q + 1
            | TiesEven => if Z.even q then q else q + 1
            end
    end.

(** Nearest integer to a finite float (0 for the non-finite ones). *)
Definition round_int (t : tie_rule) (x : float32) : Z :=
  match x with
  | S754_finite s m e => if s then - round_mag t m e else round_mag t m e
  | _ => 0
  end.

(** C's [roundf]: nearest integer, half-way cases away from zero, the
    sign of a zero result is that of the argument. *)
Definition roundf (x : float32) : float32 :=
  match x with
  | S754_finite s m e =>
      match round_mag TiesAway m e with
      | Z0 => S754_zero s
      | n => binary_normalize prec emax (if s then - n else n) 0 false
      end
  | _ => x
  end.

(** CUDA's [__frcp_rn]: the correctly rounded reciprocal. *)
Definition frcp_rn (x : float32) : float32 := fdiv (of_Z 1) x.

End F32.

Import F32.

(** ** Helpers of [dali/core] *)

(** [clamp<int>(v, lo, hi)] of [dali/core/util.h]. *)
Definition clamp (v lo hi : Z) : Z := Z.min (Z.max v lo) hi.

(** Modelled from the spec: [ConvertSat<uint8_t>] of
    [dali/core/convert.h], which is not part of the sources at hand:
    a conversion that rounds to the nearest integer and clamps the
    result to the representable range [0,255] instead of wrapping.
    The spec leaves the treatment of half-way values open, so that
    choice is a parameter. *)
Definition ConvertSat (t : tie_rule) (x : float32) : Z :=
  match x with
  | S754_infinity s => if s then 0 else 255
  | _ => clamp (round_int t x) 0 255
  end.

(** ** Quantization tables *)

Definition mat8 : Type := list (list Z).

Definition mat_get (m : mat8) (i j : nat) : Z := nth j (nth i m nil) 0.

Definition GetQualityFactorScale (quality : Z) : float32 :=
  let quality := clamp quality 1 99 in
  if quality <? 50
  then fdiv (of_decimal 50 1) (of_Z quality)
  else fsub (of_decimal 2 1) (fdiv (of_Z (2 * quality)) (of_decimal 100 1)).

(** Quantization table coefficients that are suggested in the Annex K of
    the JPEG standard. *)
Definition luma_base : mat8 :=
  [ [16; 11; 10; 16; 24; 40; 51; 61];
    [12; 12; 14; 19; 26; 58; 60; 55];
    [14; 13; 16; 24; 40; 57; 69; 56];
    [14; 17; 22; 29; 51; 87; 80; 62];
    [18; 22; 37; 56; 68; 109; 103; 77];
    [24; 35; 55; 64; 81; 104; 113; 92];
    [49; 64; 78; 87; 103; 121; 120; 101];
    [72; 92; 95; 98; 112; 100; 103; 99] ].

Definition chroma_base : mat8 :=
  [ [17; 18; 24; 47; 99; 99; 99; 99];
    [18; 21; 26; 66; 99; 99; 99; 99];
    [24; 26; 56; 99; 99; 99; 99; 99];
    [47; 66; 99; 99; 99; 99; 99; 99];
    [99; 99; 99; 99; 99; 99; 99; 99];
    [99; 99; 99; 99; 99; 99; 99; 99];
    [99; 99; 99; 99; 99; 99; 99; 99];
    [99; 99; 99; 99; 99; 99; 99; 99] ].

(** The double loop [table(i, j) = ConvertSat<uint8_t>(scale * table(i, j))]. *)
Definition scale_table (t : tie_rule) (scale : float32) (table : mat8) : mat8 :=
  map (map (fun b => ConvertSat t (fmul scale (of_Z b)))) table.

Definition GetLumaQuantizationTable (t : tie_rule) (quality : Z) : mat8 :=
  scale_table t (GetQualityFactorScale quality) luma_base.

Definition GetChromaQuantizationTable (t : tie_rule) (quality : Z) : mat8 :=
  scale_table t (GetQualityFactorScale quality) chroma_base.

(** ** The table builder as the specification words it

    Exact rational arithmetic: the scale factor, the product with the
    base entry, one rounding to the nearest integer, saturation. *)

Definition round_Q (t : tie_rule) (x : Q) : Z :=
  let d := Zpos (Qden x) in
  let q := Qnum x / d in
  let r := Qnum x mod d in
  match 2 * r ?= d with
  | Lt => q
  | Gt => q + 1
  | Eq => match t with
          | TiesAway => if 0 <=? q then q + 1 else q
          | TiesEven => if Z.even q then q else q + 1
          end
  end.

Definition spec_scale (quality : Z) : Q :=
  let q := clamp quality 1 99 in
  if q <? 50 then (50 / inject_Z q)%Q
  else (2 - 2 * inject_Z q / 100)%Q.

Definition spec_table (t : tie_rule) (quality : Z) (base : mat8) : mat8 :=
  map (map (fun b => clamp (round_Q t (spec_scale quality * inject_Z b)) 0 255)) base.

(** Largest entry-wise distance between two tables. *)
Definition row_dist (r1 r2 : list Z) : Z :=
  fold_right Z.max 0 (map (fun p => Z.abs (fst p - snd p)) (combine r1 r2)).

Definition table_dist (a b : mat8) : Z :=
  fold_right Z.max 0 (map (fun p => row_dist (fst p) (snd p)) (combine a b)).

(** The qualities at which some scaled luma entry falls, in exact
    arithmetic, half-way between two integers while its binary32 value
    does not (or the reverse). *)
Definition luma_tie_qualities (t : tie_rule) : list Z :=
  match t with
  | TiesAway => [12; 36; 48; 85]
  | TiesEven => [12; 65]
  end.

Definition is_tie_quality (t : tie_rule) (quality : Z) : bool :=
  existsb (Z.eqb (clamp quality 1 99)) (luma_tie_qualities t).

(** ** The per-sample descriptor *)

Definition ivec2 : Type := (Z * Z)%type.

Record vec3 : Type := mk_vec3 { vx : Z; vy : Z; vz : Z }.

#[global] Instance vec3_eq_dec : EqDecision vec3.
Proof. solve_decision. Defined.

(** An input image is read through a sampler only: a pixel per
    coordinate pair [(x, y)]. *)
Definition image : Type := Z -> Z -> vec3.

(** The output buffer, addressed by coordinate pair. *)
Abbreviation surface := (gmap (Z * Z) vec3).

Record SampleDesc : Type := mk_SampleDesc {
  sample_in : image;
  sample_size : ivec2;
  luma_Q_table : mat8;
  chroma_Q_table : mat8
}.

(** A descriptor whose tables are left to their default member
    initializers. *)
Definition SampleDesc_default (t : tie_rule) (img : image) (size : ivec2) : SampleDesc :=
  {| sample_in := img;
     sample_size := size;
     luma_Q_table := GetLumaQuantizationTable t 95;
     chroma_Q_table := GetChromaQuantizationTable t 95 |}.

(** Tile descriptor of [dali/kernels/common/block_setup.h]; the sample
    it names is passed along with it. *)
Record BlockDesc : Type := mk_BlockDesc {
  block_start : ivec2;
  block_end : ivec2
}.

(** [align_up] of [dali/core/util.h]. *)
Definition align_up (x a : Z) : Z := (x + a - 1) ÷ a * a.

(** The values a loop [for (i = start; i < stop; i += step)] runs
    through, for a positive [step]. *)
Definition loop_range (start stop step : Z) : list Z :=
  map (fun k => start + Z.of_nat k * step)
      (seq 0 (Z.to_nat ((stop - start + step - 1) / step))).

(** ** Float literals of the source *)

Definition f_0_299 : float32 := of_decimal 299 1000.
Definition f_0_587 : float32 := of_decimal 587 1000.
Definition f_0_114 : float32 := of_decimal 114 1000.
Definition f_0_16873589 : float32 := of_decimal 16873589 100000000.
Definition f_0_33126411 : float32 := of_decimal 33126411 100000000.
Definition f_0_5 : float32 := of_decimal 5 10.
Definition f_0_41868759 : float32 := of_decimal 41868759 100000000.
Definition f_0_08131241 : float32 := of_decimal 8131241 100000000.
Definition f_0_25 : float32 := of_decimal 25 100.
Definition f_1_402 : float32 := of_decimal 1402 1000.
Definition f_0_34413629 : float32 := of_decimal 34413629 100000000.
Definition f_0_71413629 : float32 := of_decimal 71413629 100000000.
Definition f_1_772 : float32 := of_decimal 1772 1000.
Definition f_128 : float32 := of_decimal 128 1.

(** ** The quantizer *)

Definition quantize (value Q_coeff : float32) : float32 :=
  let Q_coeff := if fltb Q_coeff (of_Z 1) then of_Z 1 else Q_coeff in
  fmul Q_coeff (roundf (fmul value (frcp_rn Q_coeff))).

(** The quantizer as the specification words it: the coefficient
    divided by the table entry (at least 1), rounded to the nearest
    integer, multiplied back; exact rational arithmetic. *)
Definition spec_quantize (t : tie_rule) (v : Q) (Qc : Z) : Q :=
  let Q' := Z.max Qc 1 in
  (inject_Z Q' * inject_Z (round_Q t (v / inject_Z Q')))%Q.

(** ** Colour transforms and chroma subsampling *)

(** A group of pixels that share one chroma pair. *)
Record YCbCrSubsampled : Type := mk_YCbCrSubsampled {
  luma : list Z;
  cb : Z;
  cr : Z
}.

(** Modelled from the spec: the nearest-neighbour sampler of
    [dali/kernels/imgproc/sampler.h] with [BorderClamp]: coordinates
    outside the image are clamped to its edge. *)
Definition sampler (img : image) (size : ivec2) (pos : ivec2) : vec3 :=
  img (clamp (fst pos) 0 (fst size - 1)) (clamp (snd pos) 0 (snd size - 1)).

Definition in_bounds (size pos : ivec2) : bool :=
  (0 <=? fst pos) && (0 <=? snd pos) && (fst pos <? fst size) && (snd pos <? snd size).

Definition write_vec (size : ivec2) (surf : surface) (pos : ivec2) (v : vec3) : surface :=
  if in_bounds size pos then <[pos := v]> surf else surf.

Section Device.

(** The half-way rule of [ConvertSat] in device code. *)
Variable tie : tie_rule.

Definition rgb_to_y (rgb : vec3) : Z :=
  ConvertSat tie
    (fadd (fadd (fmul f_0_299 (of_Z (vx rgb))) (fmul f_0_587 (of_Z (vy rgb))))
          (fmul f_0_114 (of_Z (vz rgb)))).

Definition rgb_to_cb (rgb : vec3) : Z :=
  ConvertSat tie
    (fadd (fadd (fsub (fmul (SFopp f_0_16873589) (of_Z (vx rgb)))
                      (fmul f_0_33126411 (of_Z (vy rgb))))
                (fmul f_0_5 (of_Z (vz rgb))))
          f_128).

Definition rgb_to_cr (rgb : vec3) : Z :=
  ConvertSat tie
    (fadd (fsub (fsub (fmul f_0_5 (of_Z (vx rgb)))
                      (fmul f_0_41868759 (of_Z (vy rgb))))
                (fmul f_0_08131241 (of_Z (vz rgb))))
          f_128).

Definition rgb_to_cb_cr (rgb : vec3) : Z * Z := (rgb_to_cb rgb, rgb_to_cr rgb).

Definition avg4 (a b c d : vec3) : vec3 :=
  let f (p q r s : Z) := ConvertSat tie (fmul (of_Z (p + q + r + s)) f_0_25) in
  mk_vec3 (f (vx a) (vx b) (vx c) (vx d))
          (f (vy a) (vy b) (vy c) (vy d))
          (f (vz a) (vz b) (vz c) (vz d)).

Definition avg2 (a b : vec3) : vec3 :=
  let f (p q : Z) := ConvertSat tie (fmul (of_Z (p + q)) f_0_5) in
  mk_vec3 (f (vx a) (vx b)) (f (vy a) (vy b)) (f (vz a) (vz b)).

Definition ycbcr_to_rgb (ycbcr : vec3) : vec3 :=
  let y := of_Z (vx ycbcr) in
  let cb := fsub (of_Z (vy ycbcr)) f_128 in
  let cr := fsub (of_Z (vz ycbcr)) f_128 in
  mk_vec3 (ConvertSat tie (fadd y (fmul f_1_402 cr)))
          (ConvertSat tie (fsub (fsub y (fmul f_0_34413629 cb)) (fmul f_0_71413629 cr)))
          (ConvertSat tie (fadd y (fmul f_1_772 cb))).

Section Subsampling.

Variables horz_subsample vert_subsample : bool.

Definition kLumaLen : Z := (1 + Z.b2z horz_subsample) * (1 + Z.b2z vert_subsample).

Definition rgb_to_ycbcr_subsampled (offset : ivec2) (img : image) (size : ivec2)
  : YCbCrSubsampled :=
  let y := snd offset in
  let x := fst offset in
  let rgb0 := sampler img size (x, y) in
  if horz_subsample && vert_subsample then
    let rgb1 := sampler img size (x + 1, y) in
    let rgb2 := sampler img size (x, y + 1) in
    let rgb3 := sampler img size (x + 1, y + 1) in
    let cbcr := rgb_to_cb_cr (avg4 rgb0 rgb1 rgb2 rgb3) in
    {| luma := [rgb_to_y rgb0; rgb_to_y rgb1; rgb_to_y rgb2; rgb_to_y rgb3];
       cb := fst cbcr; cr := snd cbcr |}
  else if horz_subsample then
    let rgb1 := sampler img size (x + 1, y) in
    let cbcr := rgb_to_cb_cr (avg2 rgb0 rgb1) in
    {| luma := [rgb_to_y rgb0; rgb_to_y rgb1]; cb := fst cbcr; cr := snd cbcr |}
  else if vert_subsample then
    let rgb1 := sampler img size (x, y + 1) in
    let cbcr := rgb_to_cb_cr (avg2 rgb0 rgb1) in
    {| luma := [rgb_to_y rgb0; rgb_to_y rgb1]; cb := fst cbcr; cr := snd cbcr |}
  else
    let cbcr := rgb_to_cb_cr rgb0 in
    {| luma := [rgb_to_y rgb0]; cb := fst cbcr; cr := snd cbcr |}.

Definition luma_at (ycbcr : YCbCrSubsampled) (k : nat) : Z := nth k (luma ycbcr) 0.

Definition ycbcr_to_rgb_subsampled (offset : ivec2) (size : ivec2) (out : surface)
    (ycbcr : YCbCrSubsampled) : surface :=
  let y := snd offset in
  let x := fst offset in
  let px k := ycbcr_to_rgb (mk_vec3 (luma_at ycbcr k) (cb ycbcr) (cr ycbcr)) in
  let out := write_vec size out (x, y) (px 0%nat) in
  if horz_subsample && vert_subsample then
    let out := write_vec size out (x + 1, y) (px 1%nat) in
    let out := write_vec size out (x, y + 1) (px 2%nat) in
    write_vec size out (x + 1, y + 1) (px 3%nat)
  else if horz_subsample then
    write_vec size out (x + 1, y) (px 1%nat)
  else if vert_subsample then
    write_vec size out (x, y + 1) (px 1%nat)
  else out.

End Subsampling.

End Device.

(** ** Subsampling-only kernel *)

Definition range (n : Z) : list Z := map Z.of_nat (seq 0 (Z.to_nat n)).

(** The lanes [(threadIdx.x, threadIdx.y)] of one CUDA block, by
    increasing linear index. *)
Definition threads (blockDim_x blockDim_y : Z) : list (Z * Z) :=
  flat_map (fun ty => map (fun tx => (tx, ty)) (range blockDim_x)) (range blockDim_y).

Section ChromaSubsample.

Variable tie : tie_rule.
Variables horz_subsample vert_subsample : bool.
Variables blockDim_x blockDim_y : Z.

(** One pass of the loop body: convert a group and write it back. *)
Definition distort_group (sample : SampleDesc) (out : surface) (pos : ivec2) : surface :=
  let y := Z.shiftl (snd pos) (Z.b2z vert_subsample) in
  let x := Z.shiftl (fst pos) (Z.b2z horz_subsample) in
  let ycbcr := rgb_to_ycbcr_subsampled tie horz_subsample vert_subsample (x, y)
                 (sample_in sample) (sample_size sample) in
  ycbcr_to_rgb_subsampled tie horz_subsample vert_subsample (x, y)
    (sample_size sample) out ycbcr.

Definition ChromaSubsample_thread (sample : SampleDesc) (block : BlockDesc)
    (out : surface) (th : Z * Z) : surface :=
  let aligned_end_y := align_up (snd (block_end block)) (1 + Z.b2z vert_subsample) in
  let aligned_end_x := align_up (fst (block_end block)) (1 + Z.b2z horz_subsample) in
  let y_start := snd th + snd (block_start block) in
  let x_start := fst th + fst (block_start block) in
  if (y_start >=? snd (block_end block)) || (x_start >=? fst (block_end block)) then out
  else
    fold_left (fun out pos_y =>
      fold_left (fun out pos_x => distort_group sample out (pos_x, pos_y))
                (loop_range x_start aligned_end_x blockDim_x) out)
      (loop_range y_start aligned_end_y blockDim_y) out.

Definition ChromaSubsampleDistortion (sample : SampleDesc) (block : BlockDesc)
    (out : surface) : surface :=
  fold_left (ChromaSubsample_thread sample block) (threads blockDim_x blockDim_y) out.

End ChromaSubsample.

(** ** The compression-distortion kernel *)

(** The shared array [flat_blocks[total_blocks][8][9]], addressed by
    element offset. *)
Definition scratch : Type := Z -> float32.

Definition cell (blk row col : Z) : Z := blk * 72 + row * 9 + col.

Definition store (s : scratch) (i : Z) (v : float32) : scratch :=
  fun k => if k =? i then v else s k.

(** The eight elements [data[0], data[stride], ..., data[7 * stride]]
    a 1-D transform works on, and their replacement. *)
Definition load_slice (s : scratch) (base stride : Z) : list float32 :=
  map (fun k => s (base + Z.of_nat k * stride)) (seq 0 8).

Definition store_slice (s : scratch) (base stride : Z) (vals : list float32) : scratch :=
  fold_left (fun s k => store s (base + Z.of_nat k * stride) (nth k vals (S754_zero false)))
            (seq 0 8) s.

Definition row_slice (slice_id : Z) : Z := cell (Z.shiftr slice_id 3) (Z.land slice_id 7) 0.
Definition col_slice (slice_id : Z) : Z := cell (Z.shiftr slice_id 3) 0 (Z.land slice_id 7).

Definition col_stride : Z := 1.
Definition row_stride : Z := 9.

Section Kernel.

Variable tie : tie_rule.
Variables horz_subsample vert_subsample quantization : bool.

(** The 1-D 8-point transforms of [dct_8x8_gpu.cuh], external to this
    file: each maps the eight elements of a slice to their
    replacement. *)
Variables dct_fwd_8x8_1d dct_inv_8x8_1d : list float32 -> list float32.

Variables blockDim_x blockDim_y : Z.

Definition hs : Z := Z.b2z horz_subsample.
Definition vs : Z := Z.b2z vert_subsample.

Definition vert_chroma_blocks : Z := 2.
Definition num_pages : Z :=
  if horz_subsample then if vert_subsample then 2 else 3 else 4.
Definition vert_luma_blocks : Z := Z.shiftl vert_chroma_blocks vs.
Definition horz_chroma_blocks : Z := 4.
Definition horz_luma_blocks : Z := Z.shiftl horz_chroma_blocks hs.
Definition chroma_page : Z := vert_chroma_blocks * horz_chroma_blocks.
Definition chroma_blocks : Z := chroma_page * num_pages.
Definition luma_page : Z := vert_luma_blocks * horz_luma_blocks.
Definition luma_blocks : Z := luma_page * num_pages.
Definition total_blocks : Z := 2 * chroma_blocks + luma_blocks.

(** Position of a lane within its 8x8 blocks. *)
Definition chroma_x (th : Z * Z) : Z := Z.land (fst th) 7.
Definition chroma_y (th : Z * Z) : Z := Z.land (snd th) 7.
Definition luma_x (th : Z * Z) : Z := Z.land (Z.shiftl (fst th) hs) 7.
Definition luma_y (th : Z * Z) : Z := Z.land (Z.shiftl (snd th) vs) 7.

Definition chroma_block_idx (th : Z * Z) : Z :=
  Z.shiftr (snd th) 3 * horz_chroma_blocks + Z.shiftr (fst th) 3.
Definition luma_block_idx (th : Z * Z) : Z :=
  Z.shiftr (Z.shiftl (snd th) vs) 3 * horz_luma_blocks
  + Z.shiftr (Z.shiftl (fst th) hs) 3.

(** The block each of the three plane pointers [cb], [cr], [luma]
    designates on a page. *)
Definition cb_block (th : Z * Z) (page : Z) : Z :=
  chroma_block_idx th + page * chroma_page.
Definition cr_block (th : Z * Z) (page : Z) : Z :=
  chroma_blocks + chroma_block_idx th + page * chroma_page.
Definition luma_block (th : Z * Z) (page : Z) : Z :=
  chroma_blocks * 2 + luma_block_idx th + page * luma_page.

Definition cb_cell (th : Z * Z) (page : Z) : Z :=
  cell (cb_block th page) (chroma_y th) (chroma_x th).
Definition cr_cell (th : Z * Z) (page : Z) : Z :=
  cell (cr_block th page) (chroma_y th) (chroma_x th).
Definition luma_cell (th : Z * Z) (page : Z) (i j : Z) : Z :=
  cell (luma_block th page) (luma_y th + i) (luma_x th + j).

(** The iterations [(i, j)] of the two loops over the luma samples of
    a group, with the running index [k]. *)
Definition sub_positions : list (Z * Z * nat) :=
  flat_map (fun i => map (fun j => (i, j, Z.to_nat (i * (1 + hs) + j))) (range (1 + hs)))
           (range (1 + vs)).

Definition pages : list Z := range num_pages.

Definition page_offset (blk_pos : Z * Z) (th : Z * Z) (page : Z) : ivec2 :=
  let pos_x := fst blk_pos + fst th in
  let pos_y := snd blk_pos + snd th + page * vert_chroma_blocks * 8 in
  (Z.shiftl pos_x hs, Z.shiftl pos_y vs).

(** Stage 1: colour transform into the scratch blocks, shifted to
    [-128, 128]. *)
Definition gather_page (sample : SampleDesc) (blk_pos th : Z * Z)
    (s : scratch) (page : Z) : scratch :=
  let ycbcr := rgb_to_ycbcr_subsampled tie horz_subsample vert_subsample
                 (page_offset blk_pos th page) (sample_in sample) (sample_size sample) in
  let s := store s (cb_cell th page) (fsub (of_Z (cb ycbcr)) f_128) in
  let s := store s (cr_cell th page) (fsub (of_Z (cr ycbcr)) f_128) in
  fold_left (fun s '(i, j, k) =>
               store s (luma_cell th page i j) (fsub (of_Z (luma_at ycbcr k)) f_128))
            sub_positions s.

Definition gather_thread (sample : SampleDesc) (blk_pos : Z * Z)
    (s : scratch) (th : Z * Z) : scratch :=
  fold_left (gather_page sample blk_pos th) pages s.

(** Stages 2 and 4: a 1-D transform over every slice, the slices
    dealt to the lanes round-robin. *)
Definition tid (th : Z * Z) : Z := fst th + blockDim_x * snd th.
Definition block_size : Z := blockDim_x * blockDim_y.
Definition num_dct_slices : Z := total_blocks * 8.

Definition dct_in_place (f : list float32 -> list float32) (stride base : Z)
    (s : scratch) : scratch :=
  store_slice s base stride (f (load_slice s base stride)).

Definition dct_thread (f : list float32 -> list float32) (stride : Z)
    (base_of : Z -> Z) (s : scratch) (th : Z * Z) : scratch :=
  fold_left (fun s slice_id => dct_in_place f stride (base_of slice_id) s)
            (loop_range (tid th) num_dct_slices block_size) s.

Definition dct_pass (f : list float32 -> list float32) (stride : Z)
    (base_of : Z -> Z) (s : scratch) : scratch :=
  fold_left (dct_thread f stride base_of) (threads blockDim_x blockDim_y) s.

(** Stage 3: every lane quantizes its own coefficients. *)
Definition chroma_q (sample : SampleDesc) (th : Z * Z) : float32 :=
  of_Z (mat_get (chroma_Q_table sample) (Z.to_nat (chroma_y th)) (Z.to_nat (chroma_x th))).

Definition luma_q (sample : SampleDesc) (th : Z * Z) (i j : Z) : float32 :=
  of_Z (mat_get (luma_Q_table sample)
                (Z.to_nat (luma_y th + i)) (Z.to_nat (luma_x th + j))).

Definition quantize_page (sample : SampleDesc) (th : Z * Z)
    (s : scratch) (page : Z) : scratch :=
  let s := store s (cb_cell th page) (quantize (s (cb_cell th page)) (chroma_q sample th)) in
  let s := store s (cr_cell th page) (quantize (s (cr_cell th page)) (chroma_q sample th)) in
  fold_left (fun s '(i, j, k) =>
               store s (luma_cell th page i j)
                     (quantize (s (luma_cell th page i j)) (luma_q sample th i j)))
            sub_positions s.

Definition quantize_thread (sample : SampleDesc) (s : scratch) (th : Z * Z) : scratch :=
  fold_left (quantize_page sample th) pages s.

(** Stage 5: back to [0, 255], inverse colour transform, guarded
    write. *)
Definition scattered_group (th : Z * Z) (s : scratch) (page : Z) : YCbCrSubsampled :=
  {| cb := ConvertSat tie (fadd (s (cb_cell th page)) f_128);
     cr := ConvertSat tie (fadd (s (cr_cell th page)) f_128);
     luma := map (fun '(i, j, k) => ConvertSat tie (fadd (s (luma_cell th page i j)) f_128))
                 sub_positions |}.

Definition scatter_page (sample : SampleDesc) (blk_pos th : Z * Z) (s : scratch)
    (out : surface) (page : Z) : surface :=
  let offset := page_offset blk_pos th page in
  if (fst offset >=? fst (sample_size sample)) || (snd offset >=? snd (sample_size sample))
  then out
  else ycbcr_to_rgb_subsampled tie horz_subsample vert_subsample offset
         (sample_size sample) out (scattered_group th s page).

Definition scatter_thread (sample : SampleDesc) (blk_pos : Z * Z) (s : scratch)
    (out : surface) (th : Z * Z) : surface :=
  fold_left (scatter_page sample blk_pos th s) pages out.

(** The stages between two barriers run lane by lane; the lanes of a
    stage touch pairwise distinct elements. *)
Definition forward_dct (s : scratch) : scratch :=
  dct_pass dct_fwd_8x8_1d row_stride col_slice
    (dct_pass dct_fwd_8x8_1d col_stride row_slice s).

Definition inverse_dct (s : scratch) : scratch :=
  dct_pass dct_inv_8x8_1d col_stride row_slice
    (dct_pass dct_inv_8x8_1d row_stride col_slice s).

Definition quantize_stage (sample : SampleDesc) (s : scratch) : scratch :=
  if quantization
  then fold_left (quantize_thread sample) (threads blockDim_x blockDim_y) s
  else s.

Definition gather_stage (sample : SampleDesc) (blk_pos : Z * Z) (s : scratch) : scratch :=
  fold_left (gather_thread sample blk_pos) (threads blockDim_x blockDim_y) s.

Definition scatter_stage (sample : SampleDesc) (blk_pos : Z * Z) (s : scratch)
    (out : surface) : surface :=
  fold_left (scatter_thread sample blk_pos s) (threads blockDim_x blockDim_y) out.

(** One iteration of the loops over [blk_pos_y] and [blk_pos_x]. *)
Definition tile_step (sample : SampleDesc) (st : scratch * surface) (blk_pos : Z * Z)
    : scratch * surface :=
  let s := gather_stage sample blk_pos (fst st) in
  let s := forward_dct s in
  let s := quantize_stage sample s in
  let s := inverse_dct s in
  (s, scatter_stage sample blk_pos s (snd st)).

Definition JpegCompressionDistortion (sample : SampleDesc) (block : BlockDesc)
    (s0 : scratch) (out : surface) : surface :=
  let aligned_start_x := Z.land (fst (block_start block)) (-8) in
  let aligned_start_y := Z.land (snd (block_start block)) (-8) in
  let aligned_end_y := align_up (snd (block_end block)) 8 in
  let aligned_end_x := align_up (fst (block_end block)) 8 in
  let ystep := num_pages * vert_chroma_blocks * 8 in
  snd (fold_left (fun st blk_pos_y =>
         fold_left (fun st blk_pos_x => tile_step sample st (blk_pos_x, blk_pos_y))
                   (loop_range aligned_start_x aligned_end_x blockDim_x) st)
       (loop_range aligned_start_y aligned_end_y ystep) (s0, out)).

End Kernel.

(** ** Notions used to state the properties *)

(** *** Checks on the quantization tables *)

(** Row and column indices of an 8x8 table. *)
Definition indices8 : list nat := seq 0 8.

(** [b] is entry-wise at most [a]. *)
Definition mat_leb (b a : mat8) : bool :=
  forallb (fun i => forallb (fun j => mat_get b i j <=? mat_get a i j) indices8) indices8.

(** Every entry of [m] lies in [[lo, 255]]. *)
Definition mat_in_range (lo : Z) (m : mat8) : bool :=
  forallb (fun i => forallb (fun j =>
      (lo <=? mat_get m i j) && (mat_get m i j <=? 255)) indices8) indices8.

(** Two tables are 8x8 and agree entry by entry. *)
Definition mat_eqb (a b : mat8) : bool :=
  forallb (fun i => forallb (fun j => mat_get a i j =? mat_get b i j) indices8) indices8
  && (length a =? 8)%nat && (length b =? 8)%nat
  && forallb (fun r => (length r =? 8)%nat) a && forallb (fun r => (length r =? 8)%nat) b.

(** The binary32 products [scale * table(i, j)], before conversion. *)
Definition products (s : float32) (base : mat8) : list (list float32) :=
  map (map (fun b => fmul s (of_Z b))) base.

(** The four tables of one quality: luma and chroma, under either
    half-way rule. *)
Record tables : Type := mk_tables {
  luma_away : mat8; luma_even : mat8; chroma_away : mat8; chroma_even : mat8
}.

(** The luma table of a quality under a half-way rule. *)
Definition luma_of (t : tie_rule) (T : tables) : mat8 :=
  match t with TiesAway => luma_away T | TiesEven => luma_even T end.

(** The chroma table of a quality under a half-way rule. *)
Definition chroma_of (t : tie_rule) (T : tables) : mat8 :=
  match t with TiesAway => chroma_away T | TiesEven => chroma_even T end.

(** The tables the builders return for a quality, the products
    computed once for both half-way rules. *)
Definition tables_at (q : Z) : tables :=
  let s := GetQualityFactorScale q in
  let pl := products s luma_base in
  let pc := products s chroma_base in
  {| luma_away := map (map (ConvertSat TiesAway)) pl;
     luma_even := map (map (ConvertSat TiesEven)) pl;
     chroma_away := map (map (ConvertSat TiesAway)) pc;
     chroma_even := map (map (ConvertSat TiesEven)) pc |}.

(** What is checked of the tables of one quality: agreement with the
    exactly computed tables (up to the half-way cases of the luma
    table), accuracy of the scale factor, range of the entries. *)
Definition quality_check (t : tie_rule) (q : Z) (T : tables) : bool :=
  let lo := if q <=? 97 then 1 else 0 in
  mat_eqb (chroma_of t T) (spec_table t q chroma_base)
  && (table_dist (luma_of t T) (spec_table t q luma_base)
      =? (if is_tie_quality t q then 1 else 0))
  && Qle_bool (Qabs (to_Q (GetQualityFactorScale q) - spec_scale q)) (1 # 524288)
  && mat_in_range lo (luma_of t T) && mat_in_range lo (chroma_of t T).

(** Each table is entry-wise at most its predecessor in the list. *)
Fixpoint adjacent_check (l : list tables) : bool :=
  match l with
  | a :: (b :: _) as rest =>
      mat_leb (luma_away b) (luma_away a) && mat_leb (luma_even b) (luma_even a)
      && mat_leb (chroma_away b) (chroma_away a) && mat_leb (chroma_even b) (chroma_even a)
      && adjacent_check rest
  | _ => true
  end.

(** The qualities 1 to 99. *)
Definition qualities : list Z := map Z.of_nat (seq 1 99).

(** The checks above, over a list of qualities with their tables. *)
Definition check_list (L : list (Z * tables)) : bool :=
  forallb (fun qt => quality_check TiesAway (fst qt) (snd qt)
                     && quality_check TiesEven (fst qt) (snd qt)) L
  && adjacent_check (map snd L).

(** Every quality from 1 to 99 with its tables. *)
Definition table_list : list (Z * tables) := map (fun q => (q, tables_at q)) qualities.

(** *** Subsampling groups *)

(** The pixel positions of the group anchored at [offset], in the order
    of the luma samples. *)
Definition group_positions (h v : bool) (offset : ivec2) : list ivec2 :=
  map (fun '(i, j, _) => (fst offset + j, snd offset + i)) (sub_positions h v).

(** A sample image: red in column 0, blue elsewhere. *)
Definition two_tone : image :=
  fun x y => if x =? 0 then mk_vec3 255 0 0 else mk_vec3 0 0 255.

(** A channel value a [uint8_t] can hold. *)
Definition valid_channel (c : Z) : bool := (0 <=? c) && (c <=? 255).

(** A pixel whose three channels are 8-bit values. *)
Definition valid_rgb (p : vec3) : bool :=
  valid_channel (vx p) && valid_channel (vy p) && valid_channel (vz p).

(** The input pixels a group is computed from: one per group position,
    each read with its coordinates clamped to the image. *)
Definition sampled_pixels (h v : bool) (offset : ivec2) (img : image) (size : ivec2)
  : list vec3 :=
  map (fun p => img (clamp (fst p) 0 (fst size - 1)) (clamp (snd p) 0 (snd size - 1)))
      (group_positions h v offset).

(** The arithmetic mean of a list of channel values, rounded to the
    nearest integer and saturated; exact rational arithmetic. *)
Definition mean_channel (tie : tie_rule) (l : list Z) : Z :=
  clamp (round_Q tie (inject_Z (fold_right Z.add 0 l) / inject_Z (Z.of_nat (length l)))) 0 255.

(** Channel-wise mean of a list of pixels. *)
Definition mean_rgb (tie : tie_rule) (l : list vec3) : vec3 :=
  mk_vec3 (mean_channel tie (map vx l)) (mean_channel tie (map vy l))
          (mean_channel tie (map vz l)).

(** The sums of up to four 8-bit channel values. *)
Definition sums4 : list Z := range 1021.

(** For a sum [s], the binary32 computations of [avg4] and [avg2]
    agree with the exact rounded means [s/4] and [s/2]. *)
Definition avg_check (tie : tie_rule) (s : Z) : bool :=
  (ConvertSat tie (fmul (of_Z s) f_0_25)
     =? clamp (round_Q tie (inject_Z s / inject_Z 4)) 0 255)
  && (ConvertSat tie (fmul (of_Z s) f_0_5)
     =? clamp (round_Q tie (inject_Z s / inject_Z 2)) 0 255).

(** *** Binary32 rounding and its error *)

(** After [k] one-bit shifts of [m], the record holds the quotient, and
    its two flags locate the remainder [t] against the half [2^k / 2]. *)
Definition shr_inv (m : Z) (k : nat) (mrs : shr_record) : Prop :=
  exists t, 0 <= t < 2 ^ Z.of_nat k /\ 0 <= shr_m mrs
            /\ m = shr_m mrs * 2 ^ Z.of_nat k + t
            /\ (shr_r mrs = true <-> 2 ^ Z.of_nat k <= 2 * t)
            /\ (shr_s mrs = true <-> (t <> 0 /\ 2 * t <> 2 ^ Z.of_nat k)).

(** The sign bit of a float as a rational factor. *)
Definition sign_Q (s : bool) : Q := if s then (-1)%Q else 1%Q.

(** The table entry as the kernel holds it, and its reciprocal. *)
Definition floored (Q_coeff : float32) : float32 :=
  if fltb Q_coeff (of_Z 1) then of_Z 1 else Q_coeff.

(** For a table entry [Qc]: the floored entry is exact, its
    reciprocal is finite, in [[0,1]], and within a relative [2^-25] of
    the exact reciprocal. *)
Definition rcp_check (Qc : Z) : bool :=
  let Q' := floored (of_Z Qc) in
  let r := frcp_rn Q' in
  let q := inject_Z (Z.max Qc 1) in
  is_finite Q' && Qeq_bool (to_Q Q') q && is_finite r
  && Qle_bool 0 (to_Q r) && Qle_bool (to_Q r) 1
  && Qle_bool (Qabs (to_Q r * q - 1)) ((1 # 33554432) * q).

(** Largest channel-wise distance between two pixels. *)
Definition level_dist (a b : vec3) : Z :=
  Z.max (Z.abs (vx a - vx b)) (Z.max (Z.abs (vy a - vy b)) (Z.abs (vz a - vz b))).

(** *** Scratch contents and output of the kernel *)

(** Going from [out] to [out'], every position either keeps its
    content or holds a pixel that satisfies [P] there. *)
Definition writes_ok (P : ivec2 -> vec3 -> Prop) (out out' : surface) : Prop :=
  forall p, out' !! p = out !! p \/ exists v, out' !! p = Some v /\ P p v.

(** Position [p] of [out] holds a pixel that satisfies [P]. *)
Definition holds_at (P : ivec2 -> vec3 -> Prop) (p : ivec2) (out : surface) : Prop :=
  exists v, out !! p = Some v /\ P p v.

(** Without subsampling the scratch has 96 blocks of 8 rows of 9
    floats (6912 in all); the ninth float of a row is padding. *)
Definition used_cell (n : Z) : Prop := 0 <= n < 6912 /\ n mod 9 < 8.

(** The plane (0: Cb, 1: Cr, 2: luma), the page and the lane an
    element belongs to, without subsampling. *)
Definition plane_of (n : Z) : Z := n / 72 / 32.
Definition page_of (n : Z) : Z := (n / 72) mod 32 / 8.
Definition lane_of (n : Z) : Z * Z :=
  ((n / 72) mod 8 mod 4 * 8 + n mod 9, (n / 72) mod 8 / 4 * 8 + n mod 72 / 9).

(** The lanes of the 32x16 CUDA block the kernel is written for. *)
Definition valid_lane (th : Z * Z) : Prop := 0 <= fst th < 32 /\ 0 <= snd th < 16.

(** The value the gather leaves in element [n]: the centred level of
    the plane of [n], for the pixel of the lane and page that own [n]. *)
Definition gathered (tie : tie_rule) (sample : SampleDesc) (blk_pos : Z * Z) (n : Z)
  : float32 :=
  let g := rgb_to_ycbcr_subsampled tie false false
             (page_offset false false blk_pos (lane_of n) (page_of n))
             (sample_in sample) (sample_size sample) in
  fsub (of_Z (if plane_of n =? 0 then cb g
              else if plane_of n =? 1 then cr g else luma_at g 0)) f_128.

(** The pixel a lane writes for a page, from the scratch contents. *)
Definition written_pixel (tie : tie_rule) (th : Z * Z) (s : scratch) (page : Z) : vec3 :=
  ycbcr_to_rgb tie
    (mk_vec3 (ConvertSat tie (fadd (s (luma_cell false false th page 0 0)) f_128))
             (ConvertSat tie (fadd (s (cb_cell th page)) f_128))
             (ConvertSat tie (fadd (s (cr_cell false false th page)) f_128))).

(** The mid-gray pixel. *)
Definition gray : vec3 := mk_vec3 128 128 128.

(** A 1-D transform that maps a slice of zeros (of either sign) to
    zeros. *)
Definition keeps_zeros (f : list float32 -> list float32) : Prop :=
  forall l, length l = 8%nat -> forallb is_zero l = true -> forallb is_zero (f l) = true.

(** Quantizing a zero against the entry [e] gives a zero. *)
Definition zero_kept (e : Z) : bool :=
  is_zero (quantize (S754_zero false) (of_Z e)) && is_zero (quantize (S754_zero true) (of_Z e)).

(** [zero_kept] for every entry of every table of a list. *)
Definition zero_kept_all (L : list mat8) : bool :=
  forallb (fun m => forallb (forallb zero_kept) m) L.

(** The quality-95 tables, under either half-way rule. *)
Definition default_tables : list mat8 :=
  [GetLumaQuantizationTable TiesAway 95; GetLumaQuantizationTable TiesEven 95;
   GetChromaQuantizationTable TiesAway 95; GetChromaQuantizationTable TiesEven 95].

(** The row [r] and the column [c] of block [b]. *)
Definition block_row (s : scratch) (b r : Z) : list float32 :=
  load_slice s (cell b r 0) col_stride.

Definition block_col (s : scratch) (b c : Z) : list float32 :=
  load_slice s (cell b 0 c) row_stride.

(** A scratch value as the gather leaves it: a level, centred. *)
Definition centred_level (x : float32) : Prop :=
  exists k, 0 <= k <= 255 /\ x = fsub (of_Z k) f_128.

(** [x] is finite and within [e] of [y]. *)
Definition near (e : Q) (x y : float32) : Prop :=
  is_finite x = true /\ (Qabs (to_Q x - to_Q y) <= e)%Q.

(** [x] is finite and of magnitude at most [B]. *)
Definition bounded (B : Q) (x : float32) : Prop :=
  is_finite x = true /\ (Qabs (to_Q x) <= B)%Q.

(** A slice: eight elements, each satisfying [P]. *)
Definition slice_of (P : float32 -> Prop) (l : list float32) : Prop :=
  length l = 8%nat /\ forall k, (k < 8)%nat -> P (nth k l (S754_zero false)).

(** Element by element, [y] is within [e] of [l]. *)
Definition slice_near (e : Q) (y l : list float32) : Prop :=
  forall k, (k < 8)%nat -> near e (nth k y (S754_zero false)) (nth k l (S754_zero false)).

(** Modelled from the spec: the 1-D transforms [dct_fwd_8x8_1d] and
    [dct_inv_8x8_1d] of [dct_8x8_gpu.cuh], which are not among the
    sources, as maps on a slice of eight elements.  The spec asks that
    the forward and the inverse transform cancel approximately; for
    the two primitives, with a magnitude bound [B] and tolerances
    [delta] and [tol], that is taken to mean:
    - the forward transform returns eight elements, of magnitude at
      most [B] when it is given centred levels;
    - the inverse undoes the forward transform of a slice bounded by
      [B] up to [delta];
    - the inverse, given the forward transform of a slice of centred
      levels perturbed by at most [delta], returns that slice up to
      [tol]. *)
Definition dct_1d_contract (B delta tol : Q)
    (dct_fwd dct_inv : list float32 -> list float32) : Prop :=
  (forall l, length l = 8%nat -> length (dct_fwd l) = 8%nat)
  /\ (forall l, slice_of centred_level l -> slice_of (bounded B) (dct_fwd l))
  /\ (forall l, slice_of (bounded B) l -> slice_near delta (dct_inv (dct_fwd l)) l)
  /\ (forall l y, slice_of centred_level l -> length y = 8%nat ->
        slice_near delta y (dct_fwd l) -> slice_near tol (dct_inv y) l).

(** Sample transforms that cancel exactly: a rotation of the slice by
    one element, and the rotation back. *)
Definition rotate_left (l : list float32) : list float32 :=
  match l with
  | x :: r => r ++ [x]
  | [] => []
  end.

Definition rotate_right (l : list float32) : list float32 :=
  match l with
  | [] => []
  | _ => List.last l (S754_zero false) :: List.removelast l
  end.

(** A pixel value within one level per channel of the input at the
    same position. *)
Definition near_input (img : image) (p : ivec2) (v : vec3) : Prop :=
  level_dist v (img (fst p) (snd p)) <= 1.

(** *** Ownership of the scratch elements *)

(** The elements a lane owns on a page: one of Cb, one of Cr, and the
    luma sub-positions [(i, j)] of its group. *)
Inductive slot : Type := SCb | SCr | SLuma (i j : Z).

(** The scratch element of a slot of a lane on a page. *)
Definition slot_cell (h v : bool) (th : Z * Z) (page : Z) (o : slot) : Z :=
  match o with
  | SCb => cb_cell th page
  | SCr => cr_cell h v th page
  | SLuma i j => luma_cell h v th page i j
  end.

(** The table entry a lane holds for a slot, as a float. *)
Definition slot_q (h v : bool) (sample : SampleDesc) (th : Z * Z) (o : slot) : float32 :=
  match o with
  | SCb | SCr => chroma_q sample th
  | SLuma i j => luma_q h v sample th i j
  end.

(** The luma sub-positions that exist under the subsampling flags. *)
Definition valid_slot (h v : bool) (o : slot) : Prop :=
  match o with
  | SLuma i j => 0 <= i <= vs v /\ 0 <= j <= hs h
  | _ => True
  end.

(** The slots of a lane, in the order the quantization stage visits
    them. *)
Definition slots (h v : bool) : list slot :=
  SCb :: SCr :: map (fun '(i, j, _) => SLuma i j) (sub_positions h v).

(** The lane, page and slot that the element in row [row], column
    [col] of block [b] belongs to. *)
Definition owner_at (h v : bool) (b row col : Z) : (Z * Z) * Z * slot :=
  let cbn := chroma_blocks h v in
  if b <? 2 * cbn then
    let k := b mod 8 in
    ((k mod 4 * 8 + col, k / 4 * 8 + row), b mod cbn / 8, if b <? cbn then SCb else SCr)
  else
    let b' := b - 2 * cbn in
    let k := b' mod luma_page h v in
    let Y := k / horz_luma_blocks h * 8 + row in
    let X := k mod horz_luma_blocks h * 8 + col in
    ((X / (1 + hs h), Y / (1 + vs v)), b' / luma_page h v,
     SLuma (Y mod (1 + vs v)) (X mod (1 + hs h))).

(** The lane, page and slot of the scratch element at offset [n]. *)
Definition owner (h v : bool) (n : Z) : (Z * Z) * Z * slot :=
  owner_at h v (n / 72) (n mod 72 / 9) (n mod 9).

(** *** Notions for the further properties *)

(** For a quality [q] in [1,99]: the scale factor is finite, lies in
    (0, 50], is at most 1 exactly when [q >= 50], and is strictly
    above the one of [q + 1]. *)
Definition scale_check (q : Z) : bool :=
  let a := GetQualityFactorScale q in
  is_finite a
  && negb (Qle_bool (to_Q a) 0) && Qle_bool (to_Q a) 50
  && (if 50 <=? q then Qle_bool (to_Q a) 1 else negb (Qle_bool (to_Q a) 1))
  && ((99 <=? q) || negb (Qle_bool (to_Q a) (to_Q (GetQualityFactorScale (q + 1))))).

(** The constant table whose entries are all [c]. *)
Definition const_table (c : Z) : mat8 := repeat (repeat c 8) 8.

(** The tables of quality 50 are the base tables, and those of quality 1
    are saturated, under either half-way rule. *)
Definition anchor_tables_check : bool :=
  forallb (fun t =>
      mat_eqb (GetLumaQuantizationTable t 50) luma_base
      && mat_eqb (GetChromaQuantizationTable t 50) chroma_base
      && mat_eqb (GetLumaQuantizationTable t 1) (const_table 255)
      && mat_eqb (GetChromaQuantizationTable t 1) (const_table 255))
    [TiesAway; TiesEven].

(** For a level [c]: the neutral pixel [(c, c, c)] has luma [c] and
    chroma (128, 128), and is recovered exactly from them. *)
Definition neutral_check (tie : tie_rule) (c : Z) : bool :=
  let p := mk_vec3 c c c in
  (rgb_to_y tie p =? c) && (rgb_to_cb tie p =? 128) && (rgb_to_cr tie p =? 128)
  && (let q := ycbcr_to_rgb tie (mk_vec3 c 128 128) in
      (vx q =? c) && (vy q =? c) && (vz q =? c)).

(** For a sum [s] of four (of two) levels: the result of [avg4] (of
    [avg2]) is within one half of [s/4] (of [s/2]). *)
Definition avg_near_check (tie : tie_rule) (s : Z) : bool :=
  let r4 := ConvertSat tie (fmul (of_Z s) f_0_25) in
  let r2 := ConvertSat tie (fmul (of_Z s) f_0_5) in
  (Z.abs (4 * r4 - s) <=? 2) && ((510 <? s) || (Z.abs (2 * r2 - s) <=? 1)).

(** The three channel projections. *)
Definition channels : list (vec3 -> Z) := [vx; vy; vz].

(** The loop position [(pos_x, pos_y)] of the group that contains
    pixel [p], and the pixel that group is anchored at. *)
Definition group_of (h v : bool) (p : ivec2) : ivec2 :=
  (Z.shiftr (fst p) (Z.b2z h), Z.shiftr (snd p) (Z.b2z v)).

Definition anchor (h v : bool) (p : ivec2) : ivec2 :=
  (Z.shiftl (fst (group_of h v p)) (Z.b2z h), Z.shiftl (snd (group_of h v p)) (Z.b2z v)).

(** What chroma subsampling makes of pixel [p]: its own luma, with the
    chroma pair of its group. *)
Definition subsampled_pixel (tie : tie_rule) (h v : bool) (img : image) (size : ivec2)
    (p : ivec2) : vec3 :=
  let g := rgb_to_ycbcr_subsampled tie h v (anchor h v p) img size in
  ycbcr_to_rgb tie (mk_vec3 (rgb_to_y tie (img (fst p) (snd p))) (cb g) (cr g)).

(** The written pixel is the subsampled input pixel. *)
Definition is_subsampled (tie : tie_rule) (h v : bool) (img : image) (size : ivec2)
    (p : ivec2) (px : vec3) : Prop :=
  px = subsampled_pixel tie h v img size p.

(** The elements of [flat_blocks[total_blocks][8][9]] that hold
    coefficients: inside the array, and not the ninth (padding) float
    of a row. *)
Definition used_element (h v : bool) (n : Z) : Prop :=
  0 <= n < total_blocks h v * 72 /\ n mod 9 < 8.

(** The level a slot of a group holds. *)
Definition slot_level (h : bool) (g : YCbCrSubsampled) (o : slot) : Z :=
  match o with
  | SCb => cb g
  | SCr => cr g
  | SLuma i j => luma_at g (Z.to_nat (i * (1 + hs h) + j))
  end.

(** Two scratch memories that agree on the elements in use. *)
Definition same_used (h v : bool) (s s' : scratch) : Prop :=
  forall n, used_element h v n -> s n = s' n.

(** Two scratch memories that agree outside the elements in use. *)
Definition same_unused (h v : bool) (s s' : scratch) : Prop :=
  forall n, ~ used_element h v n -> s n = s' n.

(** The value stage 1 stores in element [n]. *)
Definition gathered_value (tie : tie_rule) (h v : bool) (sample : SampleDesc)
    (blk_pos : Z * Z) (n : Z) : float32 :=
  let th := fst (fst (owner h v n)) in
  let page := snd (fst (owner h v n)) in
  fsub (of_Z (slot_level h
                (rgb_to_ycbcr_subsampled tie h v (page_offset h v blk_pos th page)
                   (sample_in sample) (sample_size sample))
                (snd (owner h v n)))) f_128.

(** For a level [k]: [k - 128.0f] is computed exactly. *)
Definition centred_check (k : Z) : bool :=
  let x := fsub (of_Z k) f_128 in
  is_finite x && Qeq_bool (to_Q x) (inject_Z (k - 128)).

(** * Properties *)

(** ** Quantization tables *)

Lemma clamp_bounds v lo hi : lo <= hi -> lo <= clamp v lo hi <= hi.
Proof. unfold clamp. lia. Qed.

Lemma clamp_idem v lo hi : lo <= hi -> clamp (clamp v lo hi) lo hi = clamp v lo hi.
Proof. unfold clamp. lia. Qed.

Lemma clamp_id v lo hi : lo <= v <= hi -> clamp v lo hi = v.
Proof. unfold clamp. lia. Qed.

Lemma scale_clamp q : GetQualityFactorScale (clamp q 1 99) = GetQualityFactorScale q.
Proof. unfold GetQualityFactorScale. rewrite clamp_idem by lia. reflexivity. Qed.

Lemma spec_scale_clamp q : spec_scale (clamp q 1 99) = spec_scale q.
Proof. unfold spec_scale. rewrite clamp_idem by lia. reflexivity. Qed.

Lemma luma_clamp t q :
  GetLumaQuantizationTable t (clamp q 1 99) = GetLumaQuantizationTable t q.
Proof. unfold GetLumaQuantizationTable. now rewrite scale_clamp. Qed.

Lemma chroma_clamp t q :
  GetChromaQuantizationTable t (clamp q 1 99) = GetChromaQuantizationTable t q.
Proof. unfold GetChromaQuantizationTable. now rewrite scale_clamp. Qed.

Lemma spec_table_clamp t q base : spec_table t (clamp q 1 99) base = spec_table t q base.
Proof. unfold spec_table. now rewrite spec_scale_clamp. Qed.

(** *** One pass over the qualities 1..99

    The scaled products are computed once per quality and shared by
    every check and by both half-way rules. *)

Lemma check_list_spec (L : list (Z * tables)) :
  check_list L = true ->
  (forall t q T, In (q, T) L -> quality_check t q T = true)
  /\ adjacent_check (map snd L) = true.
Proof.
  unfold check_list. intros H. apply andb_prop in H as [H Ha]. split; [ | exact Ha].
  intros t q T Hin. rewrite forallb_forall in H. apply H in Hin.
  cbn [fst snd] in Hin. apply andb_prop in Hin as [H1 H2]. now destruct t.
Qed.

Lemma table_list_checked : check_list table_list = true.
Proof. vm_compute. reflexivity. Qed.

Lemma map_map_map {A B C : Type} (f : A -> B) (g : B -> C) (l : list (list A)) :
  map (map g) (map (map f) l) = map (map (fun x => g (f x))) l.
Proof.
  rewrite map_map. apply map_ext. intros r. apply map_map.
Qed.

Lemma tables_at_luma t q : luma_of t (tables_at q) = GetLumaQuantizationTable t q.
Proof.
  unfold GetLumaQuantizationTable, scale_table.
  destruct t; cbn [luma_of tables_at luma_away luma_even]; unfold products;
    apply map_map_map.
Qed.

Lemma tables_at_chroma t q : chroma_of t (tables_at q) = GetChromaQuantizationTable t q.
Proof.
  unfold GetChromaQuantizationTable, scale_table.
  destruct t; cbn [chroma_of tables_at chroma_away chroma_even]; unfold products;
    apply map_map_map.
Qed.

Lemma in_qualities q : 1 <= q <= 99 -> In q qualities.
Proof.
  intros Hq. unfold qualities. apply in_map_iff. exists (Z.to_nat q).
  split; [lia | apply in_seq; lia].
Qed.

Lemma quality_checked t q : 1 <= q <= 99 -> quality_check t q (tables_at q) = true.
Proof.
  intros Hq. destruct (check_list_spec _ table_list_checked) as [H _].
  apply H. unfold table_list. apply in_map_iff. exists q.
  split; [reflexivity | now apply in_qualities].
Qed.

Lemma adjacent_check_nth (f : Z -> tables) (n : nat) : forall (start k : nat),
  adjacent_check (map f (map Z.of_nat (seq start n))) = true ->
  (S k < n)%nat ->
  let a := f (Z.of_nat (start + k)) in
  let b := f (Z.of_nat (start + S k)) in
  mat_leb (luma_away b) (luma_away a) = true /\ mat_leb (luma_even b) (luma_even a) = true /\
  mat_leb (chroma_away b) (chroma_away a) = true /\
  mat_leb (chroma_even b) (chroma_even a) = true.
Proof.
  induction n as [| n IH]; intros start k H Hk; [lia | ].
  destruct n as [| n]; [lia | ].
  cbn [seq map adjacent_check] in H.
  apply andb_prop in H as [H Hrest]. apply andb_prop in H as [H H4].
  apply andb_prop in H as [H H3]. apply andb_prop in H as [H1 H2].
  destruct k as [| k].
  - rewrite Nat.add_0_r. replace (start + 1)%nat with (S start) by lia.
    repeat split; assumption.
  - replace (start + S k)%nat with (S start + k)%nat by lia.
    replace (start + S (S k))%nat with (S start + S k)%nat by lia.
    apply IH; [assumption | lia].
Qed.

Lemma mat_leb_spec b a i j :
  mat_leb b a = true -> (i < 8)%nat -> (j < 8)%nat -> mat_get b i j <= mat_get a i j.
Proof.
  unfold mat_leb. rewrite forallb_forall. intros H Hi Hj.
  specialize (H i ltac:(apply in_seq; lia)). rewrite forallb_forall in H.
  apply Z.leb_le, H; apply in_seq; lia.
Qed.

Lemma mat_in_range_spec lo m i j :
  mat_in_range lo m = true -> (i < 8)%nat -> (j < 8)%nat -> lo <= mat_get m i j <= 255.
Proof.
  unfold mat_in_range. rewrite forallb_forall. intros H Hi Hj.
  specialize (H i ltac:(apply in_seq; lia)). rewrite forallb_forall in H.
  specialize (H j ltac:(apply in_seq; lia)).
  apply andb_prop in H as [H1 H2]. apply Z.leb_le in H1, H2. lia.
Qed.

Lemma list8_ext {A : Type} (d : A) (r1 r2 : list A) :
  length r1 = 8%nat -> length r2 = 8%nat ->
  (forall j, (j < 8)%nat -> nth j r1 d = nth j r2 d) -> r1 = r2.
Proof.
  intros H1 H2 H.
  do 9 (destruct r1 as [| ? r1]; try discriminate).
  do 9 (destruct r2 as [| ? r2]; try discriminate).
  pose proof (H 0%nat ltac:(lia)). pose proof (H 1%nat ltac:(lia)).
  pose proof (H 2%nat ltac:(lia)). pose proof (H 3%nat ltac:(lia)).
  pose proof (H 4%nat ltac:(lia)). pose proof (H 5%nat ltac:(lia)).
  pose proof (H 6%nat ltac:(lia)). pose proof (H 7%nat ltac:(lia)).
  cbn in *. congruence.
Qed.

Lemma mat_eqb_spec a b : mat_eqb a b = true -> a = b.
Proof.
  unfold mat_eqb. intros H.
  apply andb_prop in H as [H Hrb]. apply andb_prop in H as [H Hra].
  apply andb_prop in H as [H Hlb]. apply andb_prop in H as [H Hla].
  apply Nat.eqb_eq in Hla, Hlb.
  rewrite forallb_forall in H, Hra, Hrb.
  apply (list8_ext nil); [assumption .. | ].
  intros i Hi.
  assert (forall (m : mat8), length m = 8%nat ->
            (forall r, In r m -> (length r =? 8)%nat = true) ->
            length (nth i m nil) = 8%nat) as Hlen.
  { intros m Hm Hr. apply Nat.eqb_eq, Hr, nth_In. lia. }
  apply (list8_ext 0); [now apply Hlen | now apply Hlen | ].
  intros j Hj.
  specialize (H i ltac:(apply in_seq; lia)). rewrite forallb_forall in H.
  apply Z.eqb_eq, (H j). apply in_seq; lia.
Qed.

(** C1 (as stated, refuted): at quality 12 the luma entry built from the
    base value 57 is 237, whereas 57 * 50/12 = 237.5 rounds to 238 under
    either half-way rule; the binary32 scale is slightly below 50/12. *)
Lemma luma_table_12_not_exact :
  GetLumaQuantizationTable TiesAway 12 <> spec_table TiesAway 12 luma_base /\
  GetLumaQuantizationTable TiesEven 12 <> spec_table TiesEven 12 luma_base /\
  mat_get (GetLumaQuantizationTable TiesAway 12) 2 5 = 237 /\
  mat_get (GetLumaQuantizationTable TiesEven 12) 2 5 = 237 /\
  mat_get (spec_table TiesAway 12 luma_base) 2 5 = 238 /\
  mat_get (spec_table TiesEven 12 luma_base) 2 5 = 238.
Proof.
  assert (forall t, mat_get (GetLumaQuantizationTable t 12) 2 5 = 237) as Hc
    by (intros []; vm_compute; reflexivity).
  assert (forall t, mat_get (spec_table t 12 luma_base) 2 5 = 238) as Hs
    by (intros []; vm_compute; reflexivity).
  repeat split; try apply Hc; try apply Hs;
    intros H; apply (f_equal (fun m => mat_get m 2 5)) in H;
    rewrite Hc, Hs in H; discriminate.
Qed.

(** C1 (amended): for every integer quality, both tables depend on the
    quality only through its clamp to [1,99]; the binary32 scale factor
    is within 2^-19 of 50/q (q < 50) or 2 - 2q/100; every chroma entry
    equals the exactly scaled, rounded and saturated base entry; the
    luma table does too, except at the qualities where an exact
    product is half-way between two integers and the binary32 product
    falls on the other side, where the largest entry-wise difference
    is exactly one: the qualities 12, 36, 48, 85 when half-way cases
    round away from zero, and 12, 65 when they round to even; tables
    for 0 and 150 are those for 1 and 99. *)
Theorem tables_scale_base_entries (t : tie_rule) (q : Z) :
  GetLumaQuantizationTable t q = GetLumaQuantizationTable t (clamp q 1 99) /\
  GetChromaQuantizationTable t q = GetChromaQuantizationTable t (clamp q 1 99) /\
  (Qabs (to_Q (GetQualityFactorScale q) - spec_scale q) <= 1 # 524288)%Q /\
  GetChromaQuantizationTable t q = spec_table t q chroma_base /\
  table_dist (GetLumaQuantizationTable t q) (spec_table t q luma_base)
    = (if is_tie_quality t q then 1 else 0) /\
  GetLumaQuantizationTable t 0 = GetLumaQuantizationTable t 1 /\
  GetLumaQuantizationTable t 150 = GetLumaQuantizationTable t 99.
Proof.
  pose proof (quality_checked t (clamp q 1 99) (clamp_bounds q 1 99 ltac:(lia))) as H.
  unfold quality_check in H. rewrite tables_at_luma, tables_at_chroma in H.
  apply andb_prop in H as [H _]. apply andb_prop in H as [H _].
  apply andb_prop in H as [H Hs']. apply andb_prop in H as [Hc' Hl'].
  apply mat_eqb_spec in Hc'. apply Z.eqb_eq in Hl'. apply Qle_bool_iff in Hs'.
  rewrite chroma_clamp, spec_table_clamp in Hc'.
  rewrite luma_clamp, spec_table_clamp in Hl'.
  rewrite scale_clamp, spec_scale_clamp in Hs'.
  replace (is_tie_quality t (clamp q 1 99)) with (is_tie_quality t q) in Hl'
    by (unfold is_tie_quality; now rewrite clamp_idem by lia).
  rewrite luma_clamp, chroma_clamp.
  split; [reflexivity | split; [reflexivity | ]].
  split; [assumption | split; [assumption | split; [assumption | ]]].
  split; [apply (luma_clamp t 0) | apply (luma_clamp t 150)].
Qed.

(** *** Monotonicity and range *)

Lemma tables_step t q i j :
  1 <= q < 99 -> (i < 8)%nat -> (j < 8)%nat ->
  mat_get (GetLumaQuantizationTable t (q + 1)) i j
    <= mat_get (GetLumaQuantizationTable t q) i j /\
  mat_get (GetChromaQuantizationTable t (q + 1)) i j
    <= mat_get (GetChromaQuantizationTable t q) i j.
Proof.
  intros Hq Hi Hj.
  destruct (check_list_spec _ table_list_checked) as [_ H].
  unfold table_list in H. rewrite map_map in H.
  destruct (adjacent_check_nth (fun x => snd (x, tables_at x)) 99 1 (Z.to_nat (q - 1)) H
              ltac:(lia)) as (Hla & Hle & Hca & Hce).
  cbn [snd] in *.
  replace (Z.of_nat (1 + Z.to_nat (q - 1))) with q in * by lia.
  replace (Z.of_nat (1 + S (Z.to_nat (q - 1)))) with (q + 1) in * by lia.
  rewrite <- !tables_at_luma, <- !tables_at_chroma.
  destruct t; cbn [luma_of chroma_of]; split; apply mat_leb_spec; assumption.
Qed.

Lemma tables_steps t i j (n : nat) : forall q,
  1 <= q -> q + Z.of_nat n <= 99 -> (i < 8)%nat -> (j < 8)%nat ->
  mat_get (GetLumaQuantizationTable t (q + Z.of_nat n)) i j
    <= mat_get (GetLumaQuantizationTable t q) i j /\
  mat_get (GetChromaQuantizationTable t (q + Z.of_nat n)) i j
    <= mat_get (GetChromaQuantizationTable t q) i j.
Proof.
  induction n as [| n IH]; intros q Hq Hn Hi Hj.
  - rewrite Z.add_0_r. lia.
  - destruct (IH q) as [IHl IHc]; [lia .. | ].
    destruct (tables_step t (q + Z.of_nat n) i j) as [Sl Sc]; [lia .. | ].
    replace (q + Z.of_nat (S n)) with (q + Z.of_nat n + 1) by lia. lia.
Qed.

(** C7: for qualities q1 < q2 in [1,99], every entry of the luma table
    for q1 is at least the corresponding entry for q2, and likewise for
    the chroma table. *)
Theorem tables_antitone (t : tie_rule) (q1 q2 : Z) (i j : nat) :
  1 <= q1 -> q1 < q2 -> q2 <= 99 -> (i < 8)%nat -> (j < 8)%nat ->
  mat_get (GetLumaQuantizationTable t q1) i j
    >= mat_get (GetLumaQuantizationTable t q2) i j /\
  mat_get (GetChromaQuantizationTable t q1) i j
    >= mat_get (GetChromaQuantizationTable t q2) i j.
Proof.
  intros H1 H12 H2 Hi Hj.
  destruct (tables_steps t i j (Z.to_nat (q2 - q1)) q1) as [Hl Hc]; [lia .. | ].
  replace (q1 + Z.of_nat (Z.to_nat (q2 - q1))) with q2 in * by lia. lia.
Qed.

Lemma tables_antitone_witness :
  mat_get (GetLumaQuantizationTable TiesAway 10) 0 0
    >= mat_get (GetLumaQuantizationTable TiesAway 90) 0 0 /\
  mat_get (GetChromaQuantizationTable TiesAway 10) 0 0
    >= mat_get (GetChromaQuantizationTable TiesAway 90) 0 0.
Proof. apply (tables_antitone TiesAway 10 90 0 0); lia. Defined.

(** C8 (as stated, refuted): at quality 99 (and 98) the luma table
    stores zeros, and so does the chroma table at 99. *)
Lemma luma_table_99_has_zero :
  mat_get (GetLumaQuantizationTable TiesAway 99) 0 0 = 0 /\
  mat_get (GetLumaQuantizationTable TiesEven 99) 0 0 = 0 /\
  mat_get (GetLumaQuantizationTable TiesAway 98) 0 1 = 0 /\
  mat_get (GetChromaQuantizationTable TiesAway 99) 0 0 = 0.
Proof. repeat split; vm_compute; reflexivity. Qed.

(** C8 (amended): for every quality in [1,99] every entry of both
    tables lies in [0,255]; for the qualities up to 97 it lies in
    [1,255]. *)
Theorem table_entries_range (t : tie_rule) (q : Z) (i j : nat) :
  1 <= q <= 99 -> (i < 8)%nat -> (j < 8)%nat ->
  let lo := if q <=? 97 then 1 else 0 in
  lo <= mat_get (GetLumaQuantizationTable t q) i j <= 255 /\
  lo <= mat_get (GetChromaQuantizationTable t q) i j <= 255.
Proof.
  intros Hq Hi Hj lo.
  pose proof (quality_checked t q Hq) as H.
  unfold quality_check in H. rewrite tables_at_luma, tables_at_chroma in H.
  apply andb_prop in H as [H Hc]. apply andb_prop in H as [_ Hl].
  split; apply mat_in_range_spec; assumption.
Qed.

Lemma table_entries_range_witness :
  1 <= mat_get (GetLumaQuantizationTable TiesAway 50) 0 0 <= 255 /\
  1 <= mat_get (GetChromaQuantizationTable TiesAway 50) 0 0 <= 255.
Proof. apply (table_entries_range TiesAway 50 0 0); lia. Defined.

(** C10: a descriptor built with the default member initializers
    carries the quality-95 luma and chroma tables. *)
Theorem default_sample_tables (t : tie_rule) (img : image) (size : ivec2) :
  luma_Q_table (SampleDesc_default t img size) = GetLumaQuantizationTable t 95 /\
  chroma_Q_table (SampleDesc_default t img size) = GetChromaQuantizationTable t 95 /\
  luma_Q_table (SampleDesc_default t img size) =
    [ [2; 1; 1; 2; 2; 4; 5; 6]; [1; 1; 1; 2; 3; 6; 6; 6];
      [1; 1; 2; 2; 4; 6; 7; 6]; [1; 2; 2; 3; 5; 9; 8; 6];
      [2; 2; 4; 6; 7; 11; 10; 8]; [2; 4; 6; 6; 8; 10; 11; 9];
      [5; 6; 8; 9; 10; 12; 12; 10]; [7; 9; 10; 10; 11; 10; 10; 10] ] /\
  chroma_Q_table (SampleDesc_default t img size) =
    [ [2; 2; 2; 5; 10; 10; 10; 10]; [2; 2; 3; 7; 10; 10; 10; 10];
      [2; 3; 6; 10; 10; 10; 10; 10]; [5; 7; 10; 10; 10; 10; 10; 10];
      [10; 10; 10; 10; 10; 10; 10; 10]; [10; 10; 10; 10; 10; 10; 10; 10];
      [10; 10; 10; 10; 10; 10; 10; 10]; [10; 10; 10; 10; 10; 10; 10; 10] ].
Proof. destruct t; repeat split; vm_compute; reflexivity. Qed.

(** ** Guarded writes and the chroma broadcast *)

Lemma write_vec_eq (size : ivec2) (surf : surface) (pos : ivec2) (v : vec3) :
  in_bounds size pos = true -> write_vec size surf pos v !! pos = Some v.
Proof. intros H. unfold write_vec. rewrite H. apply lookup_insert_eq. Qed.

Lemma write_vec_ne (size : ivec2) (surf : surface) (pos : ivec2) (v : vec3) (p : ivec2) :
  p <> pos -> write_vec size surf pos v !! p = surf !! p.
Proof.
  intros H. unfold write_vec. destruct (in_bounds size pos); [ | reflexivity].
  apply lookup_insert_ne. congruence.
Qed.

Lemma write_vec_outside (size : ivec2) (surf : surface) (pos : ivec2) (v : vec3) (p : ivec2) :
  in_bounds size p = false -> write_vec size surf pos v !! p = surf !! p.
Proof.
  intros H. unfold write_vec. destruct (in_bounds size pos) eqn:E; [ | reflexivity].
  apply lookup_insert_ne. intros ->. congruence.
Qed.

Lemma group_positions_cases h v x y :
  group_positions h v (x, y) =
    if h && v then [(x, y); (x + 1, y); (x, y + 1); (x + 1, y + 1)]
    else if h then [(x, y); (x + 1, y)]
    else if v then [(x, y); (x, y + 1)]
    else [(x, y)].
Proof.
  unfold group_positions.
  destruct h, v;
    match goal with
    | |- context [sub_positions ?a ?b] =>
        let e := eval vm_compute in (sub_positions a b) in
        change (sub_positions a b) with e
    end;
    cbn [map fst snd andb]; repeat f_equal; lia.
Qed.

Lemma ycbcr_to_rgb_subsampled_member (tie : tie_rule) (h v : bool) (offset size : ivec2)
    (out : surface) (g : YCbCrSubsampled) (k : nat) (p : ivec2) :
  group_positions h v offset !! k = Some p ->
  in_bounds size p = true ->
  ycbcr_to_rgb_subsampled tie h v offset size out g !! p
    = Some (ycbcr_to_rgb tie (mk_vec3 (luma_at g k) (cb g) (cr g))).
Proof.
  destruct offset as [x y]. rewrite group_positions_cases.
  unfold ycbcr_to_rgb_subsampled. cbn [fst snd].
  intros Hk Hp.
  destruct h, v; cbn [andb] in *;
    repeat (destruct k as [| k]; cbn in Hk; try discriminate);
    injection Hk as <-;
    repeat first
      [ apply write_vec_eq; assumption
      | rewrite write_vec_ne by (intros [=]; lia) ].
Qed.

Lemma ycbcr_to_rgb_subsampled_other (tie : tie_rule) (h v : bool) (offset size : ivec2)
    (out : surface) (g : YCbCrSubsampled) (p : ivec2) :
  ~ In p (group_positions h v offset) ->
  ycbcr_to_rgb_subsampled tie h v offset size out g !! p = out !! p.
Proof.
  destruct offset as [x y]. rewrite group_positions_cases.
  unfold ycbcr_to_rgb_subsampled. cbn [fst snd].
  intros Hp.
  destruct h, v; cbn [andb] in *;
    repeat rewrite write_vec_ne by (intros ->; apply Hp; cbn; tauto);
    reflexivity.
Qed.

Lemma ycbcr_to_rgb_subsampled_outside (tie : tie_rule) (h v : bool) (offset size : ivec2)
    (out : surface) (g : YCbCrSubsampled) (p : ivec2) :
  in_bounds size p = false ->
  ycbcr_to_rgb_subsampled tie h v offset size out g !! p = out !! p.
Proof.
  intros Hp. unfold ycbcr_to_rgb_subsampled.
  destruct (h && v); [ | destruct h; [ | destruct v]];
    repeat rewrite write_vec_outside by assumption; reflexivity.
Qed.

Lemma rgb_to_ycbcr_subsampled_luma (tie : tie_rule) (h v : bool) (offset : ivec2)
    (img : image) (size : ivec2) (k : nat) (p : ivec2) :
  group_positions h v offset !! k = Some p ->
  luma_at (rgb_to_ycbcr_subsampled tie h v offset img size) k
    = rgb_to_y tie (sampler img size p).
Proof.
  destruct offset as [x y]. rewrite group_positions_cases.
  unfold rgb_to_ycbcr_subsampled, luma_at. cbn [fst snd].
  intros Hk.
  destruct h, v; cbn [andb] in *;
    repeat (destruct k as [| k]; cbn in Hk; try discriminate);
    injection Hk as <-; reflexivity.
Qed.

(** C5: every pixel of a subsampling group that lies inside the image
    is written as [ycbcr_to_rgb] of its own luma sample and the one
    chroma pair of the group; when the group comes straight from
    [rgb_to_ycbcr_subsampled] (no quantization in between), that luma
    sample is the [rgb_to_y] of the pixel's own input. *)
Theorem group_shares_chroma (tie : tie_rule) (h v : bool) (offset size : ivec2)
    (out : surface) (g : YCbCrSubsampled) (img : image) (k : nat) (p : ivec2) :
  group_positions h v offset !! k = Some p ->
  in_bounds size p = true ->
  ycbcr_to_rgb_subsampled tie h v offset size out g !! p
    = Some (ycbcr_to_rgb tie (mk_vec3 (luma_at g k) (cb g) (cr g))) /\
  (let shared := rgb_to_ycbcr_subsampled tie h v offset img size in
   ycbcr_to_rgb_subsampled tie h v offset size out shared !! p
     = Some (ycbcr_to_rgb tie
               (mk_vec3 (rgb_to_y tie (sampler img size p)) (cb shared) (cr shared)))).
Proof.
  intros Hk Hp. split.
  - now apply ycbcr_to_rgb_subsampled_member.
  - intros shared.
    rewrite (ycbcr_to_rgb_subsampled_member _ _ _ _ _ _ _ k p Hk Hp).
    unfold shared. now rewrite (rgb_to_ycbcr_subsampled_luma _ _ _ _ _ _ k p Hk).
Qed.

Lemma group_shares_chroma_witness :
  let g := {| luma := [76; 29]; cb := 128; cr := 160 |} in
  ycbcr_to_rgb_subsampled TiesEven true false (0, 0) (4, 4) ∅ g !! (1, 0)
    = Some (ycbcr_to_rgb TiesEven (mk_vec3 (luma_at g 1) (cb g) (cr g))) /\
  (let shared := rgb_to_ycbcr_subsampled TiesEven true false (0, 0) two_tone (4, 4) in
   ycbcr_to_rgb_subsampled TiesEven true false (0, 0) (4, 4) ∅ shared !! (1, 0)
     = Some (ycbcr_to_rgb TiesEven
               (mk_vec3 (rgb_to_y TiesEven (sampler two_tone (4, 4) (1, 0)))
                        (cb shared) (cr shared)))).
Proof.
  intros g.
  apply (group_shares_chroma TiesEven true false (0, 0) (4, 4) ∅ g two_tone 1 (1, 0));
    reflexivity.
Defined.

(** ** Sampling a group *)

Lemma avg_checked tie : forallb (avg_check tie) sums4 = true.
Proof. destruct tie; vm_compute; reflexivity. Qed.

Lemma in_range (n k : Z) : 0 <= k < n -> In k (range n).
Proof.
  intros H. unfold range. apply in_map_iff. exists (Z.to_nat k).
  split; [lia | apply in_seq; lia].
Qed.

Lemma avg_exact tie s :
  0 <= s <= 1020 ->
  ConvertSat tie (fmul (of_Z s) f_0_25)
    = clamp (round_Q tie (inject_Z s / inject_Z 4)) 0 255 /\
  ConvertSat tie (fmul (of_Z s) f_0_5)
    = clamp (round_Q tie (inject_Z s / inject_Z 2)) 0 255.
Proof.
  intros Hs. pose proof (avg_checked tie) as H. rewrite forallb_forall in H.
  specialize (H s (in_range 1021 s ltac:(lia))). unfold avg_check in H.
  apply andb_prop in H as [H4 H2]. apply Z.eqb_eq in H4, H2. now split.
Qed.

Lemma valid_channel_spec c : valid_channel c = true -> 0 <= c <= 255.
Proof. unfold valid_channel. intros H. apply andb_prop in H as [H1 H2]. lia. Qed.

Lemma mean_channel_1 tie a : valid_channel a = true -> mean_channel tie [a] = a.
Proof.
  intros Ha. apply valid_channel_spec in Ha. unfold mean_channel, round_Q.
  cbn [fold_right length].
  change (Qden (inject_Z (a + 0) / inject_Z (Z.of_nat 1))) with 1%positive.
  change (Qnum (inject_Z (a + 0) / inject_Z (Z.of_nat 1))) with ((a + 0) * 1).
  rewrite Z.div_1_r, Z.mod_1_r. change (2 * 0 ?= 1) with Lt.
  unfold clamp. lia.
Qed.

Lemma mean_channel_2 tie a b :
  valid_channel a = true -> valid_channel b = true ->
  mean_channel tie [a; b] = ConvertSat tie (fmul (of_Z (a + b)) f_0_5).
Proof.
  intros Ha Hb. apply valid_channel_spec in Ha, Hb.
  destruct (avg_exact tie (a + b)) as [_ ->]; [lia | ].
  unfold mean_channel. cbn [fold_right length]. now rewrite Z.add_0_r.
Qed.

Lemma mean_channel_4 tie a b c d :
  valid_channel a = true -> valid_channel b = true ->
  valid_channel c = true -> valid_channel d = true ->
  mean_channel tie [a; b; c; d] = ConvertSat tie (fmul (of_Z (a + b + c + d)) f_0_25).
Proof.
  intros Ha Hb Hc Hd. apply valid_channel_spec in Ha, Hb, Hc, Hd.
  destruct (avg_exact tie (a + b + c + d)) as [-> _]; [lia | ].
  unfold mean_channel. cbn [fold_right length].
  now replace (a + (b + (c + (d + 0)))) with (a + b + c + d) by lia.
Qed.

Lemma vec3_eta (p : vec3) : mk_vec3 (vx p) (vy p) (vz p) = p.
Proof. now destruct p. Qed.

Ltac split_valid :=
  repeat match goal with
    | H : forallb valid_rgb _ = true |- _ => cbn [forallb] in H
    | H : _ && _ = true |- _ => apply andb_prop in H as [? ?]
    | H : valid_rgb _ = true |- _ => unfold valid_rgb in H
    end.

(** C6: [rgb_to_ycbcr_subsampled] reads one input pixel per group
    position (1, 2 or 4 of them, coordinates clamped to the image),
    gives each its own [rgb_to_y] luma, and derives the one chroma pair
    from the rounded and saturated arithmetic mean of those pixels. *)
Theorem group_sampling (tie : tie_rule) (h v : bool) (offset : ivec2)
    (img : image) (size : ivec2) :
  forallb valid_rgb (sampled_pixels h v offset img size) = true ->
  let px := sampled_pixels h v offset img size in
  let g := rgb_to_ycbcr_subsampled tie h v offset img size in
  Z.of_nat (length px) = kLumaLen h v /\
  In (length px) [1; 2; 4]%nat /\
  luma g = map (rgb_to_y tie) px /\
  cb g = rgb_to_cb tie (mean_rgb tie px) /\
  cr g = rgb_to_cr tie (mean_rgb tie px).
Proof.
  destruct offset as [x y]. unfold sampled_pixels.
  rewrite group_positions_cases.
  unfold rgb_to_ycbcr_subsampled, kLumaLen, sampler, mean_rgb, avg4, avg2, rgb_to_cb_cr.
  destruct h, v; cbn [andb map fst snd length luma cb cr Z.b2z]; intros Hv; split_valid;
    (split; [reflexivity | ]); (split; [cbn; tauto | ]); (split; [reflexivity | ]);
    rewrite ?mean_channel_4, ?mean_channel_2, ?mean_channel_1 by assumption;
    rewrite ?vec3_eta; split; reflexivity.
Qed.

Lemma group_sampling_witness :
  let px := sampled_pixels true true (3, 3) two_tone (4, 4) in
  let g := rgb_to_ycbcr_subsampled TiesAway true true (3, 3) two_tone (4, 4) in
  Z.of_nat (length px) = kLumaLen true true /\
  In (length px) [1; 2; 4]%nat /\
  luma g = map (rgb_to_y TiesAway) px /\
  cb g = rgb_to_cb TiesAway (mean_rgb TiesAway px) /\
  cr g = rgb_to_cr TiesAway (mean_rgb TiesAway px).
Proof.
  apply (group_sampling TiesAway true true (3, 3) two_tone (4, 4)). reflexivity.
Defined.

(** ** Writes stay inside the image *)

Lemma fold_left_preserves {A B : Type} (f : A -> B -> A) (P : A -> Prop) (l : list B) :
  (forall a b, P a -> P (f a b)) -> forall a, P a -> P (fold_left f l a).
Proof.
  intros Hf. induction l as [| b l IH]; intros a Ha; cbn; [assumption | ].
  apply IH, Hf, Ha.
Qed.

Section KernelFrame.

Variable tie : tie_rule.
Variables horz_subsample vert_subsample quantization : bool.
Variables dct_fwd_8x8_1d dct_inv_8x8_1d : list float32 -> list float32.
Variables blockDim_x blockDim_y : Z.
Variable sample : SampleDesc.

Lemma scatter_page_skips (blk_pos th : Z * Z) (s : scratch) (out : surface) (page : Z) :
  let offset := page_offset horz_subsample vert_subsample blk_pos th page in
  (fst offset >=? fst (sample_size sample)) || (snd offset >=? snd (sample_size sample)) = true ->
  scatter_page tie horz_subsample vert_subsample sample blk_pos th s out page = out.
Proof. intros offset H. unfold scatter_page. fold offset. now rewrite H. Qed.

Lemma scatter_page_outside (blk_pos th : Z * Z) (s : scratch) (out : surface)
    (page : Z) (p : ivec2) :
  in_bounds (sample_size sample) p = false ->
  scatter_page tie horz_subsample vert_subsample sample blk_pos th s out page !! p = out !! p.
Proof.
  intros Hp. unfold scatter_page.
  destruct (_ || _); [reflexivity | ].
  now apply ycbcr_to_rgb_subsampled_outside.
Qed.

Lemma scatter_stage_outside (blk_pos : Z * Z) (s : scratch) (out : surface) (p : ivec2) :
  in_bounds (sample_size sample) p = false ->
  scatter_stage tie horz_subsample vert_subsample blockDim_x blockDim_y
    sample blk_pos s out !! p = out !! p.
Proof.
  intros Hp. unfold scatter_stage.
  apply (fold_left_preserves _ (fun o : surface => o !! p = out !! p)); [ | reflexivity].
  intros o th Ho. unfold scatter_thread.
  apply (fold_left_preserves _ (fun o : surface => o !! p = out !! p)); [ | assumption].
  intros o' page Ho'. now rewrite scatter_page_outside.
Qed.

Lemma tile_step_outside (st : scratch * surface) (blk_pos : Z * Z) (p : ivec2) :
  in_bounds (sample_size sample) p = false ->
  snd (tile_step tie horz_subsample vert_subsample quantization
         dct_fwd_8x8_1d dct_inv_8x8_1d blockDim_x blockDim_y sample st blk_pos) !! p
    = snd st !! p.
Proof. intros Hp. unfold tile_step. cbn [snd]. now apply scatter_stage_outside. Qed.

Lemma kernel_outside (block : BlockDesc) (s0 : scratch) (out : surface) (p : ivec2) :
  in_bounds (sample_size sample) p = false ->
  JpegCompressionDistortion tie horz_subsample vert_subsample quantization
    dct_fwd_8x8_1d dct_inv_8x8_1d blockDim_x blockDim_y sample block s0 out !! p
    = out !! p.
Proof.
  intros Hp. unfold JpegCompressionDistortion.
  apply (fold_left_preserves _ (fun st : scratch * surface => snd st !! p = out !! p));
    [ | reflexivity].
  intros st y Hst.
  apply (fold_left_preserves _ (fun st : scratch * surface => snd st !! p = out !! p));
    [ | assumption].
  intros st' x Hst'. now rewrite tile_step_outside.
Qed.

End KernelFrame.

(** C4: whatever the tile, the lane grid, the transforms and the
    scratch contents, the kernel leaves the output buffer as it was at
    every coordinate outside the image; a group whose anchor lies at or
    beyond the image size is skipped as a whole, and every single write
    goes through the bounds check of [write_vec]. *)
Theorem kernel_writes_only_inside (tie : tie_rule) (h v quantization : bool)
    (dct_fwd dct_inv : list float32 -> list float32) (blockDim_x blockDim_y : Z)
    (sample : SampleDesc) (block : BlockDesc) (s0 : scratch) (out : surface) (p : ivec2) :
  in_bounds (sample_size sample) p = false ->
  JpegCompressionDistortion tie h v quantization dct_fwd dct_inv blockDim_x blockDim_y
    sample block s0 out !! p = out !! p /\
  (forall (pos : ivec2) (px : vec3),
     write_vec (sample_size sample) out pos px !! p = out !! p) /\
  (forall (blk_pos th : Z * Z) (s : scratch) (page : Z),
     let offset := page_offset h v blk_pos th page in
     scatter_page tie h v sample blk_pos th s out page
       = if (fst offset >=? fst (sample_size sample))
            || (snd offset >=? snd (sample_size sample))
         then out
         else ycbcr_to_rgb_subsampled tie h v offset (sample_size sample) out
                (scattered_group tie h v th s page)).
Proof.
  intros Hp. split; [now apply kernel_outside | split].
  - intros pos px. now apply write_vec_outside.
  - reflexivity.
Qed.

Lemma kernel_writes_only_inside_witness :
  let sample := SampleDesc_default TiesEven two_tone (20, 12) in
  let block := mk_BlockDesc (0, 0) (20, 12) in
  let out : surface := {[ (20, 3) := mk_vec3 1 2 3 ]} in
  let idt := fun l : list float32 => l in
  let s0 : scratch := fun _ => S754_zero false in
  JpegCompressionDistortion TiesEven false false true idt idt 32 16
    sample block s0 out !! (20, 3) = out !! (20, 3) /\
  (forall (pos : ivec2) (px : vec3),
     write_vec (sample_size sample) out pos px !! (20, 3) = out !! (20, 3)) /\
  (forall (blk_pos th : Z * Z) (s : scratch) (page : Z),
     let offset := page_offset false false blk_pos th page in
     scatter_page TiesEven false false sample blk_pos th s out page
       = if (fst offset >=? fst (sample_size sample))
            || (snd offset >=? snd (sample_size sample))
         then out
         else ycbcr_to_rgb_subsampled TiesEven false false offset (sample_size sample) out
                (scattered_group TiesEven false false th s page)).
Proof.
  intros sample block out idt s0.
  apply (kernel_writes_only_inside TiesEven false false true idt idt 32 16
           sample block s0 out (20, 3)).
  reflexivity.
Defined.

(** ** Rounding in binary32

    What [SpecFloat]'s rounding returns for a positive mantissa, in
    integer terms first. *)

Lemma iter_pos_nat {A : Type} (f : A -> A) (p : positive) (x : A) :
  SpecFloat.iter_pos f p x = Nat.iter (Pos.to_nat p) f x.
Proof.
  revert x. induction p as [p IH | p IH | ]; intros x; cbn [SpecFloat.iter_pos].
  - rewrite !IH, Pos2Nat.inj_xI.
    replace (S (2 * Pos.to_nat p)) with (Pos.to_nat p + (Pos.to_nat p + 1))%nat by lia.
    now rewrite !Nat.iter_add.
  - rewrite !IH, Pos2Nat.inj_xO.
    replace (2 * Pos.to_nat p)%nat with (Pos.to_nat p + Pos.to_nat p)%nat by lia.
    now rewrite Nat.iter_add.
  - reflexivity.
Qed.

Lemma shr_1_inv m k mrs : shr_inv m k mrs -> shr_inv m (S k) (shr_1 mrs).
Proof.
  intros (t & Ht & Hm & Hq & Hr & Hs).
  destruct mrs as [m1 r s]. unfold shr_inv. cbn [shr_m shr_r shr_s] in *.
  rewrite Nat2Z.inj_succ, Z.pow_succ_r by lia.
  set (P := 2 ^ Z.of_nat k) in *.
  assert (0 < P) by (apply Z.pow_pos_nonneg; lia).
  assert (r || s = true <-> t <> 0) as Hrs.
  { rewrite orb_true_iff, Hr, Hs. lia. }
  destruct m1 as [| [p | p | ] | p]; try lia; cbn [shr_1 shr_m shr_r shr_s].
  - exists t. rewrite Hrs. repeat split; try lia; try discriminate.
  - exists (P + t). rewrite Hrs. change (Z.pos p~1) with (2 * Z.pos p + 1) in Hq.
    repeat split; try lia.
  - exists t. rewrite Hrs. change (Z.pos p~0) with (2 * Z.pos p) in Hq.
    repeat split; try lia; try discriminate.
  - exists (P + t). rewrite Hrs. repeat split; try lia.
Qed.

Lemma shr_iter_inv m k :
  0 <= m -> shr_inv m k (Nat.iter k shr_1 (Build_shr_record m false false)).
Proof.
  intros Hm. induction k as [| k IH].
  - exists 0. cbn. repeat split; try lia; try discriminate.
  - cbn [Nat.iter]. now apply shr_1_inv.
Qed.

(** Rounding the shifted mantissa to nearest even is off by at most
    half a unit of the new last place. *)
Lemma round_after_shift m k mrs :
  shr_inv m k mrs ->
  let m' := round_nearest_even (shr_m mrs) (loc_of_shr_record mrs) in
  shr_m mrs <= m' <= shr_m mrs + 1 /\
  Z.abs (2 * m - 2 * m' * 2 ^ Z.of_nat k) <= 2 ^ Z.of_nat k.
Proof.
  intros (t & Ht & Hm & Hq & Hr & Hs).
  destruct mrs as [m1 r s]. cbn [shr_m shr_r shr_s] in *.
  set (P := 2 ^ Z.of_nat k) in *.
  destruct r, s; cbn [loc_of_shr_record round_nearest_even];
    try destruct (Z.even m1); lia.
Qed.

Lemma digits2_pos_spec (p : positive) :
  2 ^ (Zpos (digits2_pos p) - 1) <= Zpos p < 2 ^ Zpos (digits2_pos p).
Proof.
  induction p as [p IH | p IH | ]; cbn [digits2_pos].
  - rewrite Pos2Z.inj_succ. change (Z.pos p~1) with (2 * Z.pos p + 1).
    replace (Z.succ (Z.pos (digits2_pos p)) - 1) with (Z.succ (Z.pos (digits2_pos p) - 1)) by lia.
    rewrite !Z.pow_succ_r by lia.
    set (a := 2 ^ (Z.pos (digits2_pos p) - 1)) in *.
    set (b := 2 ^ Z.pos (digits2_pos p)) in *. clearbody a b. lia.
  - rewrite Pos2Z.inj_succ. change (Z.pos p~0) with (2 * Z.pos p).
    replace (Z.succ (Z.pos (digits2_pos p)) - 1) with (Z.succ (Z.pos (digits2_pos p) - 1)) by lia.
    rewrite !Z.pow_succ_r by lia.
    set (a := 2 ^ (Z.pos (digits2_pos p) - 1)) in *.
    set (b := 2 ^ Z.pos (digits2_pos p)) in *. clearbody a b. lia.
  - cbn. lia.
Qed.

Lemma digits2_pos_le (p : positive) (n : Z) :
  0 <= n -> Zpos p < 2 ^ n -> Zpos (digits2_pos p) <= n.
Proof.
  intros Hn Hp. destruct (digits2_pos_spec p) as [Hlo _].
  destruct (Z.le_gt_cases (Zpos (digits2_pos p)) n) as [H | H]; [assumption | exfalso].
  assert (2 ^ n <= 2 ^ (Zpos (digits2_pos p) - 1)) by (apply Z.pow_le_mono_r; lia).
  lia.
Qed.

Lemma fexp32 (e : Z) : fexp prec emax e = Z.max (e - 24) (-149).
Proof. reflexivity. Qed.

(** The outcome of rounding the exact value [p * 2^ex]: either nothing
    is shifted out and the value is kept, or the mantissa is cut to the
    exponent [e'] and rounded to [k], at most half a unit away. *)
Lemma round_aux_cases (sx : bool) (p : positive) (ex : Z) :
  let e' := fexp prec emax (Zpos (digits2_pos p) + ex) in
  let r := binary_round_aux prec emax sx (Zpos p) ex loc_Exact in
  e' <= 103 -> ex <= 104 ->
  (e' <= ex /\ r = S754_finite sx p ex) \/
  (ex < e' /\
   exists k, Z.abs (2 * Zpos p - 2 * k * 2 ^ (e' - ex)) <= 2 ^ (e' - ex) /\
     ((k = 0 /\ r = S754_zero sx) \/
      (exists q, k = Zpos q /\ r = S754_finite sx q e') \/
      (k = 16777216 /\ r = S754_finite sx 8388608%positive (e' + 1)))).
Proof.
  intros e' r He' Hex. subst r. unfold binary_round_aux, shr_fexp.
  cbn [Zdigits2]. fold e'.
  destruct (e' - ex) as [| n | n] eqn:Hn.
  - (* nothing to shift *)
    left. split; [lia | ].
    cbn [shr shr_record_of_loc loc_of_shr_record shr_m round_nearest_even Zdigits2].
    fold e'. rewrite Hn. cbn [shr shr_m].
    assert ((ex <=? emax - prec) = true) as -> by (apply Z.leb_le; unfold emax, prec; lia).
    reflexivity.
  - (* shift by [n] bits, then round *)
    right. split; [lia | ].
    cbn [shr shr_record_of_loc]. rewrite iter_pos_nat.
    pose proof (shr_iter_inv (Zpos p) (Pos.to_nat n) ltac:(lia)) as Hinv.
    set (mrs := Nat.iter (Pos.to_nat n) shr_1 _) in *.
    pose proof (round_after_shift _ _ _ Hinv) as [Hm' Herr].
    destruct Hinv as (t & Ht & Hm0 & Hq & _).
    rewrite positive_nat_Z in *.
    set (m' := round_nearest_even (shr_m mrs) (loc_of_shr_record mrs)) in *.
    replace (ex + Z.pos n) with e' by lia.
    exists m'. split; [exact Herr | ].
    (* the rounded mantissa has at most 24 bits, or is 2^24 *)
    assert (m' <= 2 ^ 24) as Hle.
    { pose proof (digits2_pos_spec p) as [_ Hp].
      unfold e' in Hn. rewrite fexp32 in Hn.
      assert (Zpos (digits2_pos p) <= 24 + Z.pos n) as Hd by lia.
      assert (2 ^ Zpos (digits2_pos p) <= 2 ^ (24 + Z.pos n)) as Hpow
        by (apply Z.pow_le_mono_r; lia).
      rewrite Z.pow_add_r in Hpow by lia.
      assert (0 < 2 ^ Z.pos n) by (apply Z.pow_pos_nonneg; lia).
      assert (shr_m mrs < 2 ^ 24) by nia.
      lia. }
    assert (-149 <= e') as Hlo by (unfold e'; rewrite fexp32; lia).
    destruct m' as [| q | q] eqn:Hq'; [ | | lia].
    + left. split; [reflexivity | ].
      cbn [Zdigits2]. rewrite fexp32.
      match goal with |- context [shr _ _ ?a] => destruct a eqn:Hmx; try lia end;
        reflexivity.
    + change (2 ^ 24) with 16777216 in Hle.
      destruct (Z.eq_dec (Zpos q) 16777216) as [Heq | Hne].
      * right. right. split; [exact Heq | ].
        assert (q = 16777216%positive) as -> by lia.
        change (Zdigits2 (Z.pos 16777216)) with 25.
        rewrite fexp32.
        replace (Z.max (25 + e' - 24) (-149) - e') with 1 by lia.
        cbn [shr shr_record_of_loc SpecFloat.iter_pos shr_1 shr_m].
        assert ((e' + 1 <=? emax - prec) = true) as -> by (apply Z.leb_le; unfold emax, prec; lia).
        reflexivity.
      * right. left. exists q. split; [reflexivity | ].
        assert (Zpos (digits2_pos q) <= 24) as Hd
          by (apply digits2_pos_le; [lia | change (2 ^ 24) with 16777216; lia]).
        cbn [Zdigits2]. rewrite fexp32.
        match goal with |- context [shr _ _ ?a] => destruct a eqn:Hmx; try lia end;
          cbn [shr shr_record_of_loc shr_m];
          assert ((e' <=? emax - prec) = true) as -> by (apply Z.leb_le; unfold emax, prec; lia);
          reflexivity.
  - (* negative shift: nothing to do *)
    left. split; [lia | ].
    cbn [shr shr_record_of_loc loc_of_shr_record shr_m round_nearest_even Zdigits2].
    fold e'. rewrite Hn. cbn [shr shr_m].
    assert ((ex <=? emax - prec) = true) as -> by (apply Z.leb_le; unfold emax, prec; lia).
    reflexivity.
Qed.

(** *** The same in rational terms *)

Lemma pow2_pos (e : Z) : (0 < 2 ^ e)%Q.
Proof. apply Qpower_0_lt. reflexivity. Qed.

Lemma pow2_add (a b : Z) : (2 ^ (a + b) == 2 ^ a * 2 ^ b)%Q.
Proof. apply Qpower_plus. discriminate. Qed.

Lemma pow2_Z (n : Z) : 0 <= n -> (2 ^ n == inject_Z (2 ^ n))%Q.
Proof. intros H. symmetry. now apply (Zpower_Qpower 2 n). Qed.

Lemma pow2_le (a b : Z) : a <= b -> (2 ^ a <= 2 ^ b)%Q.
Proof. intros H. apply Qpower_le_compat_l; [assumption | discriminate]. Qed.

Lemma pow2_lt_inv (a b : Z) : (2 ^ a < 2 ^ b)%Q -> a < b.
Proof. intros H. apply (Qpower_lt_compat_l_inv 2); [assumption | reflexivity]. Qed.

Lemma pow2_half (e : Z) : (2 ^ e == 2 * 2 ^ (e - 1))%Q.
Proof.
  replace e with (1 + (e - 1)) at 1 by lia. rewrite pow2_add. reflexivity.
Qed.

Lemma to_Q_finite (s : bool) (m : positive) (e : Z) :
  (to_Q (S754_finite s m e) == sign_Q s * (inject_Z (Zpos m) * 2 ^ e))%Q.
Proof. destruct s; cbn [to_Q sign_Q]; ring. Qed.

Lemma Qabs_sign (s : bool) (x y : Q) (b : Q) :
  (Qabs (x - y) <= b)%Q -> (Qabs (sign_Q s * x - sign_Q s * y) <= b)%Q.
Proof.
  rewrite !Qabs_Qle_condition. destruct s; cbn [sign_Q]; intros [H1 H2]; split; lra.
Qed.

(** The binary exponent bound of a magnitude bounds the digits. *)
Lemma digits_of_bound (p : positive) (ex E : Z) :
  (inject_Z (Zpos p) * 2 ^ ex < 2 ^ E)%Q -> Zpos (digits2_pos p) + ex <= E.
Proof.
  intros H. destruct (digits2_pos_spec p) as [Hlo _].
  set (d := Zpos (digits2_pos p)) in *.
  assert (2 ^ (d - 1 + ex) < 2 ^ E)%Q as Hlt.
  { rewrite pow2_add, pow2_Z by lia.
    eapply Qle_lt_trans; [ | exact H].
    apply Qmult_le_compat_r; [ | apply Qlt_le_weak, pow2_pos].
    rewrite <- Zle_Qle. exact Hlo. }
  apply pow2_lt_inv in Hlt. lia.
Qed.

Lemma mag_nonneg (m : positive) (e : Z) : (0 < inject_Z (Zpos m) * 2 ^ e)%Q.
Proof. apply Qmult_lt_0_compat; [reflexivity | apply pow2_pos]. Qed.

Lemma small_exponent (m : positive) (e E : Z) :
  (inject_Z (Zpos m) * 2 ^ e < 2 ^ E)%Q -> e < E.
Proof.
  intros H. apply pow2_lt_inv. eapply Qle_lt_trans; [ | exact H].
  pose proof (pow2_pos e).
  assert (1 <= inject_Z (Zpos m))%Q by (change 1%Q with (inject_Z 1); rewrite <- Zle_Qle; lia).
  nra.
Qed.

(** The rounded value is a multiple [k * 2^e'] of the unit in the last
    place, at most half a unit away from the exact value. *)
Lemma round_aux_unit (sx : bool) (p : positive) (ex : Z) :
  let e' := fexp prec emax (Zpos (digits2_pos p) + ex) in
  let r := binary_round_aux prec emax sx (Zpos p) ex loc_Exact in
  e' <= 103 -> ex <= 104 ->
  is_finite r = true /\
  exists k : Z,
    (to_Q r == sign_Q sx * (inject_Z k * 2 ^ e'))%Q /\
    (- (2 ^ e') <= 2 * (inject_Z k * 2 ^ e' - inject_Z (Zpos p) * 2 ^ ex) <= 2 ^ e')%Q.
Proof.
  intros e' r He' Hex.
  pose proof (round_aux_cases sx p ex) as Hc. cbv zeta in Hc. fold r e' in Hc.
  pose proof (pow2_pos e') as HP. pose proof (pow2_pos ex) as HX.
  destruct Hc as [[Hge ->] | [Hlt (k & Herr & Hk)]]; [lia | lia | | ].
  - split; [reflexivity | ]. exists (Zpos p * 2 ^ (ex - e')).
    assert (inject_Z (Z.pos p * 2 ^ (ex - e')) * 2 ^ e' == inject_Z (Zpos p) * 2 ^ ex)%Q as Hv.
    { rewrite inject_Z_mult, <- pow2_Z by lia.
      assert (2 ^ ex == 2 ^ (ex - e') * 2 ^ e')%Q as ->
        by (replace ex with ((ex - e') + e') at 1 by lia; apply pow2_add).
      ring. }
    split; [rewrite to_Q_finite, Hv; reflexivity | ].
    rewrite Hv. set (x := (inject_Z (Z.pos p) * 2 ^ ex)%Q). split; lra.
  - assert (is_finite r = true /\ (to_Q r == sign_Q sx * (inject_Z k * 2 ^ e'))%Q) as [Hf Hv].
    { destruct Hk as [[-> ->] | [(q & -> & ->) | [-> ->]]].
      - split; [reflexivity | ]. cbn [to_Q]. ring.
      - split; [reflexivity | ]. apply to_Q_finite.
      - split; [reflexivity | ]. rewrite to_Q_finite, pow2_add.
        change (2 ^ 1)%Q with 2%Q. change (inject_Z 16777216) with (2 * inject_Z 8388608)%Q.
        assert (inject_Z (Z.pos 8388608) == inject_Z 8388608)%Q by reflexivity. ring. }
    split; [exact Hf | ]. exists k. split; [exact Hv | ].
    set (n := e' - ex) in *.
    assert (2 ^ e' == 2 ^ ex * inject_Z (2 ^ n))%Q as Hpow.
    { replace e' with (ex + n) by (unfold n; lia). rewrite pow2_add, (pow2_Z n) by lia.
      reflexivity. }
    assert (2 * k * 2 ^ n <= 2 * Z.pos p + 2 ^ n) as H1 by lia.
    assert (2 * Z.pos p <= 2 * k * 2 ^ n + 2 ^ n) as H2 by lia.
    rewrite Zle_Qle in H1, H2.
    rewrite !inject_Z_plus, !inject_Z_mult in H1, H2.
    rewrite Hpow in *.
    set (X := (2 ^ ex)%Q) in *. set (N := inject_Z (2 ^ n)) in *.
    set (a := inject_Z k) in *. set (c := inject_Z (Z.pos p)) in *.
    change (inject_Z 2) with 2%Q in *.
    split; nra.
Qed.

Lemma unit_of_bound (p : positive) (ex E : Z) :
  (inject_Z (Zpos p) * 2 ^ ex < 2 ^ E)%Q -> -125 <= E ->
  fexp prec emax (Zpos (digits2_pos p) + ex) <= E - 24.
Proof.
  intros Hb HE. pose proof (digits_of_bound p ex E Hb). rewrite fexp32. lia.
Qed.

(** Rounding error of a value below [2^E]: half a unit in the last
    place, [2^(E-25)]. *)
Lemma round_aux_Q (sx : bool) (p : positive) (ex E : Z) :
  (inject_Z (Zpos p) * 2 ^ ex < 2 ^ E)%Q -> -125 <= E <= 105 ->
  let r := binary_round_aux prec emax sx (Zpos p) ex loc_Exact in
  is_finite r = true /\
  (Qabs (to_Q r - sign_Q sx * (inject_Z (Zpos p) * 2 ^ ex)) <= 2 ^ (E - 25))%Q.
Proof.
  intros Hb HE r.
  pose proof (unit_of_bound p ex E Hb ltac:(lia)) as He'.
  pose proof (small_exponent _ _ _ Hb) as Hex.
  destruct (round_aux_unit sx p ex ltac:(lia) ltac:(lia)) as [Hf (k & Hv & H1 & H2)].
  fold r in Hf, Hv. split; [exact Hf | ]. rewrite Hv. apply Qabs_sign.
  set (e' := fexp prec emax (Zpos (digits2_pos p) + ex)) in *.
  assert (2 ^ e' <= 2 * 2 ^ (E - 25))%Q as Hle.
  { apply Qle_trans with (2 ^ (E - 24))%Q; [apply pow2_le; lia | ].
    rewrite (pow2_half (E - 24)). replace (E - 24 - 1) with (E - 25) by lia.
    apply Qle_refl. }
  apply Qabs_Qle_condition.
  set (u := (inject_Z k * 2 ^ e')%Q) in *. set (w := (inject_Z (Z.pos p) * 2 ^ ex)%Q) in *.
  split; lra.
Qed.

(** A value that is itself an integer below [2^24] is kept. *)
Lemma round_aux_exact (sx : bool) (p : positive) (ex : Z) (N : Z) :
  (inject_Z (Zpos p) * 2 ^ ex == inject_Z N)%Q -> N < 2 ^ 24 ->
  let r := binary_round_aux prec emax sx (Zpos p) ex loc_Exact in
  is_finite r = true /\ (to_Q r == sign_Q sx * inject_Z N)%Q.
Proof.
  intros HN Hlt r.
  assert (inject_Z (Zpos p) * 2 ^ ex < 2 ^ 24)%Q as Hb.
  { rewrite HN, (pow2_Z 24) by lia. now rewrite <- Zlt_Qlt. }
  pose proof (unit_of_bound p ex 24 Hb ltac:(lia)) as He'.
  pose proof (small_exponent _ _ _ Hb) as Hex.
  destruct (round_aux_unit sx p ex ltac:(lia) ltac:(lia)) as [Hf (k & Hv & H1 & H2)].
  fold r in Hf, Hv. split; [exact Hf | ]. rewrite Hv.
  set (e' := fexp prec emax (Zpos (digits2_pos p) + ex)) in *.
  (* [N] is a multiple of the unit [2^e'], as [e' <= 0] *)
  assert (inject_Z N == inject_Z (N * 2 ^ (- e')) * 2 ^ e')%Q as HNu.
  { rewrite inject_Z_mult, <- pow2_Z by lia.
    assert (2 ^ (- e') * 2 ^ e' == 1)%Q as Hone
      by (rewrite <- pow2_add; replace (- e' + e') with 0 by lia; reflexivity).
    rewrite <- Qmult_assoc, Hone. ring. }
  rewrite HN, HNu in H1, H2.
  pose proof (pow2_pos e') as HP.
  set (c := N * 2 ^ (- e')) in *.
  assert (k = c) as ->; [ | rewrite <- HNu; reflexivity].
  assert (-1 <= 2 * (inject_Z k - inject_Z c) <= 1)%Q as [Ha Hb'].
  { set (P := (2 ^ e')%Q) in *. set (a := inject_Z k) in *. set (b := inject_Z c) in *.
    split; nra. }
  assert (inject_Z (-1) <= inject_Z (2 * (k - c)))%Q as Ha'.
  { unfold Z.sub. rewrite inject_Z_mult, inject_Z_plus, inject_Z_opp.
    change (inject_Z 2) with 2%Q. change (inject_Z (-1)) with (-1)%Q. lra. }
  assert (inject_Z (2 * (k - c)) <= inject_Z 1)%Q as Hb''.
  { unfold Z.sub. rewrite inject_Z_mult, inject_Z_plus, inject_Z_opp.
    change (inject_Z 2) with 2%Q. change (inject_Z 1) with 1%Q. lra. }
  rewrite <- Zle_Qle in Ha', Hb''. lia.
Qed.

(** *** Error of the arithmetic operations *)

Lemma sign_Q_xorb (a b : bool) : (sign_Q (xorb a b) == sign_Q a * sign_Q b)%Q.
Proof. destruct a, b; reflexivity. Qed.

Lemma Qabs_sign_mult (s : bool) (x : Q) : (0 <= x)%Q -> (Qabs (sign_Q s * x) == x)%Q.
Proof.
  intros Hx. destruct s; cbn [sign_Q].
  - setoid_replace (-1 * x)%Q with (- x)%Q using relation Qeq by ring.
    rewrite Qabs_opp. now apply Qabs_pos.
  - setoid_replace (1 * x)%Q with x using relation Qeq by ring. now apply Qabs_pos.
Qed.

Lemma zero_error (v : Q) (E : Z) : (v == 0)%Q -> (Qabs (0 - v) <= 2 ^ (E - 25))%Q.
Proof.
  intros Hv. pose proof (pow2_pos (E - 25)). apply Qabs_Qle_condition. split; lra.
Qed.

(** A product of finite floats whose exact value is below [2^E] in
    magnitude is finite and off by at most [2^(E-25)]. *)
Lemma fmul_error (x y : float32) (E : Z) :
  is_finite x = true -> is_finite y = true ->
  (Qabs (to_Q x * to_Q y) < 2 ^ E)%Q -> -125 <= E <= 105 ->
  is_finite (fmul x y) = true /\
  (Qabs (to_Q (fmul x y) - to_Q x * to_Q y) <= 2 ^ (E - 25))%Q.
Proof.
  intros Hx Hy Hb HE.
  destruct x as [sx | sx | | sx mx ex]; try discriminate;
    destruct y as [sy | sy | | sy my ey]; try discriminate;
    try (split; [reflexivity | apply zero_error; cbn [to_Q]; ring]).
  unfold fmul. cbn [SFmul].
  assert (to_Q (S754_finite sx mx ex) * to_Q (S754_finite sy my ey)
          == sign_Q (xorb sx sy) * (inject_Z (Zpos (mx * my)) * 2 ^ (ex + ey)))%Q as Hv.
  { rewrite !to_Q_finite, sign_Q_xorb, pow2_add, Pos2Z.inj_mul, inject_Z_mult. ring. }
  rewrite Hv in *.
  rewrite Qabs_sign_mult in Hb by apply Qlt_le_weak, mag_nonneg.
  pose proof (small_exponent _ _ _ Hb).
  apply round_aux_Q; [assumption | lia].
Qed.

Lemma shl_align_value (mx : positive) (ex ex' : Z) :
  (inject_Z (Zpos (fst (shl_align mx ex ex'))) * 2 ^ snd (shl_align mx ex ex')
   == inject_Z (Zpos mx) * 2 ^ ex)%Q
  /\ snd (shl_align mx ex ex') <= ex.
Proof.
  unfold shl_align. destruct (ex' - ex) as [| d | d] eqn:Hd; cbn [fst snd];
    try (split; [reflexivity | lia]).
  split; [ | lia].
  change (PosDef.Pos.iter xO mx d) with (shift_pos d mx).
  rewrite shift_pos_correct. change (Z.pow_pos 2 d) with (2 ^ Zpos d).
  rewrite inject_Z_mult, <- pow2_Z by lia.
  assert (2 ^ ex == 2 ^ Zpos d * 2 ^ ex')%Q as ->
    by (replace ex with (Zpos d + ex') by lia; apply pow2_add).
  ring.
Qed.

Lemma shl_align_min (mx : positive) (ex ez : Z) :
  ez <= ex -> snd (shl_align mx ex ez) = ez.
Proof.
  intros H. unfold shl_align. destruct (ez - ex) eqn:Hd; cbn [snd]; lia.
Qed.

Lemma binary_round_Q (sx : bool) (m : positive) (e E : Z) :
  (inject_Z (Zpos m) * 2 ^ e < 2 ^ E)%Q -> -125 <= E <= 105 ->
  is_finite (binary_round prec emax sx m e) = true /\
  (Qabs (to_Q (binary_round prec emax sx m e) - sign_Q sx * (inject_Z (Zpos m) * 2 ^ e))
   <= 2 ^ (E - 25))%Q.
Proof.
  intros Hb HE. unfold binary_round.
  destruct (shl_align_value m e (fexp prec emax (Zpos (digits2_pos m) + e))) as [Hv Hle].
  destruct (shl_align m e _) as [mz ez]. cbn [fst snd] in *.
  rewrite <- Hv in *. pose proof (small_exponent _ _ _ Hb).
  apply round_aux_Q; [assumption | lia].
Qed.

Lemma binary_normalize_Q (z : Z) (e E : Z) :
  (Qabs (inject_Z z * 2 ^ e) < 2 ^ E)%Q -> -125 <= E <= 105 ->
  is_finite (binary_normalize prec emax z e false) = true /\
  (Qabs (to_Q (binary_normalize prec emax z e false) - inject_Z z * 2 ^ e)
   <= 2 ^ (E - 25))%Q.
Proof.
  intros Hb HE. destruct z as [| m | m]; cbn [binary_normalize].
  - split; [reflexivity | ]. apply zero_error. cbn [to_Q]. ring.
  - rewrite Qabs_pos in Hb by apply Qlt_le_weak, mag_nonneg.
    destruct (binary_round_Q false m e E Hb HE) as [Hf He]. split; [exact Hf | ].
    cbn [sign_Q] in He.
    setoid_replace (1 * (inject_Z (Z.pos m) * 2 ^ e))%Q
      with (inject_Z (Z.pos m) * 2 ^ e)%Q using relation Qeq in He by ring.
    exact He.
  - assert (inject_Z (Z.neg m) * 2 ^ e == - (inject_Z (Zpos m) * 2 ^ e))%Q as Hneg.
    { change (Z.neg m) with (- Zpos m). rewrite inject_Z_opp. ring. }
    rewrite Hneg in *. rewrite Qabs_opp, Qabs_pos in Hb by apply Qlt_le_weak, mag_nonneg.
    destruct (binary_round_Q true m e E Hb HE) as [Hf He]. split; [exact Hf | ].
    cbn [sign_Q] in He.
    setoid_replace (-1 * (inject_Z (Z.pos m) * 2 ^ e))%Q
      with (- (inject_Z (Z.pos m) * 2 ^ e))%Q using relation Qeq in He by ring.
    exact He.
Qed.

Lemma cond_Zopp_Q (s : bool) (m : positive) :
  inject_Z (cond_Zopp s (Zpos m)) = (sign_Q s * inject_Z (Zpos m))%Q.
Proof. destruct s; reflexivity. Qed.

Lemma aligned_sum (sx sy : bool) (mx my : positive) (ex ey : Z) (neg : bool) :
  let ez := Z.min ex ey in
  let a := cond_Zopp sx (Zpos (fst (shl_align mx ex ez))) in
  let b := cond_Zopp sy (Zpos (fst (shl_align my ey ez))) in
  (inject_Z (if neg then a - b else a + b) * 2 ^ ez
   == if neg then to_Q (S754_finite sx mx ex) - to_Q (S754_finite sy my ey)
      else to_Q (S754_finite sx mx ex) + to_Q (S754_finite sy my ey))%Q.
Proof.
  intros ez a b. subst a b.
  destruct (shl_align_value mx ex ez) as [Hx _].
  destruct (shl_align_value my ey ez) as [Hy _].
  rewrite (shl_align_min mx ex ez) in Hx by (unfold ez; lia).
  rewrite (shl_align_min my ey ez) in Hy by (unfold ez; lia).
  destruct neg; rewrite !to_Q_finite, <- Hx, <- Hy; unfold Z.sub;
    rewrite inject_Z_plus, ?inject_Z_opp, !cond_Zopp_Q; ring.
Qed.

(** A sum of finite floats whose exact value is below [2^E] in
    magnitude is finite and off by at most [2^(E-25)]. *)
Lemma fadd_error (x y : float32) (E : Z) :
  is_finite x = true -> is_finite y = true ->
  (Qabs (to_Q x + to_Q y) < 2 ^ E)%Q -> -125 <= E <= 105 ->
  is_finite (fadd x y) = true /\
  (Qabs (to_Q (fadd x y) - (to_Q x + to_Q y)) <= 2 ^ (E - 25))%Q.
Proof.
  intros Hx Hy Hb HE. pose proof (pow2_pos (E - 25)) as HB.
  destruct x as [sx | sx | | sx mx ex]; try discriminate;
    destruct y as [sy | sy | | sy my ey]; try discriminate.
  - split; [destruct sx, sy; reflexivity | ].
    assert (to_Q (fadd (S754_zero sx) (S754_zero sy)) == 0)%Q as -> by (destruct sx, sy; reflexivity).
    apply zero_error. cbn [to_Q]. ring.
  - split; [reflexivity | ]. unfold fadd. cbn [SFadd].
    apply Qabs_Qle_condition. cbn [to_Q]. destruct sy; split; lra.
  - split; [reflexivity | ]. unfold fadd. cbn [SFadd].
    apply Qabs_Qle_condition. cbn [to_Q]. destruct sx; split; lra.
  - unfold fadd. cbn [SFadd].
    pose proof (aligned_sum sx sy mx my ex ey false) as Hs. cbv zeta in Hs.
    rewrite <- Hs in *. apply binary_normalize_Q; assumption.
Qed.

Lemma fsub_error (x y : float32) (E : Z) :
  is_finite x = true -> is_finite y = true ->
  (Qabs (to_Q x - to_Q y) < 2 ^ E)%Q -> -125 <= E <= 105 ->
  is_finite (fsub x y) = true /\
  (Qabs (to_Q (fsub x y) - (to_Q x - to_Q y)) <= 2 ^ (E - 25))%Q.
Proof.
  intros Hx Hy Hb HE. pose proof (pow2_pos (E - 25)) as HB.
  destruct x as [sx | sx | | sx mx ex]; try discriminate;
    destruct y as [sy | sy | | sy my ey]; try discriminate.
  - split; [destruct sx, sy; reflexivity | ].
    assert (to_Q (fsub (S754_zero sx) (S754_zero sy)) == 0)%Q as -> by (destruct sx, sy; reflexivity).
    apply zero_error. cbn [to_Q]. ring.
  - split; [reflexivity | ]. unfold fsub. cbn [SFsub].
    apply Qabs_Qle_condition. cbn [to_Q negb]. destruct sy; cbn [negb]; split; lra.
  - split; [reflexivity | ]. unfold fsub. cbn [SFsub].
    apply Qabs_Qle_condition. cbn [to_Q]. destruct sx; split; lra.
  - unfold fsub. cbn [SFsub].
    pose proof (aligned_sum sx sy mx my ex ey true) as Hs. cbv zeta in Hs.
    rewrite <- Hs in *. apply binary_normalize_Q; assumption.
Qed.

(** *** Integers and rounding to integers *)

Lemma binary_round_exact (sx : bool) (m : positive) (e : Z) (N : Z) :
  (inject_Z (Zpos m) * 2 ^ e == inject_Z N)%Q -> N < 2 ^ 24 ->
  is_finite (binary_round prec emax sx m e) = true /\
  (to_Q (binary_round prec emax sx m e) == sign_Q sx * inject_Z N)%Q.
Proof.
  intros HN Hlt. unfold binary_round.
  destruct (shl_align_value m e (fexp prec emax (Zpos (digits2_pos m) + e))) as [Hv Hle].
  destruct (shl_align m e _) as [mz ez]. cbn [fst snd] in *.
  rewrite <- Hv in HN. now apply round_aux_exact.
Qed.

(** Integers below [2^24] in magnitude convert to float exactly. *)
Lemma of_Z_exact (n : Z) :
  Z.abs n < 2 ^ 24 ->
  is_finite (of_Z n) = true /\ (to_Q (of_Z n) == inject_Z n)%Q.
Proof.
  intros Hn. unfold of_Z. destruct n as [| m | m]; cbn [binary_normalize].
  - split; reflexivity.
  - destruct (binary_round_exact false m 0 (Zpos m)) as [Hf Hv];
      [change (2 ^ 0)%Q with 1%Q; ring | lia | ].
    split; [exact Hf | ]. rewrite Hv. cbn [sign_Q]. ring.
  - destruct (binary_round_exact true m 0 (Zpos m)) as [Hf Hv];
      [change (2 ^ 0)%Q with 1%Q; ring | lia | ].
    split; [exact Hf | ]. rewrite Hv. cbn [sign_Q].
    change (Z.neg m) with (- Zpos m). rewrite inject_Z_opp. ring.
Qed.

Lemma sign_Q_abs (s : bool) (N : Z) (x : Q) :
  (0 < x)%Q -> (sign_Q s * x == inject_Z N)%Q ->
  (x == inject_Z (Z.abs N))%Q /\ (sign_Q s * inject_Z (Z.abs N) == inject_Z N)%Q.
Proof.
  intros Hx HN.
  destruct (Z.abs_spec N) as [[Hs ->] | [Hs ->]].
  - rewrite Zle_Qle in Hs. change (inject_Z 0) with 0%Q in Hs.
    destruct s; cbn [sign_Q] in *; split; lra.
  - rewrite Zlt_Qlt in Hs. change (inject_Z 0) with 0%Q in Hs.
    rewrite inject_Z_opp.
    destruct s; cbn [sign_Q] in *; split; lra.
Qed.

(** A product that is an integer below [2^24] in magnitude is exact. *)
Lemma fmul_exact (x y : float32) (N : Z) :
  is_finite x = true -> is_finite y = true ->
  (to_Q x * to_Q y == inject_Z N)%Q -> Z.abs N < 2 ^ 24 ->
  is_finite (fmul x y) = true /\ (to_Q (fmul x y) == inject_Z N)%Q.
Proof.
  intros Hx Hy HN Hlt.
  destruct x as [sx | sx | | sx mx ex]; try discriminate;
    destruct y as [sy | sy | | sy my ey]; try discriminate;
    try (split; [reflexivity | rewrite <- HN; cbn [fmul SFmul to_Q]; ring]).
  unfold fmul. cbn [SFmul].
  assert (to_Q (S754_finite sx mx ex) * to_Q (S754_finite sy my ey)
          == sign_Q (xorb sx sy) * (inject_Z (Zpos (mx * my)) * 2 ^ (ex + ey)))%Q as Hv.
  { rewrite !to_Q_finite, sign_Q_xorb, (pow2_add ex ey), Pos2Z.inj_mul, inject_Z_mult. ring. }
  rewrite Hv in HN.
  destruct (sign_Q_abs _ _ _ (mag_nonneg _ _) HN) as [Hm Hs].
  destruct (round_aux_exact (xorb sx sy) (mx * my) (ex + ey) (Z.abs N) Hm Hlt) as [Hf Hr].
  split; [exact Hf | ]. now rewrite Hr.
Qed.

(** [round_mag] returns an integer at most 1/2 away. *)
Lemma round_mag_error (t : tie_rule) (m : positive) (e : Z) :
  0 <= round_mag t m e /\
  (-1 <= 2 * (inject_Z (round_mag t m e) - inject_Z (Zpos m) * 2 ^ e) <= 1)%Q.
Proof.
  unfold round_mag. destruct (Z.leb_spec 0 e) as [He | He].
  - split; [apply Z.mul_nonneg_nonneg; [lia | apply Z.pow_nonneg; lia] | ].
    rewrite inject_Z_mult, <- pow2_Z by lia.
    set (x := (inject_Z (Z.pos m) * 2 ^ e)%Q). split; lra.
  - set (d := 2 ^ (- e)).
    assert (0 < d) as Hd by (apply Z.pow_pos_nonneg; lia).
    assert (2 ^ e * inject_Z d == 1)%Q as Hone.
    { unfold d. rewrite <- pow2_Z, <- pow2_add by lia.
      replace (e + - e) with 0 by lia. reflexivity. }
    pose proof (Z.div_mod (Zpos m) d ltac:(lia)) as Hdm.
    pose proof (Z.mod_pos_bound (Zpos m) d Hd) as Hr.
    set (q := Zpos m / d) in *. set (r := Zpos m mod d) in *.
    assert (0 <= q) by (apply Z.div_pos; lia).
    assert (inject_Z (Zpos m) * 2 ^ e * inject_Z d == inject_Z d * inject_Z q + inject_Z r)%Q
      as Hval.
    { rewrite Hdm at 1. rewrite inject_Z_plus, inject_Z_mult.
      rewrite <- Qmult_assoc, Hone. ring. }
    assert (0 < inject_Z d)%Q as HdQ by (change 0%Q with (inject_Z 0); now rewrite <- Zlt_Qlt).
    set (x := (inject_Z (Z.pos m) * 2 ^ e)%Q) in *.
    set (D := inject_Z d) in *.
    assert (forall k : Z, (2 * r <= d + 2 * d * k) -> (2 * d * k <= d + 2 * r) ->
              0 <= q + k /\ (-1 <= 2 * (inject_Z (q + k) - x) <= 1)%Q) as Hgen.
    { intros k H1 H2. split; [nia | ].
      rewrite Zle_Qle in H1, H2.
      rewrite !inject_Z_plus, !inject_Z_mult in H1, H2. rewrite inject_Z_plus.
      change (inject_Z 2) with 2%Q in *. fold D in H1, H2.
      set (Qq := inject_Z q) in *. set (Qr := inject_Z r) in *. set (Qk := inject_Z k) in *.
      split; nra. }
    destruct (Z.compare_spec (2 * r) d) as [Heq | Hlt | Hgt].
    + destruct t; [ | destruct (Z.even q)];
        first [ apply (Hgen 1); lia
              | replace q with (q + 0) at 1 2 by lia; apply (Hgen 0); lia
              | replace q with (q + 0) by lia; apply (Hgen 0); lia ].
    + replace q with (q + 0) by lia. apply (Hgen 0); lia.
    + apply (Hgen 1); lia.
Qed.

Lemma round_int_error (t : tie_rule) (x : float32) :
  (-1 <= 2 * (inject_Z (round_int t x) - to_Q x) <= 1)%Q.
Proof.
  destruct x as [s | s | | s m e]; cbn [round_int to_Q];
    try (change (inject_Z 0) with 0%Q; split; lra).
  destruct (round_mag_error t m e) as [_ [H1 H2]].
  set (v := (inject_Z (Z.pos m) * 2 ^ e)%Q) in *.
  destruct s; rewrite ?inject_Z_opp; split; lra.
Qed.

(** ** The quantizer *)

Lemma roundf_exact (x : float32) :
  is_finite x = true -> Z.abs (round_int TiesAway x) < 2 ^ 24 ->
  is_finite (roundf x) = true /\ (to_Q (roundf x) == inject_Z (round_int TiesAway x))%Q.
Proof.
  intros Hx Hn. destruct x as [s | s | | s m e]; try discriminate.
  - split; reflexivity.
  - cbn [roundf round_int] in *.
    destruct (round_mag_error TiesAway m e) as [Hpos _].
    destruct (round_mag TiesAway m e) as [| n | n] eqn:Hr; [ | | lia].
    + split; [reflexivity | ]. destruct s; reflexivity.
    + apply (of_Z_exact (if s then - Z.pos n else Z.pos n)). destruct s; lia.
Qed.

Lemma rcp_checked : forallb rcp_check (range 256) = true.
Proof. vm_compute. reflexivity. Qed.

Lemma rcp_facts (Qc : Z) :
  0 <= Qc <= 255 ->
  let Q' := floored (of_Z Qc) in
  let r := frcp_rn Q' in
  let q := inject_Z (Z.max Qc 1) in
  is_finite Q' = true /\ (to_Q Q' == q)%Q /\ is_finite r = true /\
  (0 <= to_Q r <= 1)%Q /\
  (- ((1 # 33554432) * q) <= to_Q r * q - 1 <= (1 # 33554432) * q)%Q.
Proof.
  intros HQ Q' r q. pose proof rcp_checked as H. rewrite forallb_forall in H.
  specialize (H Qc (in_range 256 Qc ltac:(lia))). unfold rcp_check in H.
  fold Q' r q in H.
  apply andb_prop in H as [H H6]. apply andb_prop in H as [H H5].
  apply andb_prop in H as [H H4]. apply andb_prop in H as [H H3].
  apply andb_prop in H as [H1 H2].
  apply Qeq_bool_iff in H2. apply Qle_bool_iff in H4, H5, H6.
  apply Qabs_Qle_condition in H6. tauto.
Qed.

Lemma quantize_floored (v Q_coeff : float32) :
  quantize v Q_coeff = fmul (floored Q_coeff) (roundf (fmul v (frcp_rn (floored Q_coeff)))).
Proof. reflexivity. Qed.

Lemma pow2_split (E : Z) : (2 ^ (E - 24) == 2 ^ (E - 25) + 2 ^ (E - 25))%Q.
Proof.
  rewrite (pow2_half (E - 24)). replace (E - 24 - 1) with (E - 25) by lia. ring.
Qed.

Lemma pow2_25 (E : Z) : (2 ^ (E - 25) == 2 ^ E * (1 # 33554432))%Q.
Proof. unfold Z.sub. rewrite pow2_add. reflexivity. Qed.

(** For a coefficient below [2^E] the quantizer returns the table entry
    (at least 1) times an integer [n], exactly, and [n] is a nearest
    integer of the quotient up to the rounding of the reciprocal and of
    the product. *)
Lemma quantize_grid (v : float32) (Qc E : Z) :
  is_finite v = true -> 0 <= Qc <= 255 -> -100 <= E <= 15 ->
  (Qabs (to_Q v) < 2 ^ E)%Q ->
  let Q' := inject_Z (Z.max Qc 1) in
  let n := round_int TiesAway (fmul v (frcp_rn (floored (of_Z Qc)))) in
  is_finite (quantize v (of_Z Qc)) = true /\
  (to_Q (quantize v (of_Z Qc)) == Q' * inject_Z n)%Q /\
  (Qabs (inject_Z n - to_Q v / Q') <= (1 # 2) + 2 ^ (E - 24))%Q.
Proof.
  intros Hv HQ HE Hb Q' n.
  destruct (rcp_facts Qc HQ) as (HfQ & HvQ & Hfr & [Hr0 Hr1] & [Hr2 Hr3]).
  fold Q' in HvQ, Hr2, Hr3.
  set (Qf := floored (of_Z Qc)) in *. set (r := frcp_rn Qf) in *.
  assert (1 <= Q' <= 255)%Q as [HQ1 HQ2].
  { unfold Q'. change 1%Q with (inject_Z 1). change 255%Q with (inject_Z 255).
    rewrite <- !Zle_Qle. lia. }
  apply Qabs_Qlt_condition in Hb. destruct Hb as [Hb1 Hb2].
  pose proof (pow2_pos E) as HE0. pose proof (pow2_pos (E - 25)) as HE25.
  assert (2 ^ E <= 32768)%Q as HE15.
  { change 32768%Q with (2 ^ 15)%Q. apply pow2_le. lia. }
  (* the product with the reciprocal *)
  destruct (fmul_error v r E Hv Hfr) as [Hfp Hp]; [ | lia | ].
  { apply Qabs_Qlt_condition.
    set (a := to_Q v) in *. set (b := to_Q r) in *. split; nra. }
  set (p := fmul v r) in *. apply Qabs_Qle_condition in Hp. destruct Hp as [Hp1 Hp2].
  (* its nearest integer *)
  pose proof (round_int_error TiesAway p) as [Hn1 Hn2]. fold n in Hn1, Hn2.
  assert (-32769 <= inject_Z n <= 32769)%Q as [Hnl Hnu].
  { pose proof (pow2_25 E) as H25.
    set (a := to_Q v) in *. set (b := to_Q r) in *. set (c := to_Q p) in *.
    set (P := (2 ^ E)%Q) in *. set (P25 := (2 ^ (E - 25))%Q) in *. split; nra. }
  assert (Z.abs n <= 32769) as Hnz.
  { change (-32769)%Q with (inject_Z (-32769)) in Hnl.
    change 32769%Q with (inject_Z 32769) in Hnu.
    rewrite <- Zle_Qle in Hnl, Hnu. lia. }
  destruct (roundf_exact p Hfp) as [Hfn Hvn]; [fold n; change (2 ^ 24) with 16777216; lia | ].
  fold n in Hvn.
  (* the product with the table entry is an integer below 2^24 *)
  rewrite quantize_floored. fold Qf r p.
  destruct (fmul_exact Qf (roundf p) (Z.max Qc 1 * n) HfQ Hfn) as [Hfq Hvq].
  { rewrite HvQ, Hvn, inject_Z_mult. reflexivity. }
  { change (2 ^ 24) with 16777216. nia. }
  split; [exact Hfq | ]. split; [rewrite Hvq, inject_Z_mult; reflexivity | ].
  (* distance to the exact quotient *)
  apply Qabs_Qle_condition. rewrite pow2_split.
  pose proof (pow2_25 E) as H25.
  assert (to_Q v / Q' * Q' == to_Q v)%Q as Hdiv by (field; lra).
  set (a := to_Q v) in *. set (b := to_Q r) in *. set (c := to_Q p) in *.
  set (w := (a / Q')%Q) in *.
  set (P := (2 ^ E)%Q) in *. set (P25 := (2 ^ (E - 25))%Q) in *.
  set (N := inject_Z n) in *.
  assert (- P25 <= a * b - w <= P25)%Q as [Hw1 Hw2].
  { assert (a * b - w == w * (b * Q' - 1))%Q as -> by (rewrite <- Hdiv; ring).
    assert (- P <= w <= P)%Q as [Hwl Hwu] by (split; nra).
    split; nra. }
  split; lra.
Qed.

(** ** Colour round trip *)

(** The error lemmas at a fixed exponent: values below 512 are off by
    at most [2^-16]. *)
Lemma fmul9 (x y : float32) :
  is_finite x = true -> is_finite y = true ->
  (-512 < to_Q x * to_Q y < 512)%Q ->
  is_finite (fmul x y) = true /\
  (- (1 # 65536) <= to_Q (fmul x y) - to_Q x * to_Q y <= 1 # 65536)%Q.
Proof.
  intros Hx Hy Hb.
  destruct (fmul_error x y 9 Hx Hy) as [Hf He]; [now apply Qabs_Qlt_condition | lia | ].
  split; [exact Hf | now apply Qabs_Qle_condition in He].
Qed.

Lemma fadd9 (x y : float32) :
  is_finite x = true -> is_finite y = true ->
  (-512 < to_Q x + to_Q y < 512)%Q ->
  is_finite (fadd x y) = true /\
  (- (1 # 65536) <= to_Q (fadd x y) - (to_Q x + to_Q y) <= 1 # 65536)%Q.
Proof.
  intros Hx Hy Hb.
  destruct (fadd_error x y 9 Hx Hy) as [Hf He]; [now apply Qabs_Qlt_condition | lia | ].
  split; [exact Hf | now apply Qabs_Qle_condition in He].
Qed.

Lemma fsub9 (x y : float32) :
  is_finite x = true -> is_finite y = true ->
  (-512 < to_Q x - to_Q y < 512)%Q ->
  is_finite (fsub x y) = true /\
  (- (1 # 65536) <= to_Q (fsub x y) - (to_Q x - to_Q y) <= 1 # 65536)%Q.
Proof.
  intros Hx Hy Hb.
  destruct (fsub_error x y 9 Hx Hy) as [Hf He]; [now apply Qabs_Qlt_condition | lia | ].
  split; [exact Hf | now apply Qabs_Qle_condition in He].
Qed.

Lemma ConvertSat_round (t : tie_rule) (x : float32) :
  is_finite x = true -> ConvertSat t x = clamp (round_int t x) 0 255.
Proof. destruct x; try discriminate; reflexivity. Qed.

Lemma Q_to_Z_bounds (m lo hi : Z) :
  (inject_Z lo < inject_Z m + 1)%Q -> (inject_Z m < inject_Z hi + 1)%Q -> lo <= m <= hi.
Proof.
  intros H1 H2.
  assert (inject_Z lo < inject_Z (m + 1))%Q as H1'
    by (rewrite inject_Z_plus; exact H1).
  assert (inject_Z m < inject_Z (hi + 1))%Q as H2'
    by (rewrite inject_Z_plus; exact H2).
  rewrite <- Zlt_Qlt in H1', H2'. lia.
Qed.

(** Forward conversions: a value that overshoots [[-1/2, 255 + 1/2]] by
    at most [e] is converted with an error of at most [1/2 + e]. *)
Lemma ConvertSat_near (t : tie_rule) (x : float32) (e : Q) :
  is_finite x = true -> (0 <= e < 1 # 2)%Q ->
  (- (1 # 2) - e <= to_Q x <= 255 + (1 # 2) + e)%Q ->
  0 <= ConvertSat t x <= 255 /\
  (- (1 # 2) - e <= inject_Z (ConvertSat t x) - to_Q x <= (1 # 2) + e)%Q.
Proof.
  intros Hx He Hb. rewrite ConvertSat_round by assumption.
  pose proof (round_int_error t x) as [H1 H2].
  set (m := round_int t x) in *.
  assert (-1 <= m <= 256) as Hm.
  { apply Q_to_Z_bounds.
    - change (inject_Z (-1)) with (-1)%Q. change (inject_Z 1) with 1%Q. lra.
    - change (inject_Z 256) with 256%Q. change (inject_Z 1) with 1%Q. lra. }
  split; [unfold clamp; lia | ].
  destruct (Z.eq_dec m (-1)) as [E | E]; [ | destruct (Z.eq_dec m 256) as [E' | E']].
  - rewrite E in *. change (clamp (-1) 0 255) with 0.
    change (inject_Z (-1)) with (-1)%Q in *. change (inject_Z 0) with 0%Q. lra.
  - rewrite E' in *. change (clamp 256 0 255) with 255.
    change (inject_Z 256) with 256%Q in *. change (inject_Z 255) with 255%Q. lra.
  - rewrite clamp_id by lia. lra.
Qed.

(** Inverse conversions: a value less than 3/2 away from a level [R]
    is converted to a level at most 1 away from [R]. *)
Lemma ConvertSat_within (t : tie_rule) (x : float32) (R : Z) :
  is_finite x = true -> 0 <= R <= 255 ->
  (-3 < 2 * (to_Q x - inject_Z R) < 3)%Q ->
  Z.abs (ConvertSat t x - R) <= 1.
Proof.
  intros Hx HR Hb. rewrite ConvertSat_round by assumption.
  pose proof (round_int_error t x) as [H1 H2].
  set (m := round_int t x) in *.
  assert (R - 1 <= m <= R + 1) as Hm.
  { apply Q_to_Z_bounds.
    - unfold Z.sub. rewrite inject_Z_plus, inject_Z_opp. change (inject_Z 1) with 1%Q. lra.
    - rewrite !inject_Z_plus. change (inject_Z 1) with 1%Q. lra. }
  unfold clamp. lia.
Qed.

Lemma of_Z_level (r : Z) :
  0 <= r <= 255 ->
  is_finite (of_Z r) = true /\ (to_Q (of_Z r) == inject_Z r)%Q
  /\ (0 <= inject_Z r <= 255)%Q.
Proof.
  intros Hr. destruct (of_Z_exact r) as [Hf Hv]; [change (2 ^ 24) with 16777216; lia | ].
  repeat split; try assumption.
  - change 0%Q with (inject_Z 0). rewrite <- Zle_Qle. lia.
  - change 255%Q with (inject_Z 255). rewrite <- Zle_Qle. lia.
Qed.

(** Names the exact value of a literal. *)
Ltac literal c :=
  let v := eval vm_compute in (to_Q c) in
  let H := fresh "HC" in
  assert (to_Q c = v) as H by (vm_compute; reflexivity).

Ltac use_literals :=
  repeat match goal with
         | H : to_Q ?c = _ |- context [to_Q ?c] => rewrite H
         end.

(** One arithmetic step: its operands are finite, its exact value is
    below 512, so its result is finite and [2^-16]-accurate. *)
Ltac step lem x y :=
  let Hf := fresh "Hf" in
  let He := fresh "He" in
  destruct (lem x y) as [Hf He];
  [ first [assumption | reflexivity]
  | first [assumption | reflexivity]
  | use_literals; split; lra
  | revert He; use_literals; intros He ].

Lemma rgb_to_y_error (tie : tie_rule) (rgb : vec3) :
  valid_rgb rgb = true ->
  0 <= rgb_to_y tie rgb <= 255 /\
  (- (501 # 1000) <=
     inject_Z (rgb_to_y tie rgb)
     - ((299 # 1000) * inject_Z (vx rgb) + (587 # 1000) * inject_Z (vy rgb)
        + (114 # 1000) * inject_Z (vz rgb)) <= 501 # 1000)%Q.
Proof.
  intros Hv. unfold valid_rgb in Hv.
  apply andb_prop in Hv as [Hv Hb]. apply andb_prop in Hv as [Hr Hg].
  apply valid_channel_spec in Hr, Hg, Hb.
  destruct rgb as [r g b]. cbn [vx vy vz] in *. unfold rgb_to_y. cbn [vx vy vz].
  destruct (of_Z_level r Hr) as (Fr & Vr & Br).
  destruct (of_Z_level g Hg) as (Fg & Vg & Bg).
  destruct (of_Z_level b Hb) as (Fb & Vb & Bb).
  literal f_0_299. literal f_0_587. literal f_0_114.
  step fmul9 f_0_299 (of_Z r). step fmul9 f_0_587 (of_Z g). step fmul9 f_0_114 (of_Z b).
  step fadd9 (fmul f_0_299 (of_Z r)) (fmul f_0_587 (of_Z g)).
  step fadd9 (fadd (fmul f_0_299 (of_Z r)) (fmul f_0_587 (of_Z g))) (fmul f_0_114 (of_Z b)).
  match goal with
  | |- context [ConvertSat tie ?x] =>
      destruct (ConvertSat_near tie x (1 # 5000)) as [Hrange Herr];
      [assumption | split; lra | split; lra | ]
  end.
  split; [exact Hrange | split; lra].
Qed.

Lemma rgb_to_cb_error (tie : tie_rule) (rgb : vec3) :
  valid_rgb rgb = true ->
  0 <= rgb_to_cb tie rgb <= 255 /\
  (- (501 # 1000) <=
     inject_Z (rgb_to_cb tie rgb)
     - (- (16873589 # 100000000) * inject_Z (vx rgb)
        - (33126411 # 100000000) * inject_Z (vy rgb)
        + (1 # 2) * inject_Z (vz rgb) + 128) <= 501 # 1000)%Q.
Proof.
  intros Hv. unfold valid_rgb in Hv.
  apply andb_prop in Hv as [Hv Hb]. apply andb_prop in Hv as [Hr Hg].
  apply valid_channel_spec in Hr, Hg, Hb.
  destruct rgb as [r g b]. cbn [vx vy vz] in *. unfold rgb_to_cb. cbn [vx vy vz].
  destruct (of_Z_level r Hr) as (Fr & Vr & Br).
  destruct (of_Z_level g Hg) as (Fg & Vg & Bg).
  destruct (of_Z_level b Hb) as (Fb & Vb & Bb).
  literal (SFopp f_0_16873589). literal f_0_33126411. literal f_0_5. literal f_128.
  step fmul9 (SFopp f_0_16873589) (of_Z r). step fmul9 f_0_33126411 (of_Z g).
  step fmul9 f_0_5 (of_Z b).
  step fsub9 (fmul (SFopp f_0_16873589) (of_Z r)) (fmul f_0_33126411 (of_Z g)).
  step fadd9 (fsub (fmul (SFopp f_0_16873589) (of_Z r)) (fmul f_0_33126411 (of_Z g)))
             (fmul f_0_5 (of_Z b)).
  step fadd9 (fadd (fsub (fmul (SFopp f_0_16873589) (of_Z r)) (fmul f_0_33126411 (of_Z g)))
                   (fmul f_0_5 (of_Z b))) f_128.
  match goal with
  | |- context [ConvertSat tie ?x] =>
      destruct (ConvertSat_near tie x (1 # 5000)) as [Hrange Herr];
      [assumption | split; lra | split; lra | ]
  end.
  split; [exact Hrange | split; lra].
Qed.

Lemma rgb_to_cr_error (tie : tie_rule) (rgb : vec3) :
  valid_rgb rgb = true ->
  0 <= rgb_to_cr tie rgb <= 255 /\
  (- (501 # 1000) <=
     inject_Z (rgb_to_cr tie rgb)
     - ((1 # 2) * inject_Z (vx rgb)
        - (41868759 # 100000000) * inject_Z (vy rgb)
        - (8131241 # 100000000) * inject_Z (vz rgb) + 128) <= 501 # 1000)%Q.
Proof.
  intros Hv. unfold valid_rgb in Hv.
  apply andb_prop in Hv as [Hv Hb]. apply andb_prop in Hv as [Hr Hg].
  apply valid_channel_spec in Hr, Hg, Hb.
  destruct rgb as [r g b]. cbn [vx vy vz] in *. unfold rgb_to_cr. cbn [vx vy vz].
  destruct (of_Z_level r Hr) as (Fr & Vr & Br).
  destruct (of_Z_level g Hg) as (Fg & Vg & Bg).
  destruct (of_Z_level b Hb) as (Fb & Vb & Bb).
  literal f_0_5. literal f_0_41868759. literal f_0_08131241. literal f_128.
  step fmul9 f_0_5 (of_Z r). step fmul9 f_0_41868759 (of_Z g).
  step fmul9 f_0_08131241 (of_Z b).
  step fsub9 (fmul f_0_5 (of_Z r)) (fmul f_0_41868759 (of_Z g)).
  step fsub9 (fsub (fmul f_0_5 (of_Z r)) (fmul f_0_41868759 (of_Z g)))
             (fmul f_0_08131241 (of_Z b)).
  step fadd9 (fsub (fsub (fmul f_0_5 (of_Z r)) (fmul f_0_41868759 (of_Z g)))
                   (fmul f_0_08131241 (of_Z b))) f_128.
  match goal with
  | |- context [ConvertSat tie ?x] =>
      destruct (ConvertSat_near tie x (1 # 5000)) as [Hrange Herr];
      [assumption | split; lra | split; lra | ]
  end.
  split; [exact Hrange | split; lra].
Qed.

(** The inverse colour transform, applied to levels that are within
    rounding of the exact transform of [rgb], returns [rgb] to within
    one level per channel. *)
Lemma ycbcr_to_rgb_near (tie : tie_rule) (rgb ycc : vec3) :
  valid_rgb rgb = true ->
  0 <= vx ycc <= 255 -> 0 <= vy ycc <= 255 -> 0 <= vz ycc <= 255 ->
  (- (501 # 1000) <=
     inject_Z (vx ycc)
     - ((299 # 1000) * inject_Z (vx rgb) + (587 # 1000) * inject_Z (vy rgb)
        + (114 # 1000) * inject_Z (vz rgb)) <= 501 # 1000)%Q ->
  (- (501 # 1000) <=
     inject_Z (vy ycc)
     - (- (16873589 # 100000000) * inject_Z (vx rgb)
        - (33126411 # 100000000) * inject_Z (vy rgb)
        + (1 # 2) * inject_Z (vz rgb) + 128) <= 501 # 1000)%Q ->
  (- (501 # 1000) <=
     inject_Z (vz ycc)
     - ((1 # 2) * inject_Z (vx rgb)
        - (41868759 # 100000000) * inject_Z (vy rgb)
        - (8131241 # 100000000) * inject_Z (vz rgb) + 128) <= 501 # 1000)%Q ->
  level_dist (ycbcr_to_rgb tie ycc) rgb <= 1.
Proof.
  intros Hv HY HCb HCr EY ECb ECr. unfold valid_rgb in Hv.
  apply andb_prop in Hv as [Hv Hb]. apply andb_prop in Hv as [Hr Hg].
  apply valid_channel_spec in Hr, Hg, Hb.
  destruct rgb as [r g b]. destruct ycc as [Y Cb Cr]. cbn [vx vy vz] in *.
  unfold level_dist, ycbcr_to_rgb. cbn [vx vy vz].
  destruct (of_Z_level r Hr) as (_ & _ & Br).
  destruct (of_Z_level g Hg) as (_ & _ & Bg).
  destruct (of_Z_level b Hb) as (_ & _ & Bb).
  destruct (of_Z_level Y HY) as (FY & VY & BY).
  destruct (of_Z_level Cb HCb) as (FCb & VCb & BCb).
  destruct (of_Z_level Cr HCr) as (FCr & VCr & BCr).
  literal f_128. literal f_1_402. literal f_0_34413629. literal f_0_71413629.
  literal f_1_772.
  step fsub9 (of_Z Cb) f_128. step fsub9 (of_Z Cr) f_128.
  set (cb' := fsub (of_Z Cb) f_128) in *. set (cr' := fsub (of_Z Cr) f_128) in *.
  step fmul9 f_1_402 cr'. step fadd9 (of_Z Y) (fmul f_1_402 cr').
  step fmul9 f_0_34413629 cb'. step fmul9 f_0_71413629 cr'.
  step fsub9 (of_Z Y) (fmul f_0_34413629 cb').
  step fsub9 (fsub (of_Z Y) (fmul f_0_34413629 cb')) (fmul f_0_71413629 cr').
  step fmul9 f_1_772 cb'. step fadd9 (of_Z Y) (fmul f_1_772 cb').
  assert (Z.abs (ConvertSat tie (fadd (of_Z Y) (fmul f_1_402 cr')) - r) <= 1) as HR
    by (apply ConvertSat_within; [assumption | assumption | split; lra]).
  assert (Z.abs (ConvertSat tie (fsub (fsub (of_Z Y) (fmul f_0_34413629 cb'))
                                      (fmul f_0_71413629 cr')) - g) <= 1) as HG
    by (apply ConvertSat_within; [assumption | assumption | split; lra]).
  assert (Z.abs (ConvertSat tie (fadd (of_Z Y) (fmul f_1_772 cb')) - b) <= 1) as HB
    by (apply ConvertSat_within; [assumption | assumption | split; lra]).
  lia.
Qed.

(** Forward then inverse colour transform of a valid pixel: within one
    level per channel. *)
Lemma colour_round_trip (tie : tie_rule) (rgb : vec3) :
  valid_rgb rgb = true ->
  level_dist
    (ycbcr_to_rgb tie (mk_vec3 (rgb_to_y tie rgb) (rgb_to_cb tie rgb) (rgb_to_cr tie rgb)))
    rgb <= 1.
Proof.
  intros Hv.
  destruct (rgb_to_y_error tie rgb Hv) as [RY EY].
  destruct (rgb_to_cb_error tie rgb Hv) as [RCb ECb].
  destruct (rgb_to_cr_error tie rgb Hv) as [RCr ECr].
  now apply ycbcr_to_rgb_near.
Qed.

(** ** The kernel without subsampling, on a 32x16 lane grid *)

Lemma land7 (x : Z) : Z.land x 7 = x mod 8.
Proof. change 7 with (Z.ones 3). rewrite Z.land_ones by lia. reflexivity. Qed.

Lemma shiftr3 (x : Z) : Z.shiftr x 3 = x / 8.
Proof. rewrite Z.shiftr_div_pow2 by lia. reflexivity. Qed.

Lemma in_threads (bx by_ : Z) (th : Z * Z) :
  In th (threads bx by_) <-> 0 <= fst th < bx /\ 0 <= snd th < by_.
Proof.
  unfold threads. rewrite in_flat_map. split.
  - intros (ty & Hty & Hin). apply in_map_iff in Hin as (tx & <- & Htx).
    unfold range in *. apply in_map_iff in Hty as (a & <- & Ha).
    apply in_map_iff in Htx as (b & <- & Hb). apply in_seq in Ha, Hb. cbn. lia.
  - intros [Hx Hy]. destruct th as [tx ty]. cbn [fst snd] in *.
    exists ty. split; [apply in_range; lia | ].
    apply in_map_iff. exists tx. split; [reflexivity | apply in_range; lia].
Qed.

Lemma in_range_iff (n k : Z) : In k (range n) <-> 0 <= k < n.
Proof.
  split; [ | apply in_range].
  unfold range. intros H. apply in_map_iff in H as (a & <- & Ha). apply in_seq in Ha. lia.
Qed.

Lemma in_pages_nl (page : Z) : In page (pages false false) <-> 0 <= page < 4.
Proof. apply (in_range_iff 4). Qed.

Lemma loop_range_spec (start stop step i : Z) :
  0 < step ->
  In i (loop_range start stop step) <->
  exists k, 0 <= k /\ i = start + k * step /\ i < stop.
Proof.
  intros Hs. unfold loop_range. rewrite in_map_iff. split.
  - intros (k & <- & Hk). apply in_seq in Hk. exists (Z.of_nat k).
    split; [lia | split; [reflexivity | ]].
    assert (Z.of_nat k < (stop - start + step - 1) / step) as Hlt.
    { destruct (Z.le_gt_cases ((stop - start + step - 1) / step) 0) as [Hn | Hp].
      - rewrite Z2Nat.nonpos in Hk by assumption. lia.
      - lia. }
    assert (step * ((stop - start + step - 1) / step) <= stop - start + step - 1)
      by (apply Z.mul_div_le; lia).
    nia.
  - intros (k & Hk & -> & Hlt). exists (Z.to_nat k).
    split; [rewrite Z2Nat.id by lia; reflexivity | ].
    apply in_seq. split; [lia | ].
    assert (k + 1 <= (stop - start + step - 1) / step) as Hlt'
      by (apply Z.div_le_lower_bound; [lia | nia]).
    lia.
Qed.

(** Folding a step function: a relation that every step respects, and a
    property that one step establishes and every step keeps. *)
Lemma fold_left_rel {A B : Type} (R : A -> A -> Prop) (f : A -> B -> A) (l : list B) :
  (forall a, R a a) -> (forall a b c, R a b -> R b c -> R a c) ->
  (forall a b, In b l -> R a (f a b)) ->
  forall a, R a (fold_left f l a).
Proof.
  intros Hrefl Htrans. induction l as [| b l IH]; intros Hf a; cbn; [apply Hrefl | ].
  apply Htrans with (f a b); [apply Hf; now left | ].
  apply IH. intros a' b' Hin. apply Hf. now right.
Qed.

Lemma fold_left_keeps {A B : Type} (Q : A -> Prop) (f : A -> B -> A) (l : list B) :
  (forall a b, In b l -> Q a -> Q (f a b)) ->
  forall a, Q a -> Q (fold_left f l a).
Proof.
  induction l as [| b l IH]; intros Hkeep a Ha; cbn; [assumption | ].
  apply IH; [intros a' b' Hin; apply Hkeep; now right | ].
  apply Hkeep; [now left | assumption].
Qed.

Lemma fold_left_reaches {A B : Type} (Q : A -> Prop) (f : A -> B -> A) (l : list B) (b : B) :
  In b l -> (forall a, Q (f a b)) ->
  (forall a b', In b' l -> Q a -> Q (f a b')) ->
  forall a, Q (fold_left f l a).
Proof.
  induction l as [| b0 l IH]; intros Hin Hb Hkeep a; [contradiction | ].
  cbn. destruct Hin as [-> | Hin].
  - apply fold_left_keeps; [intros a' b' Hin'; apply Hkeep; now right | apply Hb].
  - apply IH; [assumption | assumption | ].
    intros a' b' Hin'. apply Hkeep. now right.
Qed.

Lemma NoDup_map_injective {A B : Type} (f : A -> B) (l : list A) :
  (forall x y, f x = f y -> x = y) -> List.NoDup l -> List.NoDup (map f l).
Proof.
  intros Hf Hl. induction Hl as [| x l Hx Hl IH]; cbn; constructor; [ | exact IH].
  intros Hin. apply in_map_iff in Hin as (y & E & Hy). apply Hf in E. now subst.
Qed.

Lemma range_NoDup (n : Z) : List.NoDup (range n).
Proof.
  unfold range. apply NoDup_map_injective; [intros x y; lia | apply Stdlib.Lists.List.seq_NoDup].
Qed.

Lemma threads_NoDup (bx by_ : Z) : List.NoDup (threads bx by_).
Proof.
  unfold threads. generalize (range_NoDup by_).
  induction (range by_) as [| ty l IH]; intros Hl; cbn; [constructor | ].
  inversion Hl as [| ? ? Hty Hl']; subst.
  apply Stdlib.Lists.List.NoDup_app.
  - apply NoDup_map_injective; [ | apply range_NoDup]. intros x y E. now injection E.
  - now apply IH.
  - intros th H1 H2. apply in_map_iff in H1 as (tx & <- & _).
    apply in_flat_map in H2 as (ty' & Hty' & H2). apply in_map_iff in H2 as (tx' & E & _).
    injection E as _ ->. contradiction.
Qed.

(** A fold in which exactly one step, [x], establishes [P]: the steps
    before keep [I], the steps after keep [P]. *)
Lemma fold_left_once {A B : Type} (f : A -> B -> A) (I P : A -> Prop) (l : list B) (x : B) :
  List.NoDup l -> In x l ->
  (forall a y, In y l -> y <> x -> I a -> I (f a y)) ->
  (forall a, I a -> P (f a x)) ->
  (forall a y, In y l -> y <> x -> P a -> P (f a y)) ->
  forall a, I a -> P (fold_left f l a).
Proof.
  intros Hl. induction Hl as [| y l Hy Hl IH]; intros Hin HI Hx HP a Ha; [contradiction | ].
  cbn. destruct Hin as [-> | Hin].
  - apply (fold_left_keeps P); [ | now apply Hx].
    intros a' y Hy' Ha'. apply HP; [now right | | exact Ha']. intros ->. contradiction.
  - apply IH; try assumption.
    + intros a' y' Hy' Hne. apply HI; [now right | exact Hne].
    + intros a' y' Hy' Hne. apply HP; [now right | exact Hne].
    + apply HI; [now left | | exact Ha]. intros ->. contradiction.
Qed.

(** *** Output buffers related by writes that satisfy [P] *)

Lemma writes_ok_refl (P : ivec2 -> vec3 -> Prop) (out : surface) : writes_ok P out out.
Proof. intros p. now left. Qed.

Lemma writes_ok_trans (P : ivec2 -> vec3 -> Prop) (a b c : surface) :
  writes_ok P a b -> writes_ok P b c -> writes_ok P a c.
Proof.
  intros Hab Hbc p. destruct (Hbc p) as [E | Hv]; [ | now right].
  rewrite E. apply Hab.
Qed.

Lemma writes_ok_keeps (P : ivec2 -> vec3 -> Prop) (p : ivec2) (a b : surface) :
  writes_ok P a b -> holds_at P p a -> holds_at P p b.
Proof.
  intros Hab Ha. destruct (Hab p) as [E | Hv]; [ | exact Hv].
  unfold holds_at. now rewrite E.
Qed.

Lemma write_vec_ok (P : ivec2 -> vec3 -> Prop) (size : ivec2) (out : surface)
    (pos : ivec2) (v : vec3) :
  (in_bounds size pos = true -> P pos v) ->
  writes_ok P out (write_vec size out pos v).
Proof.
  intros HP p. unfold write_vec. destruct (in_bounds size pos) eqn:Hb; [ | now left].
  destruct (decide (p = pos)) as [-> | Hne].
  - right. exists v. split; [apply lookup_insert_eq | now apply HP].
  - left. apply lookup_insert_ne. congruence.
Qed.

Lemma write_vec_holds (P : ivec2 -> vec3 -> Prop) (size : ivec2) (out : surface)
    (pos : ivec2) (v : vec3) :
  in_bounds size pos = true -> P pos v ->
  holds_at P pos (write_vec size out pos v).
Proof.
  intros Hb HP. exists v. split; [now apply write_vec_eq | exact HP].
Qed.

(** *** The scratch elements in use

    Without subsampling the kernel works on 96 blocks: 32 of Cb, 32 of
    Cr, 32 of luma; each lane owns one element per plane and page. *)

Lemma cb_cell_nl (th : Z * Z) (page : Z) :
  cb_cell th page
  = cell (snd th / 8 * 4 + fst th / 8 + page * 8) (snd th mod 8) (fst th mod 8).
Proof.
  unfold cb_cell, cb_block, chroma_block_idx, chroma_y, chroma_x.
  rewrite !land7, !shiftr3. reflexivity.
Qed.

Lemma cr_cell_nl (th : Z * Z) (page : Z) :
  cr_cell false false th page
  = cell (32 + snd th / 8 * 4 + fst th / 8 + page * 8) (snd th mod 8) (fst th mod 8).
Proof.
  unfold cr_cell, cr_block, chroma_block_idx, chroma_y, chroma_x.
  rewrite !land7, !shiftr3.
  change (chroma_blocks false false) with 32. change horz_chroma_blocks with 4.
  change chroma_page with 8. unfold cell. lia.
Qed.

Lemma luma_cell_nl (th : Z * Z) (page : Z) :
  luma_cell false false th page 0 0
  = cell (64 + snd th / 8 * 4 + fst th / 8 + page * 8) (snd th mod 8) (fst th mod 8).
Proof.
  unfold luma_cell, luma_block, luma_block_idx, luma_y, luma_x, hs, vs.
  cbn [Z.b2z]. rewrite !Z.shiftl_0_r, !land7, !shiftr3, !Z.add_0_r.
  change (chroma_blocks false false) with 32. change (horz_luma_blocks false) with 4.
  change (luma_page false false) with 8. unfold cell. lia.
Qed.

Lemma owned_cells (th : Z * Z) (page : Z) :
  valid_lane th -> 0 <= page < 4 ->
  let c1 := cb_cell th page in
  let c2 := cr_cell false false th page in
  let c3 := luma_cell false false th page 0 0 in
  (used_cell c1 /\ plane_of c1 = 0 /\ page_of c1 = page /\ lane_of c1 = th) /\
  (used_cell c2 /\ plane_of c2 = 1 /\ page_of c2 = page /\ lane_of c2 = th) /\
  (used_cell c3 /\ plane_of c3 = 2 /\ page_of c3 = page /\ lane_of c3 = th).
Proof.
  intros [Hx Hy] Hp c1 c2 c3. subst c1 c2 c3.
  rewrite cb_cell_nl, cr_cell_nl, luma_cell_nl.
  destruct th as [tx ty]. cbn [fst snd] in *.
  unfold used_cell, plane_of, page_of, lane_of, cell.
  repeat split; try (apply f_equal2); Z.div_mod_to_equations; lia.
Qed.

Lemma cell_owner (n : Z) :
  used_cell n ->
  valid_lane (lane_of n) /\ 0 <= page_of n < 4 /\
  ((plane_of n = 0 /\ n = cb_cell (lane_of n) (page_of n)) \/
   (plane_of n = 1 /\ n = cr_cell false false (lane_of n) (page_of n)) \/
   (plane_of n = 2 /\ n = luma_cell false false (lane_of n) (page_of n) 0 0)).
Proof.
  intros [Hn Hc]. rewrite cb_cell_nl, cr_cell_nl, luma_cell_nl.
  unfold valid_lane, plane_of, page_of, lane_of, cell. cbn [fst snd].
  split; [ | split]; [Z.div_mod_to_equations; lia .. | ].
  assert (n / 72 / 32 = 0 \/ n / 72 / 32 = 1 \/ n / 72 / 32 = 2) as [H | [H | H]]
    by (Z.div_mod_to_equations; lia).
  - left. split; [exact H | ]. Z.div_mod_to_equations; lia.
  - right. left. split; [exact H | ]. Z.div_mod_to_equations; lia.
  - right. right. split; [exact H | ]. Z.div_mod_to_equations; lia.
Qed.

(** *** Stage 1: what the scratch holds after the gather *)

Lemma store_same (s : scratch) (i : Z) (v : float32) : store s i v i = v.
Proof. unfold store. now rewrite Z.eqb_refl. Qed.

Lemma store_other (s : scratch) (i k : Z) (v : float32) : k <> i -> store s i v k = s k.
Proof. intros H. unfold store. destruct (Z.eqb_spec k i); [contradiction | reflexivity]. Qed.

Section NoSubsampling.

Variable tie : tie_rule.
Variable sample : SampleDesc.

Lemma gather_page_at (blk_pos th : Z * Z) (page : Z) (s : scratch) (n : Z) :
  valid_lane th -> 0 <= page < 4 ->
  gather_page tie false false sample blk_pos th s page n
  = if decide (n = cb_cell th page \/ n = cr_cell false false th page
               \/ n = luma_cell false false th page 0 0)
    then gathered tie sample blk_pos n else s n.
Proof.
  intros Hth Hp.
  destruct (owned_cells th page Hth Hp) as
    ((U1 & P1 & G1 & L1) & (U2 & P2 & G2 & L2) & (U3 & P3 & G3 & L3)).
  assert (gathered tie sample blk_pos (cb_cell th page)
          = fsub (of_Z (cb (rgb_to_ycbcr_subsampled tie false false
                              (page_offset false false blk_pos th page)
                              (sample_in sample) (sample_size sample)))) f_128) as E1
    by (unfold gathered; rewrite P1, G1, L1; reflexivity).
  assert (gathered tie sample blk_pos (cr_cell false false th page)
          = fsub (of_Z (cr (rgb_to_ycbcr_subsampled tie false false
                              (page_offset false false blk_pos th page)
                              (sample_in sample) (sample_size sample)))) f_128) as E2
    by (unfold gathered; rewrite P2, G2, L2; reflexivity).
  assert (gathered tie sample blk_pos (luma_cell false false th page 0 0)
          = fsub (of_Z (luma_at (rgb_to_ycbcr_subsampled tie false false
                              (page_offset false false blk_pos th page)
                              (sample_in sample) (sample_size sample)) 0)) f_128) as E3
    by (unfold gathered; rewrite P3, G3, L3; reflexivity).
  unfold gather_page. change (sub_positions false false) with [(0, 0, 0%nat)].
  cbn [fold_left]. rewrite <- E1, <- E2, <- E3.
  set (c1 := cb_cell th page) in *. set (c2 := cr_cell false false th page) in *.
  set (c3 := luma_cell false false th page 0 0) in *.
  destruct (decide (n = c3)) as [-> | N3].
  { rewrite store_same. destruct (decide _) as [_ | N]; [reflexivity | tauto]. }
  rewrite store_other by assumption.
  destruct (decide (n = c2)) as [-> | N2].
  { rewrite store_same. destruct (decide _) as [_ | N]; [reflexivity | tauto]. }
  rewrite store_other by assumption.
  destruct (decide (n = c1)) as [-> | N1].
  { rewrite store_same. destruct (decide _) as [_ | N]; [reflexivity | tauto]. }
  rewrite store_other by assumption.
  destruct (decide _) as [N | _]; [tauto | reflexivity].
Qed.

Lemma gather_stage_spec (blk_pos : Z * Z) (s : scratch) (n : Z) :
  used_cell n ->
  gather_stage tie false false 32 16 sample blk_pos s n = gathered tie sample blk_pos n.
Proof.
  intros Hn. destruct (cell_owner n Hn) as (Hth & Hp & Hown).
  unfold gather_stage.
  apply (fold_left_reaches (fun s' : scratch => s' n = gathered tie sample blk_pos n)
           _ _ (lane_of n)).
  - apply in_threads. exact Hth.
  - intros a. unfold gather_thread.
    apply (fold_left_reaches (fun s' : scratch => s' n = gathered tie sample blk_pos n)
             _ _ (page_of n)).
    + now apply in_pages_nl.
    + intros a'. rewrite gather_page_at by assumption.
      destruct (decide _) as [_ | N]; [reflexivity | ].
      exfalso. apply N. destruct Hown as [[_ H] | [[_ H] | [_ H]]]; tauto.
    + intros a' page Hpage Ha'. apply in_pages_nl in Hpage.
      rewrite gather_page_at by assumption. now destruct (decide _).
  - intros a th Hin Ha. apply in_threads in Hin. unfold gather_thread.
    apply fold_left_keeps; [ | exact Ha].
    intros a' page Hpage Ha'. apply in_pages_nl in Hpage.
    rewrite gather_page_at by assumption. now destruct (decide _).
Qed.

(** *** Stage 5: what the scatter writes *)

Lemma page_offset_nl (blk_pos th : Z * Z) (page : Z) :
  page_offset false false blk_pos th page
  = (fst blk_pos + fst th, snd blk_pos + snd th + page * 16).
Proof.
  unfold page_offset, hs, vs, vert_chroma_blocks. cbn [Z.b2z].
  rewrite !Z.shiftl_0_r. f_equal. lia.
Qed.

Lemma scatter_page_nl (blk_pos th : Z * Z) (s : scratch) (out : surface) (page : Z) :
  let offset := page_offset false false blk_pos th page in
  scatter_page tie false false sample blk_pos th s out page
  = if (fst offset >=? fst (sample_size sample)) || (snd offset >=? snd (sample_size sample))
    then out
    else write_vec (sample_size sample) out offset (written_pixel tie th s page).
Proof. reflexivity. Qed.

Lemma scatter_stage_ok (P : ivec2 -> vec3 -> Prop) (blk_pos : Z * Z) (s : scratch)
    (out : surface) :
  (forall th page, valid_lane th -> 0 <= page < 4 ->
     in_bounds (sample_size sample) (page_offset false false blk_pos th page) = true ->
     P (page_offset false false blk_pos th page) (written_pixel tie th s page)) ->
  writes_ok P out (scatter_stage tie false false 32 16 sample blk_pos s out)
  /\ forall th page, valid_lane th -> 0 <= page < 4 ->
       in_bounds (sample_size sample) (page_offset false false blk_pos th page) = true ->
       holds_at P (page_offset false false blk_pos th page)
         (scatter_stage tie false false 32 16 sample blk_pos s out).
Proof.
  intros HP.
  assert (forall th page o, valid_lane th -> 0 <= page < 4 ->
            writes_ok P o (scatter_page tie false false sample blk_pos th s o page)) as Hpage.
  { intros th page o Hth Hp. rewrite scatter_page_nl. cbv zeta.
    destruct (_ || _); [apply writes_ok_refl | ].
    apply write_vec_ok. now apply HP. }
  assert (forall th o, valid_lane th ->
            writes_ok P o (scatter_thread tie false false sample blk_pos s o th)) as Hthread.
  { intros th o Hth. unfold scatter_thread.
    apply (fold_left_rel (writes_ok P)).
    - apply writes_ok_refl.
    - apply writes_ok_trans.
    - intros a page Hin. apply in_pages_nl in Hin. now apply Hpage. }
  split.
  - unfold scatter_stage. apply (fold_left_rel (writes_ok P)).
    + apply writes_ok_refl.
    + apply writes_ok_trans.
    + intros a th Hin. apply in_threads in Hin. now apply Hthread.
  - intros th page Hth Hp Hb. unfold scatter_stage.
    apply (fold_left_reaches _ _ _ th).
    + now apply in_threads.
    + intros a. unfold scatter_thread. apply (fold_left_reaches _ _ _ page).
      * now apply in_pages_nl.
      * intros a'. rewrite scatter_page_nl. cbv zeta.
        assert ((fst (page_offset false false blk_pos th page) >=? fst (sample_size sample))
                || (snd (page_offset false false blk_pos th page) >=? snd (sample_size sample))
                = false) as ->.
        { pose proof Hb as Hb'. unfold in_bounds in Hb'.
          apply andb_prop in Hb' as [Hb' H4]. apply andb_prop in Hb' as [Hb' H3].
          apply Z.ltb_lt in H3, H4.
          apply orb_false_intro; rewrite Z.geb_leb; apply Z.leb_gt; lia. }
        apply write_vec_holds; [assumption | now apply HP].
      * intros a' page' Hin Ha'. apply in_pages_nl in Hin.
        eapply writes_ok_keeps; [ | exact Ha']. now apply Hpage.
    + intros a th' Hin Ha. apply in_threads in Hin.
      eapply writes_ok_keeps; [ | exact Ha]. now apply Hthread.
Qed.

End NoSubsampling.

(** *** The loops over the tile *)

Lemma align_down_8 (x : Z) : Z.land x (-8) = 8 * (x / 8).
Proof.
  change (-8) with (Z.lnot (Z.ones 3)). rewrite <- Z.ldiff_land, Z.ldiff_ones_r by lia.
  rewrite Z.shiftl_mul_pow2, Z.shiftr_div_pow2 by lia. change (2 ^ 3) with 8. lia.
Qed.

Lemma align_up_8 (x : Z) : 0 <= x -> x <= align_up x 8.
Proof.
  intros Hx. unfold align_up. rewrite Z.quot_div_nonneg by lia.
  Z.div_mod_to_equations. lia.
Qed.

Section TileLoops.

Variable tie : tie_rule.
Variable quantization : bool.
Variables dct_fwd dct_inv : list float32 -> list float32.
Variable sample : SampleDesc.
Variable P : ivec2 -> vec3 -> Prop.

Local Abbreviation step := (tile_step tie false false quantization dct_fwd dct_inv 32 16 sample).
Local Abbreviation kernel :=
  (JpegCompressionDistortion tie false false quantization dct_fwd dct_inv 32 16 sample).

Hypothesis step_ok : forall st blk_pos, writes_ok P (snd st) (snd (step st blk_pos)).

Hypothesis step_covers : forall st blk_pos th page,
  valid_lane th -> 0 <= page < 4 ->
  in_bounds (sample_size sample) (page_offset false false blk_pos th page) = true ->
  holds_at P (page_offset false false blk_pos th page) (snd (step st blk_pos)).

Lemma kernel_ok (block : BlockDesc) (s0 : scratch) (out : surface) :
  writes_ok P out (kernel block s0 out).
Proof.
  unfold JpegCompressionDistortion.
  apply (fold_left_rel (fun a b : scratch * surface => writes_ok P (snd a) (snd b))
           _ _ ltac:(intros; apply writes_ok_refl)
           ltac:(intros a b c; apply writes_ok_trans)).
  intros st y _.
  apply (fold_left_rel (fun a b : scratch * surface => writes_ok P (snd a) (snd b))
           _ _ ltac:(intros; apply writes_ok_refl)
           ltac:(intros a b c; apply writes_ok_trans)).
  intros st' x _. apply step_ok.
Qed.

Lemma kernel_covers (block : BlockDesc) (s0 : scratch) (out : surface) (x y : Z) :
  fst (block_start block) <= x < fst (block_end block) ->
  snd (block_start block) <= y < snd (block_end block) ->
  in_bounds (sample_size sample) (x, y) = true ->
  holds_at P (x, y) (kernel block s0 out).
Proof.
  intros Hx Hy Hb. unfold JpegCompressionDistortion.
  assert (0 <= x /\ 0 <= y) as [Hx0 Hy0].
  { unfold in_bounds in Hb. cbn [fst snd] in Hb.
    apply andb_prop in Hb as [Hb _]. apply andb_prop in Hb as [Hb _].
    apply andb_prop in Hb as [H1 H2]. apply Z.leb_le in H1, H2. lia. }
  rewrite !align_down_8.
  set (sx := fst (block_start block)) in *. set (sy := snd (block_start block)) in *.
  set (ex := fst (block_end block)) in *. set (ey := snd (block_end block)) in *.
  pose proof (align_up_8 ex ltac:(lia)) as Hex. pose proof (align_up_8 ey ltac:(lia)) as Hey.
  change (num_pages false false * vert_chroma_blocks * 8) with 64.
  set (ax := 8 * (sx / 8)) in *. set (ay := 8 * (sy / 8)) in *.
  assert (ax <= x /\ ay <= y) as [Hax Hay] by (unfold ax, ay; Z.div_mod_to_equations; lia).
  set (bx := ax + (x - ax) / 32 * 32). set (by_ := ay + (y - ay) / 64 * 64).
  assert (bx <= x < bx + 32 /\ by_ <= y < by_ + 64) as [Hbx Hby]
    by (unfold bx, by_; Z.div_mod_to_equations; lia).
  set (th := (x - bx, (y - by_) mod 16)). set (page := (y - by_) / 16).
  assert (valid_lane th) as Hth by (unfold valid_lane, th; cbn [fst snd]; Z.div_mod_to_equations; lia).
  assert (0 <= page < 4) as Hpage by (unfold page; Z.div_mod_to_equations; lia).
  assert (page_offset false false (bx, by_) th page = (x, y)) as Hoff.
  { rewrite page_offset_nl. unfold th, page. cbn [fst snd]. f_equal; Z.div_mod_to_equations; lia. }
  apply (fold_left_reaches (fun st : scratch * surface => holds_at P (x, y) (snd st)) _ _ by_).
  - apply loop_range_spec; [lia | ]. exists ((y - ay) / 64).
    split; [Z.div_mod_to_equations; lia | split; [reflexivity | lia]].
  - intros st.
    apply (fold_left_reaches (fun st : scratch * surface => holds_at P (x, y) (snd st)) _ _ bx).
    + apply loop_range_spec; [lia | ]. exists ((x - ax) / 32).
      split; [Z.div_mod_to_equations; lia | split; [reflexivity | lia]].
    + intros st'. rewrite <- Hoff. apply step_covers; [assumption | assumption | ].
      now rewrite Hoff.
    + intros st' x' _ Hst'. eapply writes_ok_keeps; [apply step_ok | exact Hst'].
  - intros st y' _ Hst.
    apply (fold_left_keeps (fun st : scratch * surface => holds_at P (x, y) (snd st)));
      [ | exact Hst].
    intros st' x' _ Hst'. eapply writes_ok_keeps; [apply step_ok | exact Hst'].
Qed.

End TileLoops.

(** *** Stages 2 and 4: the passes of the transform *)

Lemma slice_cells_used (id : Z) (k : nat) :
  0 <= id < 768 -> (k < 8)%nat ->
  used_cell (row_slice id + Z.of_nat k * col_stride)
  /\ used_cell (col_slice id + Z.of_nat k * row_stride).
Proof.
  intros Hid Hk. unfold row_slice, col_slice, col_stride, row_stride, used_cell, cell.
  rewrite land7, shiftr3. split; Z.div_mod_to_equations; lia.
Qed.

Lemma store_slice_at (s : scratch) (base stride : Z) (vals : list float32) (n : Z) :
  store_slice s base stride vals n = s n
  \/ exists k, (k < 8)%nat /\ store_slice s base stride vals n = nth k vals (S754_zero false).
Proof.
  unfold store_slice.
  apply (fold_left_keeps
           (fun s' : scratch =>
              s' n = s n \/ exists k, (k < 8)%nat /\ s' n = nth k vals (S754_zero false)));
    [ | now left].
  intros a k Hin Ha. apply in_seq in Hin. unfold store.
  destruct (n =? base + Z.of_nat k * stride); [ | exact Ha].
  right. exists k. split; [lia | reflexivity].
Qed.

Lemma load_slice_length (s : scratch) (base stride : Z) :
  length (load_slice s base stride) = 8%nat.
Proof. reflexivity. Qed.

Lemma slice_ids (th : Z * Z) (id : Z) :
  valid_lane th ->
  In id (loop_range (tid 32 th) (num_dct_slices false false) (block_size 32 16)) ->
  0 <= id < 768.
Proof.
  intros [Hx Hy] Hin. change (num_dct_slices false false) with 768 in Hin.
  change (block_size 32 16) with 512 in Hin.
  apply loop_range_spec in Hin as (k & Hk & -> & Hlt); [ | lia].
  unfold tid in *. lia.
Qed.

(** A property of scratch contents that the slices keep pass by pass:
    [Inv] holds of the used elements before, so it does after. *)
Lemma dct_pass_keeps (Inv : float32 -> Prop) (f : list float32 -> list float32)
    (stride : Z) (base_of : Z -> Z) (s : scratch) :
  (forall l, length l = 8%nat -> Forall Inv l ->
     forall k, (k < 8)%nat -> Inv (nth k (f l) (S754_zero false))) ->
  (forall id k, 0 <= id < 768 -> (k < 8)%nat ->
     used_cell (base_of id + Z.of_nat k * stride)) ->
  (forall n, used_cell n -> Inv (s n)) ->
  forall n, used_cell n -> Inv (dct_pass false false 32 16 f stride base_of s n).
Proof.
  intros Hf Hused. unfold dct_pass.
  apply (fold_left_keeps (fun s' : scratch => forall n, used_cell n -> Inv (s' n))).
  intros a th Hth Ha. apply in_threads in Hth. unfold dct_thread.
  apply (fold_left_keeps (fun s' : scratch => forall n, used_cell n -> Inv (s' n)));
    [ | exact Ha].
  intros a' id Hid Ha' n Hn. apply slice_ids in Hid; [ | exact Hth].
  unfold dct_in_place.
  destruct (store_slice_at a' (base_of id) stride (f (load_slice a' (base_of id) stride)) n)
    as [-> | (k & Hk & ->)]; [now apply Ha' | ].
  apply Hf; [reflexivity | | exact Hk].
  unfold load_slice. apply Stdlib.Lists.List.Forall_forall. intros x Hx.
  apply in_map_iff in Hx as (j & <- & Hj). apply in_seq in Hj.
  apply Ha', Hused; [exact Hid | lia].
Qed.

Lemma forward_dct_keeps (Inv : float32 -> Prop) (f : list float32 -> list float32)
    (s : scratch) :
  (forall l, length l = 8%nat -> Forall Inv l ->
     forall k, (k < 8)%nat -> Inv (nth k (f l) (S754_zero false))) ->
  (forall n, used_cell n -> Inv (s n)) ->
  forall n, used_cell n -> Inv (forward_dct false false f 32 16 s n).
Proof.
  intros Hf Hs. unfold forward_dct.
  apply dct_pass_keeps; [exact Hf | intros; now apply slice_cells_used | ].
  apply dct_pass_keeps; [exact Hf | intros; now apply slice_cells_used | exact Hs].
Qed.

Lemma inverse_dct_keeps (Inv : float32 -> Prop) (f : list float32 -> list float32)
    (s : scratch) :
  (forall l, length l = 8%nat -> Forall Inv l ->
     forall k, (k < 8)%nat -> Inv (nth k (f l) (S754_zero false))) ->
  (forall n, used_cell n -> Inv (s n)) ->
  forall n, used_cell n -> Inv (inverse_dct false false f 32 16 s n).
Proof.
  intros Hf Hs. unfold inverse_dct.
  apply dct_pass_keeps; [exact Hf | intros; now apply slice_cells_used | ].
  apply dct_pass_keeps; [exact Hf | intros; now apply slice_cells_used | exact Hs].
Qed.

(** *** The flat mid-gray tile *)

Lemma zero_kept_spec (L : list mat8) :
  zero_kept_all L = true ->
  forall m, In m L -> forall (i j : nat) (z : float32),
    is_zero z = true -> is_zero (quantize z (of_Z (mat_get m i j))) = true.
Proof.
  intros HL m Hm i j z Hz. unfold zero_kept_all in HL.
  rewrite forallb_forall in HL. specialize (HL m Hm).
  assert (zero_kept (mat_get m i j) = true) as Hk.
  { unfold mat_get. destruct (Nat.lt_ge_cases i (length m)) as [Hi | Hi].
    - rewrite forallb_forall in HL. specialize (HL (nth i m nil) (nth_In _ _ Hi)).
      destruct (Nat.lt_ge_cases j (length (nth i m nil))) as [Hj | Hj].
      + rewrite forallb_forall in HL. apply HL. now apply nth_In.
      + rewrite (nth_overflow _ _ Hj). reflexivity.
    - rewrite (nth_overflow _ _ Hi). destruct j; reflexivity. }
  unfold zero_kept in Hk. apply andb_prop in Hk as [H0 H1].
  destruct z as [[|] | | | ]; try discriminate; assumption.
Qed.

Lemma default_tables_checked : zero_kept_all default_tables = true.
Proof. vm_compute. reflexivity. Qed.

Lemma default_tables_keep_zero (t : tie_rule) (i j : nat) (z : float32) :
  is_zero z = true ->
  is_zero (quantize z (of_Z (mat_get (GetLumaQuantizationTable t 95) i j))) = true
  /\ is_zero (quantize z (of_Z (mat_get (GetChromaQuantizationTable t 95) i j))) = true.
Proof.
  intros Hz. split; apply (zero_kept_spec _ default_tables_checked); try exact Hz.
  - destruct t; [left; reflexivity | right; left; reflexivity].
  - destruct t; [do 2 right; left; reflexivity | do 3 right; left; reflexivity].
Qed.

Lemma gray_levels (tie : tie_rule) :
  rgb_to_y tie gray = 128 /\ rgb_to_cb tie gray = 128 /\ rgb_to_cr tie gray = 128
  /\ ycbcr_to_rgb tie gray = gray.
Proof. destruct tie; vm_compute; repeat split; reflexivity. Qed.

Lemma centred_gray : fsub (of_Z 128) f_128 = S754_zero false.
Proof. vm_compute. reflexivity. Qed.

Lemma uncentred_zero (tie : tie_rule) (z : float32) :
  is_zero z = true -> ConvertSat tie (fadd z f_128) = 128.
Proof. destruct z as [[|] | | | ]; intros H; try discriminate; destruct tie; vm_compute; reflexivity. Qed.

Lemma store_keeps (Inv : float32 -> Prop) (s : scratch) (i : Z) (v : float32) :
  (forall n, used_cell n -> Inv (s n)) -> Inv v ->
  forall n, used_cell n -> Inv (store s i v n).
Proof. intros Hs Hv n Hn. unfold store. destruct (n =? i); [exact Hv | now apply Hs]. Qed.

Lemma keeps_zeros_nth (f : list float32 -> list float32) :
  keeps_zeros f ->
  forall l, length l = 8%nat -> Forall (fun x => is_zero x = true) l ->
    forall k, (k < 8)%nat -> is_zero (nth k (f l) (S754_zero false)) = true.
Proof.
  intros Hf l Hl Hz k _.
  assert (forallb is_zero (f l) = true) as H.
  { apply Hf; [exact Hl | ]. apply forallb_forall.
    now apply Stdlib.Lists.List.Forall_forall. }
  destruct (Nat.lt_ge_cases k (length (f l))) as [Hk | Hk].
  - rewrite forallb_forall in H. apply H. now apply nth_In.
  - now rewrite (nth_overflow _ _ Hk).
Qed.

Lemma quantize_page_nl (sample : SampleDesc) (th : Z * Z) (s : scratch) (page : Z) :
  quantize_page false false sample th s page
  = let s1 := store s (cb_cell th page)
                (quantize (s (cb_cell th page)) (chroma_q sample th)) in
    let s2 := store s1 (cr_cell false false th page)
                (quantize (s1 (cr_cell false false th page)) (chroma_q sample th)) in
    store s2 (luma_cell false false th page 0 0)
      (quantize (s2 (luma_cell false false th page 0 0)) (luma_q false false sample th 0 0)).
Proof. reflexivity. Qed.

Section FlatGray.

Variables tie ttab : tie_rule.
Variables dct_fwd dct_inv : list float32 -> list float32.
Variable img : image.

Hypothesis fwd_zeros : keeps_zeros dct_fwd.
Hypothesis inv_zeros : keeps_zeros dct_inv.
Hypothesis img_gray : forall x y, 0 <= x < 16 -> 0 <= y < 16 -> img x y = gray.

Local Abbreviation sample := (SampleDesc_default ttab img (16, 16)).

Lemma gathered_gray (blk_pos : Z * Z) (n : Z) :
  gathered tie sample blk_pos n = S754_zero false.
Proof.
  destruct (gray_levels tie) as (Hy & Hcb & Hcr & _).
  unfold gathered. set (p := page_offset false false blk_pos (lane_of n) (page_of n)).
  assert (sampler img (16, 16) p = gray) as Hs.
  { unfold sampler. cbn [fst snd]. apply img_gray.
    - pose proof (clamp_bounds (fst p) 0 (16 - 1)). lia.
    - pose proof (clamp_bounds (snd p) 0 (16 - 1)). lia. }
  unfold rgb_to_ycbcr_subsampled, rgb_to_cb_cr, luma_at.
  cbn [andb luma cb cr fst snd nth sample_in sample_size SampleDesc_default].
  destruct p as [px py]. cbn [fst snd]. rewrite Hs, Hy, Hcb, Hcr.
  destruct (plane_of n =? 0); [ | destruct (plane_of n =? 1)]; apply centred_gray.
Qed.

Lemma quantize_page_zero (th : Z * Z) (page : Z) (s : scratch) :
  valid_lane th -> 0 <= page < 4 ->
  (forall n, used_cell n -> is_zero (s n) = true) ->
  forall n, used_cell n -> is_zero (quantize_page false false sample th s page n) = true.
Proof.
  intros Hth Hp Hs.
  destruct (owned_cells th page Hth Hp) as ((U1 & _) & (U2 & _) & (U3 & _)).
  rewrite quantize_page_nl. cbv zeta.
  set (s1 := store s (cb_cell th page) _).
  assert (forall n, used_cell n -> is_zero (s1 n) = true) as H1.
  { apply (store_keeps (fun x => is_zero x = true)); [exact Hs | ].
    apply (proj2 (default_tables_keep_zero ttab _ _ _ (Hs _ U1))). }
  set (s2 := store s1 (cr_cell false false th page) _).
  assert (forall n, used_cell n -> is_zero (s2 n) = true) as H2.
  { apply (store_keeps (fun x => is_zero x = true)); [exact H1 | ].
    apply (proj2 (default_tables_keep_zero ttab _ _ _ (H1 _ U2))). }
  apply (store_keeps (fun x => is_zero x = true)); [exact H2 | ].
  apply (proj1 (default_tables_keep_zero ttab _ _ _ (H2 _ U3))).
Qed.

Lemma quantize_stage_zero (s : scratch) :
  (forall n, used_cell n -> is_zero (s n) = true) ->
  forall n, used_cell n -> is_zero (quantize_stage false false true 32 16 sample s n) = true.
Proof.
  unfold quantize_stage.
  apply (fold_left_keeps (fun s' : scratch => forall n, used_cell n -> is_zero (s' n) = true)).
  intros a th Hth Ha. apply in_threads in Hth. unfold quantize_thread.
  apply (fold_left_keeps (fun s' : scratch => forall n, used_cell n -> is_zero (s' n) = true));
    [ | exact Ha].
  intros a' page Hp Ha'. apply in_pages_nl in Hp. now apply quantize_page_zero.
Qed.

Lemma gray_tile_zero (st : scratch * surface) (blk_pos : Z * Z) (n : Z) :
  used_cell n ->
  is_zero (fst (tile_step tie false false true dct_fwd dct_inv 32 16 sample st blk_pos) n)
  = true.
Proof.
  unfold tile_step. cbn [fst snd].
  apply (inverse_dct_keeps (fun x => is_zero x = true)); [now apply keeps_zeros_nth | ].
  apply quantize_stage_zero.
  apply (forward_dct_keeps (fun x => is_zero x = true)); [now apply keeps_zeros_nth | ].
  intros m Hm. rewrite gather_stage_spec by exact Hm. now rewrite gathered_gray.
Qed.

Lemma gray_tile_pixel (st : scratch * surface) (blk_pos th : Z * Z) (page : Z) :
  valid_lane th -> 0 <= page < 4 ->
  written_pixel tie th
    (fst (tile_step tie false false true dct_fwd dct_inv 32 16 sample st blk_pos)) page
  = gray.
Proof.
  intros Hth Hp.
  destruct (owned_cells th page Hth Hp) as ((U1 & _) & (U2 & _) & (U3 & _)).
  unfold written_pixel.
  rewrite !uncentred_zero by now apply gray_tile_zero.
  apply gray_levels.
Qed.

Lemma gray_tile_scatter (st : scratch * surface) (blk_pos : Z * Z) :
  let st' := tile_step tie false false true dct_fwd dct_inv 32 16 sample st blk_pos in
  writes_ok (fun _ v => v = gray) (snd st) (snd st')
  /\ forall th page, valid_lane th -> 0 <= page < 4 ->
       in_bounds (16, 16) (page_offset false false blk_pos th page) = true ->
       holds_at (fun _ v => v = gray) (page_offset false false blk_pos th page) (snd st').
Proof.
  intros st'.
  apply (scatter_stage_ok tie sample (fun _ v => v = gray) blk_pos (fst st') (snd st)).
  intros th page Hth Hp _. now apply gray_tile_pixel.
Qed.

End FlatGray.

(** C9: a 16x16 image whose pixels are all (128, 128, 128), run through
    the kernel without subsampling, with quantization enabled and the
    default (quality 95) tables: every pixel of the image that lies in
    the tile is written, and holds (128, 128, 128) again, so it is
    within one level of the input.  The 1-D transforms are those of
    [dct_8x8_gpu.cuh]; all that is used of them is that they map a
    slice of zeros to zeros. *)
Theorem flat_gray_round_trip (tie ttab : tie_rule)
    (dct_fwd dct_inv : list float32 -> list float32)
    (img : image) (block : BlockDesc) (s0 : scratch) (out : surface) (x y : Z) :
  keeps_zeros dct_fwd -> keeps_zeros dct_inv ->
  (forall x y, 0 <= x < 16 -> 0 <= y < 16 -> img x y = gray) ->
  fst (block_start block) <= x < fst (block_end block) ->
  snd (block_start block) <= y < snd (block_end block) ->
  0 <= x < 16 -> 0 <= y < 16 ->
  exists v,
    JpegCompressionDistortion tie false false true dct_fwd dct_inv 32 16
      (SampleDesc_default ttab img (16, 16)) block s0 out !! (x, y) = Some v
    /\ v = gray /\ level_dist v (img x y) <= 1.
Proof.
  intros Hfwd Hinv Himg Hbx Hby Hx Hy.
  destruct (kernel_covers tie true dct_fwd dct_inv (SampleDesc_default ttab img (16, 16))
              (fun _ v => v = gray)
              ltac:(intros st blk; now apply gray_tile_scatter)
              ltac:(intros st blk; now apply gray_tile_scatter)
              block s0 out x y Hbx Hby) as (v & Hv & ->).
  - unfold in_bounds. cbn [fst snd sample_size SampleDesc_default].
    repeat (apply andb_true_intro; split); try apply Z.leb_le; try apply Z.ltb_lt; lia.
  - exists gray. split; [exact Hv | split; [reflexivity | ]].
    rewrite Himg by assumption. change (0 <= 1). lia.
Qed.

Lemma flat_gray_round_trip_witness :
  exists v,
    JpegCompressionDistortion TiesEven false false true (fun l => l) (fun l => l) 32 16
      (SampleDesc_default TiesAway (fun _ _ => gray) (16, 16))
      (mk_BlockDesc (0, 0) (16, 16)) (fun _ => S754_zero false) ∅ !! (5, 11) = Some v
    /\ v = gray /\ level_dist v gray <= 1.
Proof.
  apply (flat_gray_round_trip TiesEven TiesAway (fun l => l) (fun l => l) (fun _ _ => gray)
           (mk_BlockDesc (0, 0) (16, 16)) (fun _ => S754_zero false) ∅ 5 11);
    try (cbn; lia).
  - intros l _ H. exact H.
  - intros l _ H. exact H.
  - reflexivity.
Defined.

(** *** What a pass of the transform leaves in each slice *)

Lemma store_slice_in (s : scratch) (base stride : Z) (vals : list float32) (k : nat) :
  stride <> 0 -> (k < 8)%nat ->
  store_slice s base stride vals (base + Z.of_nat k * stride) = nth k vals (S754_zero false).
Proof.
  intros Hs Hk. unfold store_slice.
  apply (fold_left_reaches
           (fun a : scratch => a (base + Z.of_nat k * stride) = nth k vals (S754_zero false))
           _ _ k).
  - apply in_seq. lia.
  - intros a. apply store_same.
  - intros a j _ Ha. unfold store.
    destruct (Z.eqb_spec (base + Z.of_nat k * stride) (base + Z.of_nat j * stride)) as [E | _];
      [ | exact Ha].
    assert (k = j) as -> by nia. reflexivity.
Qed.

Lemma store_slice_out (s : scratch) (base stride : Z) (vals : list float32) (n : Z) :
  (forall j, (j < 8)%nat -> n <> base + Z.of_nat j * stride) ->
  store_slice s base stride vals n = s n.
Proof.
  intros Hn. unfold store_slice.
  apply (fold_left_keeps (fun a : scratch => a n = s n)); [ | reflexivity].
  intros a j Hj Ha. apply in_seq in Hj. rewrite store_other; [exact Ha | ]. apply Hn. lia.
Qed.

Lemma load_slice_nth (s : scratch) (base stride : Z) (k : nat) :
  (k < 8)%nat -> nth k (load_slice s base stride) (S754_zero false) = s (base + Z.of_nat k * stride).
Proof.
  intros Hk. unfold load_slice.
  rewrite (nth_indep _ _ (s (base + Z.of_nat 0 * stride)))
    by (rewrite length_map, length_seq; exact Hk).
  rewrite (map_nth (fun j => s (base + Z.of_nat j * stride))), seq_nth by exact Hk.
  reflexivity.
Qed.

Lemma loop_range_NoDup (start stop step : Z) :
  0 < step -> List.NoDup (loop_range start stop step).
Proof.
  intros Hs. unfold loop_range.
  apply NoDup_map_injective; [intros x y; nia | apply Stdlib.Lists.List.seq_NoDup].
Qed.

Section PassValue.

Variable f : list float32 -> list float32.
Variable stride : Z.
Variable base_of : Z -> Z.

Hypothesis stride_nonzero : stride <> 0.

(** The slices are pairwise disjoint. *)
Hypothesis slices_apart : forall id id' (k k' : nat),
  0 <= id < 768 -> 0 <= id' < 768 -> (k < 8)%nat -> (k' < 8)%nat ->
  base_of id + Z.of_nat k * stride = base_of id' + Z.of_nat k' * stride ->
  id = id' /\ k = k'.

Lemma dct_in_place_other (s : scratch) (id id' : Z) (k : nat) :
  0 <= id < 768 -> 0 <= id' < 768 -> (k < 8)%nat -> id' <> id ->
  dct_in_place f stride (base_of id') s (base_of id + Z.of_nat k * stride)
  = s (base_of id + Z.of_nat k * stride).
Proof.
  intros Hid Hid' Hk Hne. unfold dct_in_place. apply store_slice_out.
  intros j Hj E. apply Hne. symmetry. now apply (slices_apart id id' k j).
Qed.

Lemma dct_in_place_own (s0 s : scratch) (id : Z) :
  (forall j, (j < 8)%nat ->
     s (base_of id + Z.of_nat j * stride) = s0 (base_of id + Z.of_nat j * stride)) ->
  forall k, (k < 8)%nat ->
    dct_in_place f stride (base_of id) s (base_of id + Z.of_nat k * stride)
    = nth k (f (load_slice s0 (base_of id) stride)) (S754_zero false).
Proof.
  intros Hs k Hk. unfold dct_in_place. rewrite store_slice_in by assumption.
  f_equal. f_equal. unfold load_slice. apply map_ext_in. intros j Hj. apply in_seq in Hj.
  apply Hs. lia.
Qed.

(** Every slice is transformed exactly once, from the contents the
    pass started with. *)
Lemma dct_pass_value (s : scratch) (id : Z) (k : nat) :
  0 <= id < 768 -> (k < 8)%nat ->
  dct_pass false false 32 16 f stride base_of s (base_of id + Z.of_nat k * stride)
  = nth k (f (load_slice s (base_of id) stride)) (S754_zero false).
Proof.
  intros Hid Hk.
  set (I := fun a : scratch => forall j, (j < 8)%nat ->
              a (base_of id + Z.of_nat j * stride) = s (base_of id + Z.of_nat j * stride)).
  set (P := fun a : scratch => forall j, (j < 8)%nat ->
              a (base_of id + Z.of_nat j * stride)
              = nth j (f (load_slice s (base_of id) stride)) (S754_zero false)).
  set (th0 := (id mod 512 mod 32, id mod 512 / 32)).
  assert (valid_lane th0 /\ tid 32 th0 = id mod 512) as [Hth0 Htid0].
  { unfold valid_lane, th0, tid. cbn [fst snd]. Z.div_mod_to_equations. lia. }
  assert (forall th id', valid_lane th ->
            In id' (loop_range (tid 32 th) (num_dct_slices false false) (block_size 32 16)) ->
            0 <= id' < 768 /\ id' mod 512 = tid 32 th) as Hids.
  { intros th id' [Hx Hy] Hin. change (num_dct_slices false false) with 768 in Hin.
    change (block_size 32 16) with 512 in Hin.
    apply loop_range_spec in Hin as (j & Hj & -> & Hlt); [ | lia].
    unfold tid in *. Z.div_mod_to_equations. lia. }
  assert (forall a id', 0 <= id' < 768 -> id' <> id ->
            (I a -> I (dct_in_place f stride (base_of id') a))
            /\ (P a -> P (dct_in_place f stride (base_of id') a))) as Hother.
  { intros a id' Hid' Hne. split; intros Ha j Hj;
      rewrite dct_in_place_other by assumption; now apply Ha. }
  enough (P (dct_pass false false 32 16 f stride base_of s)) as HP by now apply HP.
  unfold dct_pass.
  apply (fold_left_once _ I P (threads 32 16) th0 (threads_NoDup 32 16));
    [now apply in_threads | | | | now intros j _].
  - intros a th Hth Hne Ha. apply in_threads in Hth. unfold dct_thread.
    apply (fold_left_keeps I); [ | exact Ha].
    intros a' id' Hin Ha'. destruct (Hids th id' Hth Hin) as [Hr Hm].
    apply Hother; [exact Hr | | exact Ha'].
    intros ->. apply Hne. destruct th as [tx ty], Hth as [Hx Hy]. unfold th0.
    rewrite Hm. unfold tid. cbn [fst snd] in *. f_equal; Z.div_mod_to_equations; lia.
  - intros a Ha. unfold dct_thread.
    apply (fold_left_once _ I P _ id
             (loop_range_NoDup (tid 32 th0) (num_dct_slices false false) (block_size 32 16)
                ltac:(reflexivity)));
      [ | | | | exact Ha].
    + change (num_dct_slices false false) with 768. change (block_size 32 16) with 512.
      apply loop_range_spec; [lia | ]. exists (id / 512). rewrite Htid0.
      split; [Z.div_mod_to_equations; lia | split; [Z.div_mod_to_equations; lia | lia]].
    + intros a' id' Hin Hne. apply Hother; [ | exact Hne]. now apply (Hids th0 id' Hth0).
    + intros a' Ha' j Hj. now apply dct_in_place_own.
    + intros a' id' Hin Hne. apply Hother; [ | exact Hne]. now apply (Hids th0 id' Hth0).
  - intros a th Hth Hne Ha. apply in_threads in Hth. unfold dct_thread.
    apply (fold_left_keeps P); [ | exact Ha].
    intros a' id' Hin Ha'. destruct (Hids th id' Hth Hin) as [Hr Hm].
    apply Hother; [exact Hr | | exact Ha'].
    intros ->. apply Hne. destruct th as [tx ty], Hth as [Hx Hy]. unfold th0.
    rewrite Hm. unfold tid. cbn [fst snd] in *. f_equal; Z.div_mod_to_equations; lia.
Qed.

End PassValue.

Lemma row_pass_value (f : list float32 -> list float32) (s : scratch) (b r c : Z) :
  0 <= b < 96 -> 0 <= r < 8 -> 0 <= c < 8 ->
  dct_pass false false 32 16 f col_stride row_slice s (cell b r c)
  = nth (Z.to_nat c) (f (block_row s b r)) (S754_zero false).
Proof.
  intros Hb Hr Hc.
  assert (row_slice (b * 8 + r) = cell b r 0) as Hbase.
  { unfold row_slice. rewrite land7, shiftr3. f_equal; Z.div_mod_to_equations; lia. }
  replace (cell b r c) with (row_slice (b * 8 + r) + Z.of_nat (Z.to_nat c) * col_stride)
    by (rewrite Hbase; unfold cell, col_stride; lia).
  rewrite dct_pass_value; [unfold block_row; now rewrite Hbase | discriminate | | lia | lia].
  intros id id' k k' Hid Hid' Hk Hk'. unfold row_slice, cell, col_stride.
  rewrite !land7, !shiftr3. intros E. Z.div_mod_to_equations. lia.
Qed.

Lemma col_pass_value (f : list float32 -> list float32) (s : scratch) (b r c : Z) :
  0 <= b < 96 -> 0 <= r < 8 -> 0 <= c < 8 ->
  dct_pass false false 32 16 f row_stride col_slice s (cell b r c)
  = nth (Z.to_nat r) (f (block_col s b c)) (S754_zero false).
Proof.
  intros Hb Hr Hc.
  assert (col_slice (b * 8 + c) = cell b 0 c) as Hbase.
  { unfold col_slice. rewrite land7, shiftr3. f_equal; Z.div_mod_to_equations; lia. }
  replace (cell b r c) with (col_slice (b * 8 + c) + Z.of_nat (Z.to_nat r) * row_stride)
    by (rewrite Hbase; unfold cell, row_stride; lia).
  rewrite dct_pass_value; [unfold block_col; now rewrite Hbase | discriminate | | lia | lia].
  intros id id' k k' Hid Hid' Hk Hk'. unfold col_slice, cell, row_stride.
  rewrite !land7, !shiftr3. intros E. Z.div_mod_to_equations. lia.
Qed.

Lemma block_row_nth (s : scratch) (b r : Z) (k : nat) :
  (k < 8)%nat -> nth k (block_row s b r) (S754_zero false) = s (cell b r (Z.of_nat k)).
Proof.
  intros Hk. unfold block_row. rewrite load_slice_nth by exact Hk.
  f_equal. unfold cell, col_stride. lia.
Qed.

Lemma block_col_nth (s : scratch) (b c : Z) (k : nat) :
  (k < 8)%nat -> nth k (block_col s b c) (S754_zero false) = s (cell b (Z.of_nat k) c).
Proof.
  intros Hk. unfold block_col. rewrite load_slice_nth by exact Hk.
  f_equal. unfold cell, row_stride. lia.
Qed.

Lemma used_cell_parts (n : Z) :
  used_cell n -> exists b r c, 0 <= b < 96 /\ 0 <= r < 8 /\ 0 <= c < 8 /\ n = cell b r c.
Proof.
  intros [Hn Hc]. exists (n / 72), (n mod 72 / 9), (n mod 9).
  unfold cell. repeat split; Z.div_mod_to_equations; lia.
Qed.

Lemma cell_used_nl (b r c : Z) :
  0 <= b < 96 -> 0 <= r < 8 -> 0 <= c < 8 -> used_cell (cell b r c).
Proof. intros Hb Hr Hc. unfold used_cell, cell. split; Z.div_mod_to_equations; lia. Qed.

(** *** Round trip without quantization *)

Lemma ConvertSat_range (t : tie_rule) (x : float32) : 0 <= ConvertSat t x <= 255.
Proof.
  unfold ConvertSat.
  destruct x as [s | [|] | | s m e]; try lia; apply clamp_bounds; lia.
Qed.

Lemma level_recovered (t : tie_rule) (r : float32) (k : Z) (tol : Q) :
  0 <= k <= 255 -> (tol <= 499 # 1000)%Q ->
  near tol r (fsub (of_Z k) f_128) ->
  ConvertSat t (fadd r f_128) = k.
Proof.
  intros Hk Htol [Hr Hd].
  destruct (of_Z_level k Hk) as (Fk & Vk & Bk).
  literal f_128.
  step fsub9 (of_Z k) f_128.
  apply Qabs_Qle_condition in Hd.
  step fadd9 r f_128.
  destruct (ConvertSat_near t (fadd r f_128) (1 # 5000)) as [Hrange Herr];
    [assumption | split; lra | split; lra | ].
  assert (k <= ConvertSat t (fadd r f_128) <= k); [ | lia].
  apply Q_to_Z_bounds; lra.
Qed.

Lemma centred_level_finite (x : float32) : centred_level x -> is_finite x = true.
Proof.
  intros (k & Hk & ->).
  destruct (of_Z_level k Hk) as (Fk & Vk & Bk).
  literal f_128.
  step fsub9 (of_Z k) f_128. exact Hf.
Qed.

Lemma gathered_level (tie : tie_rule) (sample : SampleDesc) (blk_pos : Z * Z) (n : Z) :
  centred_level (gathered tie sample blk_pos n).
Proof.
  unfold gathered, centred_level. eexists. split; [ | reflexivity].
  unfold rgb_to_ycbcr_subsampled, rgb_to_cb_cr, luma_at. cbn [andb luma cb cr fst snd nth].
  destruct (plane_of n =? 0); [ | destruct (plane_of n =? 1)]; apply ConvertSat_range.
Qed.

Lemma sampler_inside (img : image) (size pos : ivec2) :
  in_bounds size pos = true -> sampler img size pos = img (fst pos) (snd pos).
Proof.
  intros Hb. unfold in_bounds in Hb.
  apply andb_prop in Hb as [Hb H4]. apply andb_prop in Hb as [Hb H3].
  apply andb_prop in Hb as [H1 H2]. apply Z.leb_le in H1, H2. apply Z.ltb_lt in H3, H4.
  unfold sampler. rewrite !clamp_id by lia. reflexivity.
Qed.

(** The four passes of the kernel, in its order (rows forward,
    columns forward, columns back, rows back), return every element
    in use to within [tol] of what the gather left there. *)
Lemma passes_cancel (B delta tol : Q) (dct_fwd dct_inv : list float32 -> list float32)
    (s : scratch) (n : Z) :
  dct_1d_contract B delta tol dct_fwd dct_inv ->
  (forall m, used_cell m -> centred_level (s m)) ->
  used_cell n ->
  near tol (inverse_dct false false dct_inv 32 16 (forward_dct false false dct_fwd 32 16 s) n)
           (s n).
Proof.
  intros (Hlen & Hrange & Hcol & Hrow) Hs Hn.
  destruct (used_cell_parts n Hn) as (b & r & c & Hb & Hr & Hc & ->).
  unfold inverse_dct, forward_dct.
  set (t := dct_pass false false 32 16 dct_fwd col_stride row_slice s).
  set (u := dct_pass false false 32 16 dct_fwd row_stride col_slice t).
  set (w := dct_pass false false 32 16 dct_inv row_stride col_slice u).
  assert (forall r', 0 <= r' < 8 -> slice_of centred_level (block_row s b r')) as Hrows.
  { intros r' Hr'. split; [reflexivity | ]. intros k Hk. rewrite block_row_nth by exact Hk.
    apply Hs, cell_used_nl; lia. }
  assert (forall r' c', 0 <= r' < 8 -> 0 <= c' < 8 ->
            t (cell b r' c')
            = nth (Z.to_nat c') (dct_fwd (block_row s b r')) (S754_zero false)) as Ht
    by (intros r' c' Hr' Hc'; now apply row_pass_value).
  assert (forall c', 0 <= c' < 8 -> slice_of (bounded B) (block_col t b c')) as Hcols.
  { intros c' Hc'. split; [reflexivity | ]. intros k Hk. rewrite block_col_nth by exact Hk.
    rewrite Ht by lia. apply (Hrange _ (Hrows (Z.of_nat k) ltac:(lia))). lia. }
  assert (forall c', 0 <= c' < 8 -> block_col u b c' = dct_fwd (block_col t b c')) as Hu.
  { intros c' Hc'. apply (list8_ext (S754_zero false)); [reflexivity | now apply Hlen | ].
    intros j Hj. rewrite block_col_nth by exact Hj. unfold u.
    rewrite col_pass_value by lia. now rewrite Nat2Z.id. }
  assert (forall r' c', 0 <= r' < 8 -> 0 <= c' < 8 ->
            near delta (w (cell b r' c')) (t (cell b r' c'))) as Hw.
  { intros r' c' Hr' Hc'. unfold w. rewrite col_pass_value, Hu by lia.
    pose proof (Hcol _ (Hcols c' Hc') (Z.to_nat r') ltac:(lia)) as H.
    rewrite block_col_nth, Z2Nat.id in H by lia. exact H. }
  rewrite row_pass_value by assumption.
  pose proof (Hrow (block_row s b r) (block_row w b r) (Hrows r Hr) eq_refl) as H.
  specialize (H ltac:(intros k Hk; rewrite block_row_nth by exact Hk;
                      rewrite <- (Nat2Z.id k) at 2; rewrite <- Ht by lia; apply Hw; lia)).
  specialize (H (Z.to_nat c) ltac:(lia)).
  rewrite block_row_nth, Z2Nat.id in H by lia. exact H.
Qed.

Section RoundTrip.

Variable tie : tie_rule.
Variables dct_fwd dct_inv : list float32 -> list float32.
Variable sample : SampleDesc.

Variables B delta tol : Q.

Hypothesis dct_cancels : dct_1d_contract B delta tol dct_fwd dct_inv.
Hypothesis tol_small : (tol <= 499 # 1000)%Q.
Hypothesis valid_input : forall x y,
  0 <= x < fst (sample_size sample) -> 0 <= y < snd (sample_size sample) ->
  valid_rgb (sample_in sample x y) = true.

Local Abbreviation step := (tile_step tie false false false dct_fwd dct_inv 32 16 sample).

(** After the inverse transform every element converts back to the
    level that was gathered. *)
Lemma tile_level (st : scratch * surface) (blk_pos : Z * Z) (n : Z) (k : Z) :
  used_cell n -> 0 <= k <= 255 ->
  gathered tie sample blk_pos n = fsub (of_Z k) f_128 ->
  ConvertSat tie (fadd (fst (step st blk_pos) n) f_128) = k.
Proof.
  intros Hn Hk Hg. unfold tile_step. cbn [fst snd].
  change (quantize_stage false false false 32 16 sample ?s) with s.
  set (s1 := gather_stage tie false false 32 16 sample blk_pos (fst st)).
  assert (forall m, used_cell m -> centred_level (s1 m)) as H1.
  { intros m Hm. unfold s1. rewrite gather_stage_spec by exact Hm. apply gathered_level. }
  pose proof (passes_cancel B delta tol dct_fwd dct_inv s1 n dct_cancels H1 Hn) as Hd.
  apply (level_recovered tie _ k tol Hk tol_small).
  unfold s1 in Hd at 2. rewrite gather_stage_spec, Hg in Hd by exact Hn. exact Hd.
Qed.

Lemma tile_pixel (st : scratch * surface) (blk_pos th : Z * Z) (page : Z) :
  valid_lane th -> 0 <= page < 4 ->
  in_bounds (sample_size sample) (page_offset false false blk_pos th page) = true ->
  near_input (sample_in sample) (page_offset false false blk_pos th page)
    (written_pixel tie th (fst (step st blk_pos)) page).
Proof.
  intros Hth Hp Hb.
  destruct (owned_cells th page Hth Hp) as
    ((U1 & P1 & G1 & L1) & (U2 & P2 & G2 & L2) & (U3 & P3 & G3 & L3)).
  set (p := page_offset false false blk_pos th page) in *.
  set (rgb := sample_in sample (fst p) (snd p)).
  assert (valid_rgb rgb = true) as Hv.
  { unfold in_bounds in Hb.
    apply andb_prop in Hb as [Hb H4]. apply andb_prop in Hb as [Hb H3].
    apply andb_prop in Hb as [H1 H2]. apply Z.leb_le in H1, H2. apply Z.ltb_lt in H3, H4.
    apply valid_input; lia. }
  assert (rgb_to_ycbcr_subsampled tie false false p (sample_in sample) (sample_size sample)
          = {| luma := [rgb_to_y tie rgb]; cb := rgb_to_cb tie rgb; cr := rgb_to_cr tie rgb |})
    as Hg.
  { unfold rgb_to_ycbcr_subsampled. cbn [andb]. destruct p as [px py]. cbn [fst snd] in *.
    rewrite (sampler_inside _ _ (px, py) Hb). reflexivity. }
  unfold near_input, written_pixel. fold rgb.
  rewrite (tile_level st blk_pos _ (rgb_to_y tie rgb) U3 (ConvertSat_range _ _)).
  2:{ unfold gathered. rewrite P3, G3, L3. fold p. rewrite Hg. reflexivity. }
  rewrite (tile_level st blk_pos _ (rgb_to_cb tie rgb) U1 (ConvertSat_range _ _)).
  2:{ unfold gathered. rewrite P1, G1, L1. fold p. rewrite Hg. reflexivity. }
  rewrite (tile_level st blk_pos _ (rgb_to_cr tie rgb) U2 (ConvertSat_range _ _)).
  2:{ unfold gathered. rewrite P2, G2, L2. fold p. rewrite Hg. reflexivity. }
  now apply colour_round_trip.
Qed.

Lemma tile_scatter (st : scratch * surface) (blk_pos : Z * Z) :
  writes_ok (near_input (sample_in sample)) (snd st) (snd (step st blk_pos))
  /\ forall th page, valid_lane th -> 0 <= page < 4 ->
       in_bounds (sample_size sample) (page_offset false false blk_pos th page) = true ->
       holds_at (near_input (sample_in sample)) (page_offset false false blk_pos th page)
         (snd (step st blk_pos)).
Proof.
  apply (scatter_stage_ok tie sample (near_input (sample_in sample)) blk_pos
           (fst (step st blk_pos)) (snd st)).
  intros th page Hth Hp Hb. now apply tile_pixel.
Qed.

End RoundTrip.

(** *** Rotations in place of the transforms *)

Lemma centred_level_bounded (x : float32) : centred_level x -> bounded 129 x.
Proof.
  intros (k & Hk & ->).
  destruct (of_Z_level k Hk) as (Fk & Vk & Bk).
  literal f_128.
  step fsub9 (of_Z k) f_128.
  split; [exact Hf | apply Qabs_Qle_condition; split; lra].
Qed.

Lemma near_refl (x : float32) : is_finite x = true -> near 0 x x.
Proof. intros Hx. split; [exact Hx | ]. apply Qabs_Qle_condition. split; lra. Qed.

Lemma rotations_contract : dct_1d_contract 129 0 0 rotate_left rotate_right.
Proof.
  split; [ | split; [ | split]].
  - intros l Hl. do 9 (destruct l as [| ? l]; try discriminate). reflexivity.
  - intros l [Hl Hall]. do 9 (destruct l as [| ? l]; try discriminate).
    split; [reflexivity | ]. intros k Hk. apply centred_level_bounded.
    do 8 (destruct k as [| k];
          [first [exact (Hall 1%nat ltac:(lia)) | exact (Hall 2%nat ltac:(lia))
                 | exact (Hall 3%nat ltac:(lia)) | exact (Hall 4%nat ltac:(lia))
                 | exact (Hall 5%nat ltac:(lia)) | exact (Hall 6%nat ltac:(lia))
                 | exact (Hall 7%nat ltac:(lia)) | exact (Hall 0%nat ltac:(lia))] | ]).
    lia.
  - intros l [Hl Hall]. do 9 (destruct l as [| ? l]; try discriminate).
    intros k Hk. apply near_refl, (Hall k Hk).
  - intros l y [Hl _] Hy H.
    do 9 (destruct l as [| ? l]; try discriminate).
    do 9 (destruct y as [| ? y]; try discriminate).
    intros k Hk.
    do 8 (destruct k as [| k];
          [first [exact (H 7%nat ltac:(lia)) | exact (H 0%nat ltac:(lia))
                 | exact (H 1%nat ltac:(lia)) | exact (H 2%nat ltac:(lia))
                 | exact (H 3%nat ltac:(lia)) | exact (H 4%nat ltac:(lia))
                 | exact (H 5%nat ltac:(lia)) | exact (H 6%nat ltac:(lia))] | ]).
    lia.
Qed.

(** C3: without subsampling and without quantization, on an input
    whose in-bounds pixels are valid RGB, whenever the 1-D transforms
    of [dct_8x8_gpu.cuh] cancel up to rounding (their contract, with a
    final tolerance below half a level): whatever the kernel writes
    is within one level per channel of the input pixel at that
    position, and every in-bounds pixel of the tile is written. *)
Theorem round_trip_without_quantization (tie : tie_rule) (B delta tol : Q)
    (dct_fwd dct_inv : list float32 -> list float32)
    (sample : SampleDesc) (block : BlockDesc) (s0 : scratch) (out : surface) :
  dct_1d_contract B delta tol dct_fwd dct_inv ->
  (tol <= 499 # 1000)%Q ->
  (forall x y, 0 <= x < fst (sample_size sample) -> 0 <= y < snd (sample_size sample) ->
     valid_rgb (sample_in sample x y) = true) ->
  let out' := JpegCompressionDistortion tie false false false dct_fwd dct_inv 32 16
                sample block s0 out in
  (forall p, out' !! p = out !! p
             \/ exists v, out' !! p = Some v
                          /\ level_dist v (sample_in sample (fst p) (snd p)) <= 1)
  /\ forall x y,
       fst (block_start block) <= x < fst (block_end block) ->
       snd (block_start block) <= y < snd (block_end block) ->
       in_bounds (sample_size sample) (x, y) = true ->
       exists v, out' !! (x, y) = Some v /\ level_dist v (sample_in sample x y) <= 1.
Proof.
  intros Hdct Htol Hvalid out'. split.
  - apply (kernel_ok tie false dct_fwd dct_inv sample (near_input (sample_in sample))).
    intros st blk. now apply (tile_scatter tie dct_fwd dct_inv sample B delta tol).
  - intros x y Hx Hy Hb.
    apply (kernel_covers tie false dct_fwd dct_inv sample (near_input (sample_in sample))
             ltac:(intros st blk; now apply (tile_scatter tie dct_fwd dct_inv sample B delta tol))
             ltac:(intros st blk; now apply (tile_scatter tie dct_fwd dct_inv sample B delta tol))
             block s0 out x y Hx Hy Hb).
Qed.

Lemma round_trip_without_quantization_witness :
  dct_1d_contract 129 0 0 rotate_left rotate_right
  /\ exists v,
       JpegCompressionDistortion TiesEven false false false rotate_left rotate_right 32 16
         (SampleDesc_default TiesAway two_tone (16, 16)) (mk_BlockDesc (0, 0) (16, 16))
         (fun _ => S754_zero false) ∅ !! (0, 7) = Some v
       /\ level_dist v (two_tone 0 7) <= 1.
Proof.
  split; [exact rotations_contract | ].
  apply (round_trip_without_quantization TiesEven 129 0 0 rotate_left rotate_right
           (SampleDesc_default TiesAway two_tone (16, 16))
           (mk_BlockDesc (0, 0) (16, 16)) (fun _ => S754_zero false) ∅).
  - exact rotations_contract.
  - discriminate.
  - intros x y _ _. unfold two_tone. cbn [sample_in SampleDesc_default].
    destruct (x =? 0); reflexivity.
  - cbn. lia.
  - cbn. lia.
  - reflexivity.
Defined.

(** *** Stage 3: which coefficient meets which table entry *)

Ltac kernel_consts :=
  repeat match goal with
         | |- context [chroma_blocks ?h ?v] =>
             let c := eval vm_compute in (chroma_blocks h v) in
             change (chroma_blocks h v) with c
         | |- context [luma_page ?h ?v] =>
             let c := eval vm_compute in (luma_page h v) in change (luma_page h v) with c
         | |- context [horz_luma_blocks ?h] =>
             let c := eval vm_compute in (horz_luma_blocks h) in
             change (horz_luma_blocks h) with c
         | |- context [hs ?h] => let c := eval vm_compute in (hs h) in change (hs h) with c
         | |- context [vs ?v] => let c := eval vm_compute in (vs v) in change (vs v) with c
         | |- context [num_pages ?h ?v] =>
             let c := eval vm_compute in (num_pages h v) in change (num_pages h v) with c
         end;
  change chroma_page with 8; change horz_chroma_blocks with 4.

Lemma owner_cell (h v : bool) (b row col : Z) :
  0 <= row < 8 -> 0 <= col < 8 -> owner h v (cell b row col) = owner_at h v b row col.
Proof.
  intros Hr Hc. unfold owner, cell. f_equal; Z.div_mod_to_equations; lia.
Qed.

Lemma owner_slot_cell (h v : bool) (th : Z * Z) (page : Z) (o : slot) :
  valid_lane th -> 0 <= page < num_pages h v -> valid_slot h v o ->
  owner h v (slot_cell h v th page o) = (th, page, o).
Proof.
  intros [Hx Hy] Hp Ho. destruct th as [tx ty]. cbn [fst snd] in *.
  unfold slot_cell, cb_cell, cr_cell, luma_cell, cb_block, cr_block, luma_block,
    chroma_block_idx, luma_block_idx, chroma_x, chroma_y, luma_x, luma_y, valid_slot in *.
  cbn [fst snd].
  destruct h, v; revert Hp Ho; kernel_consts; intros Hp Ho;
    rewrite ?Z.shiftl_0_r, ?Z.shiftl_mul_pow2, ?land7, ?shiftr3 by lia;
    change (2 ^ 1) with 2.
  all: destruct o as [ | | i j].
  all: rewrite owner_cell by (Z.div_mod_to_equations; lia).
  all: unfold owner_at; kernel_consts; cbv zeta.
  all: match goal with
       | |- context [if ?b <? ?c then _ else _] =>
           destruct (Z.ltb_spec b c); [ | ]
       end.
  all: try (exfalso; Z.div_mod_to_equations; lia).
  all: try match goal with
       | |- context [if ?b <? ?c then _ else _] =>
           destruct (Z.ltb_spec b c); [ | ]
       end.
  all: try (exfalso; Z.div_mod_to_equations; lia).
  all: repeat f_equal; Z.div_mod_to_equations; lia.
Qed.

Lemma slot_cell_inj (h v : bool) (th th' : Z * Z) (page page' : Z) (o o' : slot) :
  valid_lane th -> 0 <= page < num_pages h v -> valid_slot h v o ->
  valid_lane th' -> 0 <= page' < num_pages h v -> valid_slot h v o' ->
  slot_cell h v th page o = slot_cell h v th' page' o' ->
  th = th' /\ page = page' /\ o = o'.
Proof.
  intros Hth Hp Ho Hth' Hp' Ho' E.
  pose proof (owner_slot_cell h v th page o Hth Hp Ho) as H1.
  rewrite E, owner_slot_cell in H1 by assumption.
  injection H1 as -> -> ->. repeat split; reflexivity.
Qed.

Lemma slots_valid (h v : bool) (o : slot) : In o (slots h v) -> valid_slot h v o.
Proof.
  destruct h, v; cbn; intros H;
    repeat (destruct H as [<- | H]; [cbn; try exact I; lia | ]); contradiction.
Qed.

Lemma in_slots (h v : bool) (o : slot) : valid_slot h v o -> In o (slots h v).
Proof.
  destruct o as [ | | i j]; [left; reflexivity | right; left; reflexivity | ].
  intros [Hi Hj]. do 2 right.
  destruct h, v; cbn in *;
    assert (i = 0 \/ i = 1) as [-> | ->] by lia;
    assert (j = 0 \/ j = 1) as [-> | ->] by lia; try lia; vm_compute; auto 10.
Qed.

Lemma slots_NoDup (h v : bool) : List.NoDup (slots h v).
Proof.
  destruct h, v; cbn;
    repeat (constructor; [cbn; intros H; repeat (destruct H as [H | H]; [discriminate | ]);
                          contradiction | ]);
    constructor.
Qed.

Lemma quantize_page_slots (h v : bool) (sample : SampleDesc) (th : Z * Z) (s : scratch)
    (page : Z) :
  quantize_page h v sample th s page
  = fold_left (fun s o => store s (slot_cell h v th page o)
                            (quantize (s (slot_cell h v th page o)) (slot_q h v sample th o)))
              (slots h v) s.
Proof. destruct h, v; reflexivity. Qed.

Section QuantizeStage.

Variables h v : bool.
Variable sample : SampleDesc.

Lemma in_pages (page : Z) : In page (pages h v) <-> 0 <= page < num_pages h v.
Proof. apply in_range_iff. Qed.

Lemma quantize_page_own (th : Z * Z) (page : Z) (a : scratch) (o : slot) :
  valid_lane th -> 0 <= page < num_pages h v -> valid_slot h v o ->
  quantize_page h v sample th a page (slot_cell h v th page o)
  = quantize (a (slot_cell h v th page o)) (slot_q h v sample th o).
Proof.
  intros Hth Hp Ho. rewrite quantize_page_slots.
  set (c := slot_cell h v th page o).
  apply (fold_left_once _ (fun a' : scratch => a' c = a c)
           (fun a' : scratch => a' c = quantize (a c) (slot_q h v sample th o))
           (slots h v) o (slots_NoDup h v) (in_slots h v o Ho)); [ | | | reflexivity].
  - intros a' y Hy Hne Ha'. rewrite store_other; [exact Ha' | ].
    intros E. apply Hne. symmetry.
    now apply (slot_cell_inj h v th th page page o y Hth Hp Ho Hth Hp (slots_valid h v y Hy)).
  - intros a' Ha'. fold c. now rewrite store_same, Ha'.
  - intros a' y Hy Hne Ha'. rewrite store_other; [exact Ha' | ].
    intros E. apply Hne. symmetry.
    now apply (slot_cell_inj h v th th page page o y Hth Hp Ho Hth Hp (slots_valid h v y Hy)).
Qed.

Lemma quantize_page_other (th : Z * Z) (page : Z) (a : scratch) (n : Z) :
  (forall o, valid_slot h v o -> n <> slot_cell h v th page o) ->
  quantize_page h v sample th a page n = a n.
Proof.
  intros Hn. rewrite quantize_page_slots.
  apply (fold_left_keeps (fun a' : scratch => a' n = a n)); [ | reflexivity].
  intros a' o Ho Ha'. rewrite store_other; [exact Ha' | ]. now apply Hn, slots_valid.
Qed.

Lemma quantize_stage_own (s : scratch) (th : Z * Z) (page : Z) (o : slot) :
  valid_lane th -> 0 <= page < num_pages h v -> valid_slot h v o ->
  quantize_stage h v true 32 16 sample s (slot_cell h v th page o)
  = quantize (s (slot_cell h v th page o)) (slot_q h v sample th o).
Proof.
  intros Hth Hp Ho. unfold quantize_stage.
  set (c := slot_cell h v th page o).
  assert (forall th' page' a, In th' (threads 32 16) -> In page' (pages h v) ->
            (th', page') <> (th, page) ->
            quantize_page h v sample th' a page' c = a c) as Hother.
  { intros th' page' a Hth' Hp' Hne. apply in_threads in Hth'. apply in_pages in Hp'.
    apply quantize_page_other. intros o' Ho' E. apply Hne.
    destruct (slot_cell_inj h v th th' page page' o o' Hth Hp Ho Hth' Hp' Ho' E)
      as (-> & -> & _). reflexivity. }
  apply (fold_left_once _ (fun a : scratch => a c = s c)
           (fun a : scratch => a c = quantize (s c) (slot_q h v sample th o))
           (threads 32 16) th (threads_NoDup 32 16)); [ | | | | reflexivity].
  - now apply in_threads.
  - intros a th' Hth' Hne Ha. unfold quantize_thread.
    apply (fold_left_keeps (fun a' : scratch => a' c = s c)); [ | exact Ha].
    intros a' page' Hp' Ha'. rewrite Hother; [exact Ha' | exact Hth' | exact Hp' | ].
    intros E. apply Hne. now injection E.
  - intros a Ha. unfold quantize_thread.
    apply (fold_left_once _ (fun a' : scratch => a' c = s c)
             (fun a' : scratch => a' c = quantize (s c) (slot_q h v sample th o))
             (pages h v) page (range_NoDup _)); [ | | | | exact Ha].
    + now apply in_pages.
    + intros a' page' Hp' Hne Ha'. rewrite Hother; [exact Ha' | now apply in_threads | exact Hp' | ].
      intros E. apply Hne. now injection E.
    + intros a' Ha'. unfold c. rewrite quantize_page_own by assumption. fold c. now rewrite Ha'.
    + intros a' page' Hp' Hne Ha'. rewrite Hother; [exact Ha' | now apply in_threads | exact Hp' | ].
      intros E. apply Hne. now injection E.
  - intros a th' Hth' Hne Ha. unfold quantize_thread.
    apply (fold_left_keeps
             (fun a' : scratch => a' c = quantize (s c) (slot_q h v sample th o)));
      [ | exact Ha].
    intros a' page' Hp' Ha'. rewrite Hother; [exact Ha' | exact Hth' | exact Hp' | ].
    intros E. apply Hne. now injection E.
Qed.

End QuantizeStage.

(** C2 (as stated, refuted): for the coefficient 1000.49993896484375
    and the table entry 3, the exact quotient 333.49997... rounds to
    333, so the stated result is 999; the code multiplies by the
    binary32 reciprocal of 3, gets exactly 333.5 in binary32, and
    returns 1002. *)
Lemma quantize_near_half_way :
  is_finite (S754_finite false 16392191 (-14)) = true /\
  (to_Q (S754_finite false 16392191 (-14)) == 16392191 # 16384)%Q /\
  (to_Q (quantize (S754_finite false 16392191 (-14)) (of_Z 3)) == 1002)%Q /\
  (spec_quantize TiesAway (to_Q (S754_finite false 16392191 (-14))) 3 == 999)%Q /\
  (spec_quantize TiesEven (to_Q (S754_finite false 16392191 (-14))) 3 == 999)%Q.
Proof. repeat split; vm_compute; reflexivity. Qed.

(** C2 (amended): [quantize], for a finite coefficient [val] below
    [2^E] in magnitude ([E <= 15]) and a table entry [Qc] in [0,255],
    returns exactly [Q' * n] for an integer [n] with
    [|n - val / Q'| <= 1/2 + 2^(E-24)], where [Q'] is [Qc], or 1 when
    [Qc] is 0: the nearest integer to the quotient except within
    [2^(E-24)] of a half-way point.  In the kernel, with quantization
    enabled, the Cb and Cr elements of a lane at (row, col) of their
    blocks are replaced by their [quantize] against the chroma table
    entry at (row, col), and every luma element of the lane by its
    [quantize] against the luma table entry at its (row, col); with
    quantization disabled the stage changes nothing. *)
Theorem quantize_to_grid (val : float32) (Qc E : Z) (h v : bool) (sample : SampleDesc)
    (s : scratch) (th : Z * Z) (page : Z) :
  is_finite val = true -> 0 <= Qc <= 255 -> -100 <= E <= 15 ->
  (Qabs (to_Q val) < 2 ^ E)%Q ->
  valid_lane th -> 0 <= page < num_pages h v ->
  (exists n : Z,
      is_finite (quantize val (of_Z Qc)) = true
      /\ (to_Q (quantize val (of_Z Qc)) == inject_Z (Z.max Qc 1) * inject_Z n)%Q
      /\ (Qabs (inject_Z n - to_Q val / inject_Z (Z.max Qc 1)) <= (1 # 2) + 2 ^ (E - 24))%Q)
  /\ (let s' := quantize_stage h v true 32 16 sample s in
      let row := chroma_y th in
      let col := chroma_x th in
      let chroma_entry := mat_get (chroma_Q_table sample) (Z.to_nat row) (Z.to_nat col) in
      s' (cell (cb_block th page) row col)
        = quantize (s (cell (cb_block th page) row col)) (of_Z chroma_entry)
      /\ s' (cell (cr_block h v th page) row col)
        = quantize (s (cell (cr_block h v th page) row col)) (of_Z chroma_entry)
      /\ forall i j, 0 <= i <= vs v -> 0 <= j <= hs h ->
           let row := luma_y v th + i in
           let col := luma_x h th + j in
           s' (cell (luma_block h v th page) row col)
           = quantize (s (cell (luma_block h v th page) row col))
               (of_Z (mat_get (luma_Q_table sample) (Z.to_nat row) (Z.to_nat col))))
  /\ quantize_stage h v false 32 16 sample s = s.
Proof.
  intros Hf HQ HE Hv Hth Hp. split; [ | split; [ | reflexivity]].
  - destruct (quantize_grid val Qc E Hf HQ HE Hv) as (H1 & H2 & H3).
    eexists. split; [exact H1 | split; [exact H2 | exact H3]].
  - cbv zeta. split; [ | split].
    + exact (quantize_stage_own h v sample s th page SCb Hth Hp I).
    + exact (quantize_stage_own h v sample s th page SCr Hth Hp I).
    + intros i j Hi Hj.
      exact (quantize_stage_own h v sample s th page (SLuma i j) Hth Hp (conj Hi Hj)).
Qed.

Lemma quantize_to_grid_witness :
  let val := S754_finite false 16392191 (-14) in
  let sample := SampleDesc_default TiesAway two_tone (16, 16) in
  let s : scratch := fun n => of_Z n in
  (exists n : Z,
      is_finite (quantize val (of_Z 3)) = true
      /\ (to_Q (quantize val (of_Z 3)) == inject_Z (Z.max 3 1) * inject_Z n)%Q
      /\ (Qabs (inject_Z n - to_Q val / inject_Z (Z.max 3 1)) <= (1 # 2) + 2 ^ (10 - 24))%Q)
  /\ (let s' := quantize_stage true false true 32 16 sample s in
      let row := chroma_y (3, 5) in
      let col := chroma_x (3, 5) in
      let chroma_entry := mat_get (chroma_Q_table sample) (Z.to_nat row) (Z.to_nat col) in
      s' (cell (cb_block (3, 5) 1) row col)
        = quantize (s (cell (cb_block (3, 5) 1) row col)) (of_Z chroma_entry)
      /\ s' (cell (cr_block true false (3, 5) 1) row col)
        = quantize (s (cell (cr_block true false (3, 5) 1) row col)) (of_Z chroma_entry)
      /\ forall i j, 0 <= i <= vs false -> 0 <= j <= hs true ->
           let row := luma_y false (3, 5) + i in
           let col := luma_x true (3, 5) + j in
           s' (cell (luma_block true false (3, 5) 1) row col)
           = quantize (s (cell (luma_block true false (3, 5) 1) row col))
               (of_Z (mat_get (luma_Q_table sample) (Z.to_nat row) (Z.to_nat col))))
  /\ quantize_stage true false false 32 16 sample s = s.
Proof.
  apply (quantize_to_grid (S754_finite false 16392191 (-14)) 3 10 true false
           (SampleDesc_default TiesAway two_tone (16, 16)) (fun n => of_Z n) (3, 5) 1).
  - reflexivity.
  - lia.
  - lia.
  - vm_compute. reflexivity.
  - unfold valid_lane. cbn. lia.
  - change (num_pages true false) with 3. lia.
Defined.

(** ** Further properties of the table builders *)

Lemma scales_checked : forallb scale_check qualities = true.
Proof. vm_compute. reflexivity. Qed.

Lemma scale_checked (q : Z) : 1 <= q <= 99 -> scale_check q = true.
Proof.
  intros Hq. pose proof scales_checked as H. rewrite forallb_forall in H.
  now apply H, in_qualities.
Qed.

Lemma negb_Qle_bool (a b : Q) : negb (Qle_bool a b) = true -> (b < a)%Q.
Proof.
  intros H. apply negb_true_iff in H. apply Qnot_le_lt. intros Hle.
  apply Qle_bool_iff in Hle. congruence.
Qed.

Lemma scale_facts (q : Z) :
  1 <= q <= 99 ->
  let a := GetQualityFactorScale q in
  is_finite a = true /\ (0 < to_Q a <= 50)%Q
  /\ (50 <= q -> (to_Q a <= 1)%Q) /\ (q < 50 -> (1 < to_Q a)%Q)
  /\ (q < 99 -> (to_Q (GetQualityFactorScale (q + 1)) < to_Q a)%Q).
Proof.
  intros Hq a. pose proof (scale_checked q Hq) as H. unfold scale_check in H. fold a in H.
  apply andb_prop in H as [H H5]. apply andb_prop in H as [H H4].
  apply andb_prop in H as [H H3]. apply andb_prop in H as [H1 H2].
  apply negb_Qle_bool in H2. apply Qle_bool_iff in H3.
  split; [exact H1 | split; [split; assumption | ]].
  destruct (Z.leb_spec 50 q) as [Hge | Hlt].
  - apply Qle_bool_iff in H4. split; [intros _; exact H4 | split; [lia | ]].
    intros Hq'. destruct (Z.leb_spec 99 q); [lia | ]. now apply negb_Qle_bool.
  - apply negb_Qle_bool in H4. split; [lia | split; [intros _; exact H4 | ]].
    intros Hq'. destruct (Z.leb_spec 99 q); [lia | ]. now apply negb_Qle_bool.
Qed.

Lemma scale_steps (n : nat) : forall q,
  1 <= q -> q + Z.of_nat (S n) <= 99 ->
  (to_Q (GetQualityFactorScale (q + Z.of_nat (S n))) < to_Q (GetQualityFactorScale q))%Q.
Proof.
  induction n as [| n IH]; intros q Hq Hn.
  - apply (scale_facts q); lia.
  - apply Qlt_trans with (to_Q (GetQualityFactorScale (q + Z.of_nat (S n)))).
    + replace (q + Z.of_nat (S (S n))) with (q + Z.of_nat (S n) + 1) by lia.
      apply (scale_facts (q + Z.of_nat (S n))); lia.
    + apply IH; lia.
Qed.

(** X1: [GetQualityFactorScale] returns a finite factor in (0, 50] for
    every integer quality; the factor is at most 1 exactly from quality
    50 on; it never grows with the quality, and strictly shrinks
    between two qualities of [1,99]. *)
Theorem quality_scale_decreases (q1 q2 : Z) :
  q1 <= q2 ->
  let s1 := GetQualityFactorScale q1 in
  let s2 := GetQualityFactorScale q2 in
  is_finite s1 = true /\ (0 < to_Q s1 <= 50)%Q
  /\ ((to_Q s1 <= 1)%Q <-> 50 <= q1)
  /\ (to_Q s2 <= to_Q s1)%Q
  /\ (1 <= q1 -> q1 < q2 -> q2 <= 99 -> (to_Q s2 < to_Q s1)%Q).
Proof.
  intros Hle s1 s2. unfold s1, s2.
  assert (forall a b, 1 <= a -> a < b -> b <= 99 ->
            (to_Q (GetQualityFactorScale b) < to_Q (GetQualityFactorScale a))%Q) as Hstrict.
  { intros a b Ha Hab Hb. pose proof (scale_steps (Z.to_nat (b - a - 1)) a Ha) as H.
    replace (a + Z.of_nat (S (Z.to_nat (b - a - 1)))) with b in H by lia. apply H. lia. }
  rewrite <- (scale_clamp q1), <- (scale_clamp q2).
  pose proof (clamp_bounds q1 1 99 ltac:(lia)) as B1.
  pose proof (clamp_bounds q2 1 99 ltac:(lia)) as B2.
  destruct (scale_facts (clamp q1 1 99) B1) as (Hf & Hr & Hge & Hlt & _).
  split; [exact Hf | split; [exact Hr | split; [ | split]]].
  - split.
    + intros H1. destruct (Z.lt_ge_cases (clamp q1 1 99) 50) as [Hc | Hc].
      * apply Hlt in Hc. exfalso. apply (Qlt_irrefl 1). eapply Qlt_le_trans; eassumption.
      * unfold clamp in Hc. lia.
    + intros H1. apply Hge. unfold clamp. lia.
  - destruct (Z.eq_dec (clamp q1 1 99) (clamp q2 1 99)) as [-> | Hne]; [apply Qle_refl | ].
    apply Qlt_le_weak, Hstrict; unfold clamp in *; lia.
  - intros H1 H12 H2. rewrite !scale_clamp. now apply Hstrict.
Qed.

Lemma quality_scale_decreases_witness :
  (to_Q (GetQualityFactorScale 90) < to_Q (GetQualityFactorScale 10))%Q.
Proof. apply (quality_scale_decreases 10 90); lia. Defined.

Lemma anchor_tables_checked : anchor_tables_check = true.
Proof. vm_compute. reflexivity. Qed.

Lemma anchor_tables (t : tie_rule) :
  GetLumaQuantizationTable t 50 = luma_base
  /\ GetChromaQuantizationTable t 50 = chroma_base
  /\ GetLumaQuantizationTable t 1 = const_table 255
  /\ GetChromaQuantizationTable t 1 = const_table 255.
Proof.
  pose proof anchor_tables_checked as H. unfold anchor_tables_check in H.
  rewrite forallb_forall in H.
  specialize (H t ltac:(destruct t; [left | right; left]; reflexivity)).
  apply andb_prop in H as [H H4]. apply andb_prop in H as [H H3].
  apply andb_prop in H as [H1 H2].
  repeat split; now apply mat_eqb_spec.
Qed.

Lemma const_table_get (c : Z) (i j : nat) :
  (i < 8)%nat -> (j < 8)%nat -> mat_get (const_table c) i j = c.
Proof.
  intros Hi Hj. unfold mat_get, const_table.
  do 8 (destruct i as [| i]; [do 8 (destruct j as [| j]; [reflexivity | ]); lia | ]). lia.
Qed.

Lemma tables_ordered (t : tie_rule) (q1 q2 : Z) (i j : nat) :
  1 <= q1 -> q1 <= q2 -> q2 <= 99 -> (i < 8)%nat -> (j < 8)%nat ->
  mat_get (GetLumaQuantizationTable t q2) i j <= mat_get (GetLumaQuantizationTable t q1) i j
  /\ mat_get (GetChromaQuantizationTable t q2) i j
     <= mat_get (GetChromaQuantizationTable t q1) i j.
Proof.
  intros H1 H12 H2 Hi Hj.
  pose proof (tables_steps t i j (Z.to_nat (q2 - q1)) q1 H1) as H.
  replace (q1 + Z.of_nat (Z.to_nat (q2 - q1))) with q2 in H by lia. apply H; lia.
Qed.

(** X2: the tables of quality 50 are the Annex K base tables; from
    quality 50 upwards no entry exceeds its base entry, up to quality
    50 no entry is below it; and for every quality up to 1 (the clamp
    included) all entries are saturated at 255. *)
Theorem tables_against_base (t : tie_rule) (q : Z) (i j : nat) :
  (i < 8)%nat -> (j < 8)%nat ->
  let l := mat_get (GetLumaQuantizationTable t q) i j in
  let c := mat_get (GetChromaQuantizationTable t q) i j in
  (50 <= q -> l <= mat_get luma_base i j /\ c <= mat_get chroma_base i j)
  /\ (q <= 50 -> mat_get luma_base i j <= l /\ mat_get chroma_base i j <= c)
  /\ (q <= 1 -> l = 255 /\ c = 255).
Proof.
  intros Hi Hj l c. unfold l, c.
  destruct (anchor_tables t) as (L50 & C50 & L1 & C1).
  rewrite <- (luma_clamp t q), <- (chroma_clamp t q).
  pose proof (clamp_bounds q 1 99 ltac:(lia)) as B.
  split; [ | split].
  - intros Hq. rewrite <- L50, <- C50.
    apply tables_ordered; try assumption; unfold clamp; lia.
  - intros Hq. rewrite <- L50, <- C50.
    apply tables_ordered; try assumption; unfold clamp; lia.
  - intros Hq. replace (clamp q 1 99) with 1 by (unfold clamp; lia).
    rewrite L1, C1, !const_table_get by assumption. split; reflexivity.
Qed.

Lemma tables_against_base_witness :
  mat_get (GetLumaQuantizationTable TiesAway 75) 0 0 <= mat_get luma_base 0 0
  /\ mat_get (GetChromaQuantizationTable TiesAway 75) 0 0 <= mat_get chroma_base 0 0.
Proof. apply (tables_against_base TiesAway 75 0 0); lia. Defined.

(** ** Further properties of the colour transforms *)

Lemma neutral_checked (tie : tie_rule) : forallb (neutral_check tie) (range 256) = true.
Proof. destruct tie; vm_compute; reflexivity. Qed.

Lemma avg_near_checked (tie : tie_rule) : forallb (avg_near_check tie) sums4 = true.
Proof. destruct tie; vm_compute; reflexivity. Qed.

(** X3: for every pixel of 8-bit channels, [rgb_to_y], [rgb_to_cb]
    and [rgb_to_cr] return a level in [0,255] within 0.501 of the exact
    value of the BT.601 formula they implement. *)
Theorem colour_transform_accuracy (tie : tie_rule) (rgb : vec3) :
  valid_rgb rgb = true ->
  let r := inject_Z (vx rgb) in
  let g := inject_Z (vy rgb) in
  let b := inject_Z (vz rgb) in
  (0 <= rgb_to_y tie rgb <= 255
   /\ (Qabs (inject_Z (rgb_to_y tie rgb)
             - ((299 # 1000) * r + (587 # 1000) * g + (114 # 1000) * b)) <= 501 # 1000)%Q)
  /\ (0 <= rgb_to_cb tie rgb <= 255
      /\ (Qabs (inject_Z (rgb_to_cb tie rgb)
                - (- (16873589 # 100000000) * r - (33126411 # 100000000) * g
                   + (1 # 2) * b + 128)) <= 501 # 1000)%Q)
  /\ (0 <= rgb_to_cr tie rgb <= 255
      /\ (Qabs (inject_Z (rgb_to_cr tie rgb)
                - ((1 # 2) * r - (41868759 # 100000000) * g
                   - (8131241 # 100000000) * b + 128)) <= 501 # 1000)%Q).
Proof.
  intros Hv r g b.
  destruct (rgb_to_y_error tie rgb Hv) as [Ry Ey].
  destruct (rgb_to_cb_error tie rgb Hv) as [Rb Eb].
  destruct (rgb_to_cr_error tie rgb Hv) as [Rr Er].
  subst r g b.
  split; [split; [exact Ry | apply Qabs_Qle_condition; exact Ey] | ].
  split; [split; [exact Rb | apply Qabs_Qle_condition; exact Eb] | ].
  split; [exact Rr | apply Qabs_Qle_condition; exact Er].
Qed.

Lemma colour_transform_accuracy_witness :
  0 <= rgb_to_y TiesEven (mk_vec3 200 100 50) <= 255
  /\ (Qabs (inject_Z (rgb_to_y TiesEven (mk_vec3 200 100 50))
            - ((299 # 1000) * inject_Z 200 + (587 # 1000) * inject_Z 100
               + (114 # 1000) * inject_Z 50)) <= 501 # 1000)%Q.
Proof. apply (colour_transform_accuracy TiesEven (mk_vec3 200 100 50)). reflexivity. Defined.

Lemma level_dist_channels (a b : vec3) :
  level_dist a b <= 1 ->
  Z.abs (vx a - vx b) <= 1 /\ Z.abs (vy a - vy b) <= 1 /\ Z.abs (vz a - vz b) <= 1.
Proof. unfold level_dist. lia. Qed.

(** X4: converting a pixel of 8-bit channels to (Y, Cb, Cr) with
    [rgb_to_y], [rgb_to_cb], [rgb_to_cr] and back with [ycbcr_to_rgb]
    changes no channel by more than one level. *)
Theorem rgb_ycbcr_rgb_one_level (tie : tie_rule) (rgb : vec3) :
  valid_rgb rgb = true ->
  let back := ycbcr_to_rgb tie
                (mk_vec3 (rgb_to_y tie rgb) (rgb_to_cb tie rgb) (rgb_to_cr tie rgb)) in
  Z.abs (vx back - vx rgb) <= 1 /\ Z.abs (vy back - vy rgb) <= 1
  /\ Z.abs (vz back - vz rgb) <= 1.
Proof.
  intros Hv back. apply level_dist_channels. exact (colour_round_trip tie rgb Hv).
Qed.

Lemma rgb_ycbcr_rgb_one_level_witness :
  let rgb := mk_vec3 255 0 77 in
  let back := ycbcr_to_rgb TiesAway
                (mk_vec3 (rgb_to_y TiesAway rgb) (rgb_to_cb TiesAway rgb)
                         (rgb_to_cr TiesAway rgb)) in
  Z.abs (vx back - vx rgb) <= 1 /\ Z.abs (vy back - vy rgb) <= 1
  /\ Z.abs (vz back - vz rgb) <= 1.
Proof. apply (rgb_ycbcr_rgb_one_level TiesAway (mk_vec3 255 0 77)). reflexivity. Defined.

(** X5: a neutral pixel [(c, c, c)], [0 <= c <= 255], has luma exactly
    [c] and chroma exactly (128, 128), and [ycbcr_to_rgb] maps
    [(c, 128, 128)] back to [(c, c, c)] exactly: grays pass through the
    colour transforms unchanged. *)
Theorem neutral_axis_exact (tie : tie_rule) (c : Z) :
  0 <= c <= 255 ->
  rgb_to_y tie (mk_vec3 c c c) = c
  /\ rgb_to_cb tie (mk_vec3 c c c) = 128
  /\ rgb_to_cr tie (mk_vec3 c c c) = 128
  /\ ycbcr_to_rgb tie (mk_vec3 c 128 128) = mk_vec3 c c c.
Proof.
  intros Hc. pose proof (neutral_checked tie) as H. rewrite forallb_forall in H.
  specialize (H c (in_range 256 c ltac:(lia))). unfold neutral_check in H.
  apply andb_prop in H as [H H4]. apply andb_prop in H as [H H3].
  apply andb_prop in H as [H1 H2]. apply Z.eqb_eq in H1, H2, H3.
  cbv zeta in H4. apply andb_prop in H4 as [H4 H7]. apply andb_prop in H4 as [H5 H6].
  apply Z.eqb_eq in H5, H6, H7.
  split; [exact H1 | split; [exact H2 | split; [exact H3 | ]]].
  rewrite <- (vec3_eta (ycbcr_to_rgb tie (mk_vec3 c 128 128))). now rewrite H5, H6, H7.
Qed.

Lemma neutral_axis_exact_witness :
  rgb_to_y TiesEven (mk_vec3 37 37 37) = 37
  /\ rgb_to_cb TiesEven (mk_vec3 37 37 37) = 128
  /\ rgb_to_cr TiesEven (mk_vec3 37 37 37) = 128
  /\ ycbcr_to_rgb TiesEven (mk_vec3 37 128 128) = mk_vec3 37 37 37.
Proof. apply (neutral_axis_exact TiesEven 37). lia. Defined.

Lemma avg_near (tie : tie_rule) (s : Z) :
  0 <= s <= 1020 ->
  Z.abs (4 * ConvertSat tie (fmul (of_Z s) f_0_25) - s) <= 2
  /\ (s <= 510 -> Z.abs (2 * ConvertSat tie (fmul (of_Z s) f_0_5) - s) <= 1).
Proof.
  intros Hs. pose proof (avg_near_checked tie) as H. rewrite forallb_forall in H.
  specialize (H s (in_range 1021 s ltac:(lia))). unfold avg_near_check in H.
  cbv zeta in H. apply andb_prop in H as [H4 H2]. apply Z.leb_le in H4.
  split; [exact H4 | ]. intros Hs2. apply orb_prop in H2 as [H2 | H2].
  - apply Z.ltb_lt in H2. lia.
  - now apply Z.leb_le in H2.
Qed.

Lemma avg4_channel (tie : tie_rule) (p q r s : Z) :
  0 <= p <= 255 -> 0 <= q <= 255 -> 0 <= r <= 255 -> 0 <= s <= 255 ->
  Z.min (Z.min p q) (Z.min r s)
  <= ConvertSat tie (fmul (of_Z (p + q + r + s)) f_0_25)
  <= Z.max (Z.max p q) (Z.max r s).
Proof.
  intros Hp Hq Hr Hs. destruct (avg_near tie (p + q + r + s)) as [H _]; [lia | ].
  set (m := ConvertSat tie _) in *. clearbody m. lia.
Qed.

Lemma avg2_channel (tie : tie_rule) (p q : Z) :
  0 <= p <= 255 -> 0 <= q <= 255 ->
  Z.min p q <= ConvertSat tie (fmul (of_Z (p + q)) f_0_5) <= Z.max p q.
Proof.
  intros Hp Hq. destruct (avg_near tie (p + q)) as [_ H]; [lia | ].
  specialize (H ltac:(lia)). set (m := ConvertSat tie _) in *. clearbody m. lia.
Qed.

Lemma valid_rgb_spec (p : vec3) :
  valid_rgb p = true -> 0 <= vx p <= 255 /\ 0 <= vy p <= 255 /\ 0 <= vz p <= 255.
Proof.
  unfold valid_rgb. intros H. apply andb_prop in H as [H Hz]. apply andb_prop in H as [Hx Hy].
  apply valid_channel_spec in Hx, Hy, Hz. tauto.
Qed.

Lemma avg2_same (tie : tie_rule) (a : vec3) : valid_rgb a = true -> avg2 tie a a = a.
Proof.
  intros Ha. apply valid_rgb_spec in Ha as (Hx & Hy & Hz).
  pose proof (avg2_channel tie (vx a) (vx a) Hx Hx) as Ex.
  pose proof (avg2_channel tie (vy a) (vy a) Hy Hy) as Ey.
  pose proof (avg2_channel tie (vz a) (vz a) Hz Hz) as Ez.
  rewrite Z.min_id, Z.max_id in Ex, Ey, Ez.
  unfold avg2. rewrite <- (vec3_eta a) at 7. f_equal; apply Z.le_antisymm; tauto.
Qed.

Lemma avg4_same (tie : tie_rule) (a : vec3) : valid_rgb a = true -> avg4 tie a a a a = a.
Proof.
  intros Ha. apply valid_rgb_spec in Ha as (Hx & Hy & Hz).
  pose proof (avg4_channel tie (vx a) (vx a) (vx a) (vx a) Hx Hx Hx Hx) as Ex.
  pose proof (avg4_channel tie (vy a) (vy a) (vy a) (vy a) Hy Hy Hy Hy) as Ey.
  pose proof (avg4_channel tie (vz a) (vz a) (vz a) (vz a) Hz Hz Hz Hz) as Ez.
  rewrite !Z.min_id, !Z.max_id in Ex, Ey, Ez.
  unfold avg4. rewrite <- (vec3_eta a) at 13. f_equal; apply Z.le_antisymm; tauto.
Qed.

(** X6: on pixels of 8-bit channels, every channel of [avg4] (of
    [avg2]) lies between the smallest and the largest of the four (two)
    input values of that channel; in particular the average of equal
    pixels is that pixel. *)
Theorem avg_within_inputs (tie : tie_rule) (a b c d : vec3) (f : vec3 -> Z) :
  valid_rgb a = true -> valid_rgb b = true -> valid_rgb c = true -> valid_rgb d = true ->
  In f channels ->
  (Z.min (Z.min (f a) (f b)) (Z.min (f c) (f d))
   <= f (avg4 tie a b c d) <= Z.max (Z.max (f a) (f b)) (Z.max (f c) (f d)))
  /\ Z.min (f a) (f b) <= f (avg2 tie a b) <= Z.max (f a) (f b)
  /\ avg4 tie a a a a = a /\ avg2 tie a a = a.
Proof.
  intros Ha Hb Hc Hd Hf.
  split; [ | split; [ | split; [now apply avg4_same | now apply avg2_same]]].
  - apply valid_rgb_spec in Ha as (Ax & Ay & Az). apply valid_rgb_spec in Hb as (Bx & By & Bz).
    apply valid_rgb_spec in Hc as (Cx & Cy & Cz). apply valid_rgb_spec in Hd as (Dx & Dy & Dz).
    destruct Hf as [<- | [<- | [<- | []]]]; unfold avg4; cbn [vx vy vz];
      now apply avg4_channel.
  - apply valid_rgb_spec in Ha as (Ax & Ay & Az). apply valid_rgb_spec in Hb as (Bx & By & Bz).
    destruct Hf as [<- | [<- | [<- | []]]]; unfold avg2; cbn [vx vy vz];
      now apply avg2_channel.
Qed.

Lemma avg_within_inputs_witness :
  Z.min (Z.min 1 2) (Z.min 2 255) <= vx (avg4 TiesAway (mk_vec3 1 0 0) (mk_vec3 2 0 0)
                                          (mk_vec3 2 9 9) (mk_vec3 255 0 7))
  <= Z.max (Z.max 1 2) (Z.max 2 255).
Proof.
  apply (avg_within_inputs TiesAway (mk_vec3 1 0 0) (mk_vec3 2 0 0) (mk_vec3 2 9 9)
           (mk_vec3 255 0 7) vx); try reflexivity. left. reflexivity.
Defined.

(** ** Further properties of the subsampling helpers *)

Lemma flat_group_eq (tie : tie_rule) (h v : bool) (offset : ivec2) (img : image)
    (size : ivec2) (c : vec3) :
  valid_rgb c = true ->
  (forall p, In p (sampled_pixels h v offset img size) -> p = c) ->
  rgb_to_ycbcr_subsampled tie h v offset img size
  = {| luma := repeat (rgb_to_y tie c) (Z.to_nat (kLumaLen h v));
       cb := rgb_to_cb tie c; cr := rgb_to_cr tie c |}.
Proof.
  intros Hc Hall. destruct offset as [x y]. unfold sampled_pixels in Hall.
  rewrite group_positions_cases in Hall.
  unfold rgb_to_ycbcr_subsampled, sampler, rgb_to_cb_cr. cbn [fst snd].
  destruct h, v; cbn [andb map fst snd] in *;
    repeat match goal with
           | |- context [img ?a ?b] =>
               rewrite (Hall (img a b)) by (cbn [In]; tauto)
           end;
    rewrite ?avg4_same, ?avg2_same by exact Hc; reflexivity.
Qed.

(** X7: when all the input pixels a group is computed from are one and
    the same pixel [c] of 8-bit channels, the group carries the luma of
    [c] at every position and exactly the chroma of [c]: averaging
    leaves flat regions untouched. *)
Theorem flat_group_keeps_chroma (tie : tie_rule) (h v : bool) (offset : ivec2) (img : image)
    (size : ivec2) (c : vec3) :
  valid_rgb c = true ->
  (forall p, In p (sampled_pixels h v offset img size) -> p = c) ->
  let g := rgb_to_ycbcr_subsampled tie h v offset img size in
  luma g = repeat (rgb_to_y tie c) (Z.to_nat (kLumaLen h v))
  /\ cb g = rgb_to_cb tie c /\ cr g = rgb_to_cr tie c.
Proof.
  intros Hc Hall g. unfold g. rewrite (flat_group_eq tie h v offset img size c Hc Hall).
  repeat split; reflexivity.
Qed.

Lemma flat_group_keeps_chroma_witness :
  let g := rgb_to_ycbcr_subsampled TiesEven true true (1, 1) two_tone (4, 4) in
  luma g = repeat (rgb_to_y TiesEven (mk_vec3 0 0 255)) (Z.to_nat (kLumaLen true true))
  /\ cb g = rgb_to_cb TiesEven (mk_vec3 0 0 255)
  /\ cr g = rgb_to_cr TiesEven (mk_vec3 0 0 255).
Proof.
  apply (flat_group_keeps_chroma TiesEven true true (1, 1) two_tone (4, 4) (mk_vec3 0 0 255)).
  - reflexivity.
  - intros p Hp. vm_compute in Hp. repeat (destruct Hp as [<- | Hp]; [reflexivity | ]).
    contradiction.
Defined.

(** X8: a group anchored on the last column (when subsampling
    horizontally) and on the last row (when subsampling vertically) of
    the image reads its missing neighbours from the border pixel
    itself, so it carries the luma and exactly the chroma of that one
    pixel. *)
Theorem group_at_far_border (tie : tie_rule) (h v : bool) (img : image) (w ht x y : Z) :
  0 <= x < w -> 0 <= y < ht ->
  (h = true -> x = w - 1) -> (v = true -> y = ht - 1) ->
  valid_rgb (img x y) = true ->
  rgb_to_ycbcr_subsampled tie h v (x, y) img (w, ht)
  = {| luma := repeat (rgb_to_y tie (img x y)) (Z.to_nat (kLumaLen h v));
       cb := rgb_to_cb tie (img x y); cr := rgb_to_cr tie (img x y) |}.
Proof.
  intros Hx Hy Hh Hv Hc. apply flat_group_eq; [exact Hc | ].
  unfold sampled_pixels. rewrite group_positions_cases. cbn [fst snd].
  intros p Hp.
  destruct h, v; cbn [andb map fst snd In] in Hp;
    try specialize (Hh eq_refl); try specialize (Hv eq_refl);
    repeat (destruct Hp as [<- | Hp]; [unfold clamp; f_equal; lia | ]); contradiction.
Qed.

Lemma group_at_far_border_witness :
  rgb_to_ycbcr_subsampled TiesAway true false (0, 2) two_tone (1, 4)
  = {| luma := repeat (rgb_to_y TiesAway (two_tone 0 2)) (Z.to_nat (kLumaLen true false));
       cb := rgb_to_cb TiesAway (two_tone 0 2); cr := rgb_to_cr TiesAway (two_tone 0 2) |}.
Proof.
  apply (group_at_far_border TiesAway true false two_tone 1 4 0 2);
    first [lia | reflexivity | discriminate].
Defined.

(** X9: [ycbcr_to_rgb_subsampled] changes the output at no position
    other than the 1, 2 or 4 positions of its group, and at none that
    lies outside the image (negative coordinates included). *)
Theorem group_write_frame (tie : tie_rule) (h v : bool) (offset size : ivec2)
    (out : surface) (g : YCbCrSubsampled) (p : ivec2) :
  ~ In p (group_positions h v offset) \/ in_bounds size p = false ->
  ycbcr_to_rgb_subsampled tie h v offset size out g !! p = out !! p.
Proof.
  intros [H | H];
    [now apply ycbcr_to_rgb_subsampled_other | now apply ycbcr_to_rgb_subsampled_outside].
Qed.

Lemma group_write_frame_witness :
  ycbcr_to_rgb_subsampled TiesEven true true (2, 2) (3, 3) ∅
    {| luma := [10; 20; 30; 40]; cb := 128; cr := 128 |} !! (3, 2) = (∅ : surface) !! (3, 2).
Proof.
  apply (group_write_frame TiesEven true true (2, 2) (3, 3) ∅). right. reflexivity.
Defined.

(** ** Further properties of the quantizer *)

Lemma finite_zero (x : float32) :
  is_finite x = true -> (to_Q x == 0)%Q -> is_zero x = true.
Proof.
  destruct x as [s | s | | s m e]; intros Hf Hv; try discriminate; try reflexivity.
  exfalso. rewrite to_Q_finite in Hv. pose proof (mag_nonneg m e) as Hm.
  set (a := (inject_Z (Z.pos m) * 2 ^ e)%Q) in *.
  destruct s; cbn [sign_Q] in Hv; lra.
Qed.

Lemma entry_Q (Qc : Z) : 0 <= Qc <= 255 -> (1 <= inject_Z (Z.max Qc 1) <= 255)%Q.
Proof.
  intros HQ. change 1%Q with (inject_Z 1). change 255%Q with (inject_Z 255).
  rewrite <- !Zle_Qle. lia.
Qed.

Lemma quantize_small (v : float32) (Qc : Z) :
  is_finite v = true -> 0 <= Qc <= 255 ->
  (Qabs (to_Q v) <= (499 # 1000) * inject_Z (Z.max Qc 1))%Q ->
  is_zero (quantize v (of_Z Qc)) = true.
Proof.
  intros Hf HQ Hb. pose proof (entry_Q Qc HQ) as [HQ1 HQ2].
  apply Qabs_Qle_condition in Hb. destruct Hb as [Hb1 Hb2].
  destruct (quantize_grid v Qc 7 Hf HQ ltac:(lia)) as (Hfin & Hval & Herr).
  { apply Qabs_Qlt_condition. change (2 ^ 7)%Q with 128%Q.
    set (a := to_Q v) in *. set (q := inject_Z (Z.max Qc 1)) in *. split; lra. }
  cbv zeta in Hval, Herr. apply finite_zero; [exact Hfin | ].
  set (n := round_int TiesAway _) in *. clearbody n.
  apply Qabs_Qle_condition in Herr. destruct Herr as [He1 He2].
  change (2 ^ (7 - 24))%Q with (1 # 131072)%Q in He1, He2.
  assert (to_Q v / inject_Z (Z.max Qc 1) * inject_Z (Z.max Qc 1) == to_Q v)%Q as Hdiv
    by (field; lra).
  set (a := to_Q v) in *. set (q := inject_Z (Z.max Qc 1)) in *.
  set (w := (a / q)%Q) in *.
  assert (- (499 # 1000) <= w <= 499 # 1000)%Q as [Hw1 Hw2] by (split; nra).
  assert (0 <= n <= 0) as Hn by (apply Q_to_Z_bounds; change (inject_Z 0) with 0%Q; lra).
  replace n with 0 in Hval by lia. rewrite Hval. change (inject_Z 0) with 0%Q. ring.
Qed.

(** X10: [quantize] has a dead zone: a finite coefficient of magnitude
    at most 0.499 times the table entry (the entry taken as 1 when it
    is 0) is quantized to zero; in particular a zero stays zero. *)
Theorem quantize_dead_zone (v : float32) (Qc : Z) :
  is_finite v = true -> 0 <= Qc <= 255 ->
  (Qabs (to_Q v) <= (499 # 1000) * inject_Z (Z.max Qc 1))%Q ->
  is_zero (quantize v (of_Z Qc)) = true /\ (to_Q (quantize v (of_Z Qc)) == 0)%Q.
Proof.
  intros Hf HQ Hb. pose proof (quantize_small v Qc Hf HQ Hb) as Hz.
  split; [exact Hz | ]. destruct (quantize v (of_Z Qc)); try discriminate. reflexivity.
Qed.

Lemma quantize_dead_zone_witness :
  is_zero (quantize (of_decimal (-49) 10) (of_Z 10)) = true
  /\ (to_Q (quantize (of_decimal (-49) 10) (of_Z 10)) == 0)%Q.
Proof.
  apply (quantize_dead_zone (of_decimal (-49) 10) 10); [reflexivity | lia | ].
  vm_compute. discriminate.
Defined.

(** X11: [quantize] is a projection onto its grid: for a finite
    coefficient below [2^14] in magnitude and a table entry in [0,255],
    quantizing the result again against the same entry returns the
    same value. *)
Theorem quantize_idempotent (v : float32) (Qc : Z) :
  is_finite v = true -> 0 <= Qc <= 255 -> (Qabs (to_Q v) < 2 ^ 14)%Q ->
  let once := quantize v (of_Z Qc) in
  is_finite (quantize once (of_Z Qc)) = true
  /\ (to_Q (quantize once (of_Z Qc)) == to_Q once)%Q.
Proof.
  intros Hf HQ Hb once. pose proof (entry_Q Qc HQ) as [HQ1 HQ2].
  destruct (quantize_grid v Qc 14 Hf HQ ltac:(lia) Hb) as (Hfin & Hval & Herr).
  cbv zeta in Hval, Herr. fold once in Hfin, Hval.
  set (n := round_int TiesAway _) in *. clearbody n.
  apply Qabs_Qlt_condition in Hb. destruct Hb as [Hb1 Hb2].
  apply Qabs_Qle_condition in Herr. destruct Herr as [He1 He2].
  change (2 ^ (14 - 24))%Q with (1 # 1024)%Q in He1, He2.
  change (2 ^ 14)%Q with 16384%Q in Hb1, Hb2.
  assert (to_Q v / inject_Z (Z.max Qc 1) * inject_Z (Z.max Qc 1) == to_Q v)%Q as Hdiv
    by (field; lra).
  set (q := inject_Z (Z.max Qc 1)) in *.
  assert (Qabs (to_Q once) < 2 ^ 15)%Q as Hb'.
  { apply Qabs_Qlt_condition. change (2 ^ 15)%Q with 32768%Q. rewrite Hval.
    set (a := to_Q v) in *. set (w := (a / q)%Q) in *. set (N := inject_Z n) in *.
    split; nra. }
  destruct (quantize_grid once Qc 15 Hfin HQ ltac:(lia) Hb') as (Hfin' & Hval' & Herr').
  cbv zeta in Hval', Herr'. fold q in Hval', Herr'.
  set (n' := round_int TiesAway _) in *. clearbody n'.
  split; [exact Hfin' | ].
  apply Qabs_Qle_condition in Herr'. destruct Herr' as [He1' He2'].
  change (2 ^ (15 - 24))%Q with (1 # 512)%Q in He1', He2'.
  assert (to_Q once / q == inject_Z n)%Q as Hq by (rewrite Hval; field; lra).
  rewrite Hq in He1', He2'.
  assert (n <= n' <= n) as Hn by (apply Q_to_Z_bounds; lra).
  replace n' with n in Hval' by lia. now rewrite Hval', Hval.
Qed.

Lemma quantize_idempotent_witness :
  let once := quantize (S754_finite false 16392191 (-14)) (of_Z 3) in
  is_finite (quantize once (of_Z 3)) = true
  /\ (to_Q (quantize once (of_Z 3)) == to_Q once)%Q.
Proof.
  apply (quantize_idempotent (S754_finite false 16392191 (-14)) 3); [reflexivity | lia | ].
  vm_compute. reflexivity.
Defined.

(** ** The subsampling-only kernel *)

Lemma shift_consts (x : Z) :
  Z.shiftl x 0 = x /\ Z.shiftr x 0 = x /\ Z.shiftl x 1 = 2 * x /\ Z.shiftr x 1 = x / 2.
Proof.
  rewrite Z.shiftl_0_r, Z.shiftr_0_r, Z.shiftl_mul_pow2, Z.shiftr_div_pow2 by lia.
  change (2 ^ 1) with 2. repeat split; lia.
Qed.

Ltac shifts :=
  cbn [Z.b2z fst snd] in *;
  repeat match goal with
         | |- context [Z.shiftl ?x 0] => rewrite (proj1 (shift_consts x))
         | |- context [Z.shiftr ?x 0] => rewrite (proj1 (proj2 (shift_consts x)))
         | |- context [Z.shiftl ?x 1] => rewrite (proj1 (proj2 (proj2 (shift_consts x))))
         | |- context [Z.shiftr ?x 1] => rewrite (proj2 (proj2 (proj2 (shift_consts x))))
         end.

Lemma member_group (h v : bool) (pos p : ivec2) :
  In p (group_positions h v (Z.shiftl (fst pos) (Z.b2z h), Z.shiftl (snd pos) (Z.b2z v))) ->
  group_of h v p = pos.
Proof.
  destruct pos as [x y]. rewrite group_positions_cases. unfold group_of.
  destruct h, v; cbn [andb In]; intros Hp;
    repeat (destruct Hp as [<- | Hp]; [shifts; f_equal; Z.div_mod_to_equations; lia | ]);
    contradiction.
Qed.

Lemma group_member (h v : bool) (p : ivec2) :
  exists k, group_positions h v (anchor h v p) !! k = Some p.
Proof.
  destruct p as [x y]. unfold anchor, group_of. rewrite group_positions_cases.
  destruct h, v; cbn [andb]; shifts.
  - destruct (Z.eq_dec (x mod 2) 0), (Z.eq_dec (y mod 2) 0);
      [exists 0%nat | exists 2%nat | exists 1%nat | exists 3%nat];
      cbn; do 2 f_equal; Z.div_mod_to_equations; lia.
  - destruct (Z.eq_dec (x mod 2) 0); [exists 0%nat | exists 1%nat];
      cbn; do 2 f_equal; Z.div_mod_to_equations; lia.
  - destruct (Z.eq_dec (y mod 2) 0); [exists 0%nat | exists 1%nat];
      cbn; do 2 f_equal; Z.div_mod_to_equations; lia.
  - exists 0%nat. reflexivity.
Qed.

Lemma anchor_of_group (h v : bool) (p : ivec2) (pos : ivec2) :
  group_of h v p = pos ->
  anchor h v p = (Z.shiftl (fst pos) (Z.b2z h), Z.shiftl (snd pos) (Z.b2z v)).
Proof. intros <-. reflexivity. Qed.

Section DistortGroup.

Variable tie : tie_rule.
Variables h v : bool.
Variable sample : SampleDesc.

Local Abbreviation P := (is_subsampled tie h v (sample_in sample) (sample_size sample)).

Lemma distort_group_member (out : surface) (pos p : ivec2) :
  group_of h v p = pos -> in_bounds (sample_size sample) p = true ->
  distort_group tie h v sample out pos !! p
  = Some (subsampled_pixel tie h v (sample_in sample) (sample_size sample) p).
Proof.
  intros Hg Hb. destruct (group_member h v p) as [k Hk].
  rewrite (anchor_of_group h v p pos Hg) in Hk.
  unfold distort_group. cbv zeta.
  rewrite (ycbcr_to_rgb_subsampled_member _ _ _ _ _ _ _ k p Hk Hb).
  rewrite (rgb_to_ycbcr_subsampled_luma _ _ _ _ _ _ k p Hk).
  rewrite (sampler_inside _ _ p Hb).
  unfold subsampled_pixel. now rewrite (anchor_of_group h v p pos Hg).
Qed.

Lemma distort_group_other (out : surface) (pos p : ivec2) :
  group_of h v p <> pos \/ in_bounds (sample_size sample) p = false ->
  distort_group tie h v sample out pos !! p = out !! p.
Proof.
  intros [Hg | Hb]; unfold distort_group; cbv zeta.
  - apply ycbcr_to_rgb_subsampled_other. intros Hin. apply Hg. now apply member_group.
  - now apply ycbcr_to_rgb_subsampled_outside.
Qed.

Lemma distort_group_ok (out : surface) (pos : ivec2) :
  writes_ok P out (distort_group tie h v sample out pos).
Proof.
  intros p. destruct (in_bounds (sample_size sample) p) eqn:Hb.
  - destruct (decide (group_of h v p = pos)) as [Hg | Hg].
    + right. eexists. split; [now apply distort_group_member | reflexivity].
    + left. apply distort_group_other. now left.
  - left. apply distort_group_other. now right.
Qed.

End DistortGroup.

Lemma align_up_ge (x a : Z) : 0 <= x -> 1 <= a <= 2 -> x <= align_up x a.
Proof.
  intros Hx Ha. unfold align_up. rewrite Z.quot_div_nonneg by lia.
  assert (a = 1 \/ a = 2) as [-> | ->] by lia; Z.div_mod_to_equations; lia.
Qed.

Lemma in_bounds_spec (size p : ivec2) :
  in_bounds size p = true <-> 0 <= fst p < fst size /\ 0 <= snd p < snd size.
Proof.
  unfold in_bounds. rewrite !andb_true_iff, !Z.leb_le, !Z.ltb_lt. lia.
Qed.

Lemma group_of_nonneg (h v : bool) (p : ivec2) :
  0 <= fst p -> 0 <= snd p -> 0 <= fst (group_of h v p) /\ 0 <= snd (group_of h v p).
Proof.
  intros Hx Hy. unfold group_of. cbn [fst snd]. split; now apply Z.shiftr_nonneg.
Qed.

Section SubsampleKernel.

Variable tie : tie_rule.
Variables h v : bool.
Variables blockDim_x blockDim_y : Z.
Variable sample : SampleDesc.
Variable block : BlockDesc.

Local Abbreviation P := (is_subsampled tie h v (sample_in sample) (sample_size sample)).
Local Abbreviation thread :=
  (ChromaSubsample_thread tie h v blockDim_x blockDim_y sample block).
Local Abbreviation kernel :=
  (ChromaSubsampleDistortion tie h v blockDim_x blockDim_y sample block).

Lemma subsample_thread_ok (out : surface) (th : Z * Z) : writes_ok P out (thread out th).
Proof.
  unfold ChromaSubsample_thread. cbv zeta. destruct (_ || _); [apply writes_ok_refl | ].
  apply (fold_left_rel (writes_ok P)); [apply writes_ok_refl | apply writes_ok_trans | ].
  intros a y _.
  apply (fold_left_rel (writes_ok P)); [apply writes_ok_refl | apply writes_ok_trans | ].
  intros a' x _. apply distort_group_ok.
Qed.

Lemma subsample_kernel_ok (out : surface) : writes_ok P out (kernel out).
Proof.
  unfold ChromaSubsampleDistortion.
  apply (fold_left_rel (writes_ok P)); [apply writes_ok_refl | apply writes_ok_trans | ].
  intros a th _. apply subsample_thread_ok.
Qed.

(** A pixel whose group lies outside the columns and rows the lanes
    run through, or that lies outside the image, is not written. *)
Lemma subsample_thread_frame (out : surface) (th : Z * Z) (p : ivec2) :
  0 < blockDim_x -> 0 < blockDim_y -> 0 <= fst th -> 0 <= snd th ->
  in_bounds (sample_size sample) p = false
  \/ ~ (fst (block_start block) <= fst (group_of h v p)
        < align_up (fst (block_end block)) (1 + Z.b2z h)
        /\ snd (block_start block) <= snd (group_of h v p)
           < align_up (snd (block_end block)) (1 + Z.b2z v)) ->
  thread out th !! p = out !! p.
Proof.
  intros Hbx Hby Htx Hty Hp. unfold ChromaSubsample_thread. cbv zeta.
  destruct (_ || _); [reflexivity | ].
  apply (fold_left_keeps (fun o : surface => o !! p = out !! p)); [ | reflexivity].
  intros a y Hy Ha.
  apply (fold_left_keeps (fun o : surface => o !! p = out !! p)); [ | exact Ha].
  intros a' x Hx Ha'. rewrite distort_group_other; [exact Ha' | ].
  destruct Hp as [Hp | Hp]; [now right | left].
  intros E. apply Hp. rewrite E. cbn [fst snd].
  apply loop_range_spec in Hx as (kx & Hkx & -> & Hxl); [ | exact Hbx].
  apply loop_range_spec in Hy as (ky & Hky & -> & Hyl); [ | exact Hby].
  nia.
Qed.

Lemma subsample_kernel_covers (out : surface) (p : ivec2) :
  0 < blockDim_x -> 0 < blockDim_y ->
  in_bounds (sample_size sample) p = true ->
  fst (block_start block) <= fst (group_of h v p) < fst (block_end block) ->
  snd (block_start block) <= snd (group_of h v p) < snd (block_end block) ->
  holds_at P p (kernel out).
Proof.
  intros Hbx Hby Hb Hgx Hgy.
  pose proof (proj1 (in_bounds_spec _ _) Hb) as [Hpx Hpy].
  destruct (group_of_nonneg h v p ltac:(lia) ltac:(lia)) as [Hg0x Hg0y].
  set (gx := fst (group_of h v p)) in *. set (gy := snd (group_of h v p)) in *.
  set (sx := fst (block_start block)) in *. set (sy := snd (block_start block)) in *.
  set (th := ((gx - sx) mod blockDim_x, (gy - sy) mod blockDim_y)).
  assert (0 <= fst th < blockDim_x /\ 0 <= snd th < blockDim_y) as Hth
    by (unfold th; cbn [fst snd]; split; apply Z.mod_pos_bound; assumption).
  assert (fst th + sx <= gx /\ snd th + sy <= gy) as [Hlx Hly].
  { unfold th. cbn [fst snd].
    pose proof (Z.mod_le (gx - sx) blockDim_x ltac:(lia) Hbx).
    pose proof (Z.mod_le (gy - sy) blockDim_y ltac:(lia) Hby). lia. }
  unfold ChromaSubsampleDistortion.
  apply (fold_left_reaches (holds_at P p) _ _ th).
  - now apply in_threads.
  - intros a. unfold ChromaSubsample_thread. cbv zeta. fold sx sy.
    assert ((snd th + sy >=? snd (block_end block))
            || (fst th + sx >=? fst (block_end block)) = false) as ->.
    { apply orb_false_intro; rewrite Z.geb_leb; apply Z.leb_gt; lia. }
    pose proof (align_up_ge (fst (block_end block)) (1 + Z.b2z h) ltac:(lia)
                  ltac:(destruct h; cbn; lia)) as Hax.
    pose proof (align_up_ge (snd (block_end block)) (1 + Z.b2z v) ltac:(lia)
                  ltac:(destruct v; cbn; lia)) as Hay.
    apply (fold_left_reaches (holds_at P p) _ _ gy).
    + apply loop_range_spec; [exact Hby | ]. exists ((gy - sy) / blockDim_y).
      split; [apply Z.div_pos; lia | split; [ | lia]].
      unfold th. cbn [fst snd].
      pose proof (Z.div_mod (gy - sy) blockDim_y ltac:(lia)). lia.
    + intros a'. apply (fold_left_reaches (holds_at P p) _ _ gx).
      * apply loop_range_spec; [exact Hbx | ]. exists ((gx - sx) / blockDim_x).
        split; [apply Z.div_pos; lia | split; [ | lia]].
        unfold th. cbn [fst snd].
        pose proof (Z.div_mod (gx - sx) blockDim_x ltac:(lia)). lia.
      * intros a''. eexists. split; [ | reflexivity].
        apply distort_group_member; [ | exact Hb].
        unfold gx, gy. now destruct (group_of h v p).
      * intros a'' x _ H. eapply writes_ok_keeps; [apply distort_group_ok | exact H].
    + intros a' y _ H.
      apply (fold_left_keeps (holds_at P p)); [ | exact H].
      intros a'' x _ H'. eapply writes_ok_keeps; [apply distort_group_ok | exact H'].
  - intros a th' _ H. eapply writes_ok_keeps; [apply subsample_thread_ok | exact H].
Qed.

Lemma subsample_kernel_frame (out : surface) (p : ivec2) :
  0 < blockDim_x -> 0 < blockDim_y ->
  in_bounds (sample_size sample) p = false
  \/ ~ (fst (block_start block) <= fst (group_of h v p)
        < align_up (fst (block_end block)) (1 + Z.b2z h)
        /\ snd (block_start block) <= snd (group_of h v p)
           < align_up (snd (block_end block)) (1 + Z.b2z v)) ->
  kernel out !! p = out !! p.
Proof.
  intros Hbx Hby Hp. unfold ChromaSubsampleDistortion.
  apply (fold_left_keeps (fun o : surface => o !! p = out !! p)); [ | reflexivity].
  intros a th Hth Ha. apply in_threads in Hth.
  rewrite subsample_thread_frame; [exact Ha | assumption | assumption | lia | lia | exact Hp].
Qed.

Lemma subsample_kernel_empty (out : surface) :
  fst (block_end block) <= fst (block_start block)
  \/ snd (block_end block) <= snd (block_start block) ->
  kernel out = out.
Proof.
  intros He. unfold ChromaSubsampleDistortion.
  apply (fold_left_keeps (fun o : surface => o = out)); [ | reflexivity].
  intros a th Hth ->. apply in_threads in Hth.
  unfold ChromaSubsample_thread. cbv zeta.
  assert ((snd th + snd (block_start block) >=? snd (block_end block))
          || (fst th + fst (block_start block) >=? fst (block_end block)) = true) as ->;
    [ | reflexivity].
  apply orb_true_iff. rewrite !Z.geb_leb, !Z.leb_le. lia.
Qed.

End SubsampleKernel.

Lemma flat_group_pixel (tie : tie_rule) (h v : bool) (img : image) (size p : ivec2) :
  valid_rgb (img (fst p) (snd p)) = true ->
  (forall q, In q (sampled_pixels h v (anchor h v p) img size) -> q = img (fst p) (snd p)) ->
  level_dist (subsampled_pixel tie h v img size p) (img (fst p) (snd p)) <= 1.
Proof.
  intros Hv Hflat. unfold subsampled_pixel. cbv zeta.
  rewrite (flat_group_eq tie h v (anchor h v p) img size _ Hv Hflat). cbn [cb cr].
  now apply colour_round_trip.
Qed.

Lemma single_group (img : image) (size p : ivec2) (q : vec3) :
  in_bounds size p = true ->
  In q (sampled_pixels false false (anchor false false p) img size) ->
  q = img (fst p) (snd p).
Proof.
  intros Hb Hq. apply in_bounds_spec in Hb. destruct p as [x y].
  unfold sampled_pixels, anchor, group_of in Hq. rewrite group_positions_cases in Hq.
  cbn [andb map In fst snd Z.b2z] in *. rewrite !Z.shiftr_0_r, !Z.shiftl_0_r in Hq.
  destruct Hq as [<- | []]. rewrite !clamp_id by lia. reflexivity.
Qed.

(** X12: [ChromaSubsampleDistortion] run by a grid of positive
    dimensions leaves the output as it was at every position outside
    the image and at every pixel whose group lies outside the tile
    (its end aligned up to the group size); a tile that is empty along
    an axis changes nothing at all. *)
Theorem subsample_kernel_frame_tile (tie : tie_rule) (h v : bool) (blockDim_x blockDim_y : Z)
    (sample : SampleDesc) (block : BlockDesc) (out : surface) (p : ivec2) :
  0 < blockDim_x -> 0 < blockDim_y ->
  let out' := ChromaSubsampleDistortion tie h v blockDim_x blockDim_y sample block out in
  (in_bounds (sample_size sample) p = false -> out' !! p = out !! p)
  /\ (~ (fst (block_start block) <= fst (group_of h v p)
         < align_up (fst (block_end block)) (1 + Z.b2z h)
         /\ snd (block_start block) <= snd (group_of h v p)
            < align_up (snd (block_end block)) (1 + Z.b2z v)) ->
      out' !! p = out !! p)
  /\ (fst (block_end block) <= fst (block_start block)
      \/ snd (block_end block) <= snd (block_start block) -> out' = out).
Proof.
  intros Hbx Hby out'. split; [ | split].
  - intros Hp. apply subsample_kernel_frame; auto.
  - intros Hp. apply subsample_kernel_frame; auto.
  - apply subsample_kernel_empty.
Qed.

Lemma subsample_kernel_frame_tile_witness :
  ChromaSubsampleDistortion TiesEven true false 32 8
    (SampleDesc_default TiesEven two_tone (5, 4)) (mk_BlockDesc (0, 0) (3, 4))
    {[ (5, 1) := mk_vec3 9 9 9 ]} !! (5, 1)
  = ({[ (5, 1) := mk_vec3 9 9 9 ]} : surface) !! (5, 1).
Proof.
  apply (proj1 (subsample_kernel_frame_tile TiesEven true false 32 8
                  (SampleDesc_default TiesEven two_tone (5, 4)) (mk_BlockDesc (0, 0) (3, 4))
                  {[ (5, 1) := mk_vec3 9 9 9 ]} (5, 1) ltac:(lia) ltac:(lia))).
  reflexivity.
Defined.

(** X13: whatever [ChromaSubsampleDistortion] (on a grid of positive
    dimensions) changes in the output is the subsampled input pixel of
    that position: [ycbcr_to_rgb] of the pixel's own luma and of the
    chroma pair computed for its group; and every pixel of the image
    whose group lies in the tile is written so. *)
Theorem subsample_kernel_pixels (tie : tie_rule) (h v : bool) (blockDim_x blockDim_y : Z)
    (sample : SampleDesc) (block : BlockDesc) (out : surface) :
  0 < blockDim_x -> 0 < blockDim_y ->
  let out' := ChromaSubsampleDistortion tie h v blockDim_x blockDim_y sample block out in
  let px := subsampled_pixel tie h v (sample_in sample) (sample_size sample) in
  (forall p, out' !! p = out !! p \/ out' !! p = Some (px p))
  /\ (forall p, in_bounds (sample_size sample) p = true ->
        fst (block_start block) <= fst (group_of h v p) < fst (block_end block) ->
        snd (block_start block) <= snd (group_of h v p) < snd (block_end block) ->
        out' !! p = Some (px p)).
Proof.
  intros Hbx Hby out' px. split.
  - intros p.
    destruct (subsample_kernel_ok tie h v blockDim_x blockDim_y sample block out p)
      as [E | (w & Hw & ->)]; [now left | now right].
  - intros p Hb Hgx Hgy.
    destruct (subsample_kernel_covers tie h v blockDim_x blockDim_y sample block out p
                Hbx Hby Hb Hgx Hgy) as (w & Hw & ->). exact Hw.
Qed.

Lemma subsample_kernel_pixels_witness :
  ChromaSubsampleDistortion TiesAway true true 4 2
    (SampleDesc_default TiesAway two_tone (4, 4)) (mk_BlockDesc (0, 0) (2, 2)) ∅ !! (1, 3)
  = Some (subsampled_pixel TiesAway true true two_tone (4, 4) (1, 3)).
Proof.
  apply (subsample_kernel_pixels TiesAway true true 4 2
           (SampleDesc_default TiesAway two_tone (4, 4)) (mk_BlockDesc (0, 0) (2, 2)) ∅);
    [lia | lia | reflexivity | change (0 <= 0 < 2); lia | change (0 <= 1 < 2); lia].
Defined.

(** X14: where a group is flat (all its input pixels, border clamping
    included, equal the 8-bit pixel at [p]), [ChromaSubsampleDistortion]
    returns [p] within one level per channel, under any subsampling
    flags. *)
Theorem subsample_kernel_flat (tie : tie_rule) (h v : bool) (blockDim_x blockDim_y : Z)
    (sample : SampleDesc) (block : BlockDesc) (out : surface) (p : ivec2) :
  0 < blockDim_x -> 0 < blockDim_y ->
  in_bounds (sample_size sample) p = true ->
  fst (block_start block) <= fst (group_of h v p) < fst (block_end block) ->
  snd (block_start block) <= snd (group_of h v p) < snd (block_end block) ->
  valid_rgb (sample_in sample (fst p) (snd p)) = true ->
  (forall q, In q (sampled_pixels h v (anchor h v p) (sample_in sample) (sample_size sample))
             -> q = sample_in sample (fst p) (snd p)) ->
  exists px,
    ChromaSubsampleDistortion tie h v blockDim_x blockDim_y sample block out !! p = Some px
    /\ level_dist px (sample_in sample (fst p) (snd p)) <= 1.
Proof.
  intros Hbx Hby Hb Hgx Hgy Hv Hflat.
  destruct (subsample_kernel_covers tie h v blockDim_x blockDim_y sample block out p
              Hbx Hby Hb Hgx Hgy) as (w & Hw & ->).
  eexists. split; [exact Hw | ]. now apply flat_group_pixel.
Qed.

Lemma subsample_kernel_flat_witness :
  exists px,
    ChromaSubsampleDistortion TiesEven true true 4 2
      (SampleDesc_default TiesEven two_tone (5, 4)) (mk_BlockDesc (0, 0) (3, 2)) ∅ !! (2, 1)
    = Some px
    /\ level_dist px (two_tone 2 1) <= 1.
Proof.
  apply (subsample_kernel_flat TiesEven true true 4 2
           (SampleDesc_default TiesEven two_tone (5, 4)) (mk_BlockDesc (0, 0) (3, 2)) ∅ (2, 1));
    [lia | lia | reflexivity | change (0 <= 1 < 3); lia | change (0 <= 0 < 2); lia
     | reflexivity | ].
  intros q Hq. vm_compute in Hq. repeat (destruct Hq as [<- | Hq]; [reflexivity | ]).
  contradiction.
Defined.

(** X15: without subsampling, [ChromaSubsampleDistortion] returns
    every pixel of the tile that lies in the image within one level per
    channel of its 8-bit input, and whatever it changes in the output
    is within one level of the input at that position. *)
Theorem subsample_kernel_identity (tie : tie_rule) (blockDim_x blockDim_y : Z)
    (sample : SampleDesc) (block : BlockDesc) (out : surface) :
  0 < blockDim_x -> 0 < blockDim_y ->
  (forall x y, 0 <= x < fst (sample_size sample) -> 0 <= y < snd (sample_size sample) ->
     valid_rgb (sample_in sample x y) = true) ->
  let out' := ChromaSubsampleDistortion tie false false blockDim_x blockDim_y sample block
                out in
  (forall p, out' !! p = out !! p
             \/ exists px, out' !! p = Some px
                  /\ level_dist px (sample_in sample (fst p) (snd p)) <= 1)
  /\ (forall x y, fst (block_start block) <= x < fst (block_end block) ->
        snd (block_start block) <= y < snd (block_end block) ->
        in_bounds (sample_size sample) (x, y) = true ->
        exists px, out' !! (x, y) = Some px /\ level_dist px (sample_in sample x y) <= 1).
Proof.
  intros Hbx Hby Hvalid out'.
  assert (forall p, in_bounds (sample_size sample) p = true ->
            level_dist (subsampled_pixel tie false false (sample_in sample)
                          (sample_size sample) p)
                       (sample_in sample (fst p) (snd p)) <= 1) as Hnear.
  { intros p Hb. apply flat_group_pixel.
    - apply in_bounds_spec in Hb. now apply Hvalid.
    - intros q. now apply single_group. }
  split.
  - intros p. destruct (in_bounds (sample_size sample) p) eqn:Hb.
    + destruct (subsample_kernel_ok tie false false blockDim_x blockDim_y sample block out p)
        as [E | (w & Hw & ->)]; [now left | right].
      eexists. split; [exact Hw | now apply Hnear].
    + left. apply subsample_kernel_frame; auto.
  - intros x y Hx Hy Hb.
    destruct (subsample_kernel_covers tie false false blockDim_x blockDim_y sample block out
                (x, y) Hbx Hby Hb) as (w & Hw & ->).
    + unfold group_of. cbn [fst snd Z.b2z]. now rewrite Z.shiftr_0_r.
    + unfold group_of. cbn [fst snd Z.b2z]. now rewrite Z.shiftr_0_r.
    + eexists. split; [exact Hw | ]. now apply (Hnear (x, y)).
Qed.

Lemma subsample_kernel_identity_witness :
  exists px,
    ChromaSubsampleDistortion TiesAway false false 2 2
      (SampleDesc_default TiesAway two_tone (3, 3)) (mk_BlockDesc (0, 0) (3, 3)) ∅ !! (0, 2)
    = Some px
    /\ level_dist px (two_tone 0 2) <= 1.
Proof.
  apply (subsample_kernel_identity TiesAway 2 2
           (SampleDesc_default TiesAway two_tone (3, 3)) (mk_BlockDesc (0, 0) (3, 3)) ∅);
    [lia | lia | | cbn; lia | cbn; lia | reflexivity].
  intros x y _ _. unfold two_tone. cbn [sample_in SampleDesc_default].
  destruct (x =? 0); reflexivity.
Defined.

(** ** The scratch memory of the compression kernel *)

Ltac kernel_sizes :=
  repeat match goal with
         | |- context [total_blocks ?h ?v] =>
             let c := eval vm_compute in (total_blocks h v) in
             change (total_blocks h v) with c
         | |- context [num_dct_slices ?h ?v] =>
             let c := eval vm_compute in (num_dct_slices h v) in
             change (num_dct_slices h v) with c
         end.

Lemma cell_used (h v : bool) (b row col : Z) :
  0 <= b < total_blocks h v -> 0 <= row < 8 -> 0 <= col < 8 -> used_element h v (cell b row col).
Proof.
  intros Hb Hr Hc. unfold used_element, cell. split; [nia | Z.div_mod_to_equations; lia].
Qed.

Lemma slot_cell_used (h v : bool) (th : Z * Z) (page : Z) (o : slot) :
  valid_lane th -> 0 <= page < num_pages h v -> valid_slot h v o ->
  used_element h v (slot_cell h v th page o).
Proof.
  intros [Hx Hy] Hp Ho. destruct th as [tx ty]. cbn [fst snd] in *.
  unfold slot_cell, cb_cell, cr_cell, luma_cell, cb_block, cr_block, luma_block,
    chroma_block_idx, luma_block_idx, chroma_x, chroma_y, luma_x, luma_y, valid_slot in *.
  cbn [fst snd].
  destruct h, v; revert Hp Ho; kernel_consts; intros Hp Ho;
    rewrite ?Z.shiftl_0_r, ?Z.shiftl_mul_pow2, ?land7, ?shiftr3 by lia;
    change (2 ^ 1) with 2.
  all: destruct o as [ | | i j].
  all: apply cell_used; kernel_sizes; Z.div_mod_to_equations; lia.
Qed.

Lemma owner_valid (h v : bool) (n : Z) :
  used_element h v n ->
  valid_lane (fst (fst (owner h v n)))
  /\ 0 <= snd (fst (owner h v n)) < num_pages h v
  /\ valid_slot h v (snd (owner h v n))
  /\ slot_cell h v (fst (fst (owner h v n))) (snd (fst (owner h v n))) (snd (owner h v n)) = n.
Proof.
  intros [Hn Hc]. unfold owner, owner_at.
  set (b := n / 72). set (row := n mod 72 / 9). set (col := n mod 9).
  assert (n = cell b row col) as Hcell
    by (unfold cell, b, row, col; Z.div_mod_to_equations; lia).
  assert (0 <= b < total_blocks h v /\ 0 <= row < 8 /\ 0 <= col < 8) as (Hb & Hr & Hcol).
  { unfold b, row, col. repeat split; Z.div_mod_to_equations; nia. }
  clearbody b row col. subst n. clear Hn Hc.
  revert Hb. destruct h, v; kernel_consts; kernel_sizes; cbv zeta; intros Hb.
  all: match goal with
       | |- context [if ?x <? ?c then _ else _] => destruct (Z.ltb_spec x c)
       end.
  all: try match goal with
       | |- context [if ?x <? ?c then _ else _] => destruct (Z.ltb_spec x c)
       end.
  all: cbn [fst snd].
  all: unfold valid_lane, valid_slot, slot_cell, cb_cell, cr_cell, luma_cell, cb_block,
         cr_block, luma_block, chroma_block_idx, luma_block_idx, chroma_x, chroma_y,
         luma_x, luma_y; cbn [fst snd]; kernel_consts;
       rewrite ?Z.shiftl_0_r, ?Z.shiftl_mul_pow2, ?land7, ?shiftr3 by lia;
       change (2 ^ 1) with 2; unfold cell.
  all: repeat split; Z.div_mod_to_equations; lia.
Qed.

Lemma fold_left_rel2 {A B : Type} (R : A -> A -> Prop) (f : A -> B -> A) (l : list B) :
  (forall a a' b, In b l -> R a a' -> R (f a b) (f a' b)) ->
  forall a a', R a a' -> R (fold_left f l a) (fold_left f l a').
Proof.
  induction l as [| b l IH]; intros Hf a a' Ha; cbn; [exact Ha | ].
  apply IH; [intros; apply Hf; [now right | assumption] | ].
  apply Hf; [now left | exact Ha].
Qed.

Lemma fold_left_ext_in {A B : Type} (f g : A -> B -> A) (l : list B) :
  (forall a b, In b l -> f a b = g a b) ->
  forall a, fold_left f l a = fold_left g l a.
Proof.
  induction l as [| b l IH]; intros H a; cbn; [reflexivity | ].
  rewrite H by now left. apply IH. intros; apply H; now right.
Qed.

Lemma gather_page_slots (tie : tie_rule) (h v : bool) (sample : SampleDesc)
    (blk_pos th : Z * Z) (s : scratch) (page : Z) :
  gather_page tie h v sample blk_pos th s page
  = let g := rgb_to_ycbcr_subsampled tie h v (page_offset h v blk_pos th page)
               (sample_in sample) (sample_size sample) in
    fold_left (fun s o => store s (slot_cell h v th page o)
                            (fsub (of_Z (slot_level h g o)) f_128))
              (slots h v) s.
Proof.
  unfold gather_page, slots. cbv zeta.
  destruct h, v;
    match goal with
    | |- context [sub_positions ?a ?b] =>
        let c := eval vm_compute in (sub_positions a b) in
        change (sub_positions a b) with c
    end;
    cbn [fold_left map slot_level slot_cell];
    repeat match goal with
           | |- context [Z.to_nat ?e] =>
               let c := eval vm_compute in (Z.to_nat e) in change (Z.to_nat e) with c
           end;
    reflexivity.
Qed.

Lemma scattered_group_slots (tie : tie_rule) (h v : bool) (th : Z * Z) (s : scratch)
    (page : Z) :
  scattered_group tie h v th s page
  = {| cb := ConvertSat tie (fadd (s (slot_cell h v th page SCb)) f_128);
       cr := ConvertSat tie (fadd (s (slot_cell h v th page SCr)) f_128);
       luma := map (fun '(i, j, _) =>
                      ConvertSat tie (fadd (s (slot_cell h v th page (SLuma i j))) f_128))
                   (sub_positions h v) |}.
Proof. reflexivity. Qed.

Lemma in_sub_positions (h v : bool) (i j : Z) (k : nat) :
  In (i, j, k) (sub_positions h v) -> valid_slot h v (SLuma i j).
Proof.
  intros H. apply slots_valid. do 2 right.
  apply in_map_iff. exists (i, j, k). split; [reflexivity | exact H].
Qed.

Lemma slice_ids_all (h v : bool) (th : Z * Z) (id : Z) :
  valid_lane th ->
  In id (loop_range (tid 32 th) (num_dct_slices h v) (block_size 32 16)) ->
  0 <= id < total_blocks h v * 8.
Proof.
  intros [Hx Hy] Hin. change (block_size 32 16) with 512 in Hin.
  apply loop_range_spec in Hin as (k & Hk & -> & Hlt); [ | lia].
  unfold tid, num_dct_slices in *. lia.
Qed.

Lemma slice_elements_used (h v : bool) (id : Z) (k : nat) :
  0 <= id < total_blocks h v * 8 -> (k < 8)%nat ->
  used_element h v (row_slice id + Z.of_nat k * col_stride)
  /\ used_element h v (col_slice id + Z.of_nat k * row_stride).
Proof.
  intros Hid Hk. unfold row_slice, col_slice, col_stride, row_stride.
  rewrite land7, shiftr3.
  replace (cell (id / 8) (id mod 8) 0 + Z.of_nat k * 1)
    with (cell (id / 8) (id mod 8) (Z.of_nat k)) by (unfold cell; lia).
  replace (cell (id / 8) 0 (id mod 8) + Z.of_nat k * 9)
    with (cell (id / 8) (Z.of_nat k) (id mod 8)) by (unfold cell; lia).
  split; apply cell_used; try lia; Z.div_mod_to_equations; lia.
Qed.

Section ScratchUse.

Variable tie : tie_rule.
Variables h v quantization : bool.
Variables dct_fwd dct_inv : list float32 -> list float32.
Variable sample : SampleDesc.

Lemma store_used_cong (s s' : scratch) (i : Z) (x x' : float32) :
  same_used h v s s' -> (used_element h v i -> x = x') ->
  same_used h v (store s i x) (store s' i x').
Proof.
  intros Hs Hx n Hn. unfold store. destruct (Z.eqb_spec n i) as [-> | _]; [now apply Hx | ].
  now apply Hs.
Qed.

Lemma store_unused (s0 s : scratch) (i : Z) (x : float32) :
  used_element h v i -> same_unused h v s0 s -> same_unused h v s0 (store s i x).
Proof.
  intros Hi Hs n Hn. unfold store. destruct (Z.eqb_spec n i) as [-> | _]; [contradiction | ].
  now apply Hs.
Qed.

Lemma gather_page_unused (blk_pos th : Z * Z) (page : Z) (s0 s : scratch) :
  valid_lane th -> 0 <= page < num_pages h v ->
  same_unused h v s0 s -> same_unused h v s0 (gather_page tie h v sample blk_pos th s page).
Proof.
  intros Hth Hp. rewrite gather_page_slots. cbv zeta.
  apply (fold_left_keeps (same_unused h v s0)).
  intros a o Ho Ha. apply store_unused; [ | exact Ha].
  apply slot_cell_used; [assumption | assumption | now apply slots_valid].
Qed.

(** What stage 1 leaves in the element [n]: the centred level of the
    slot of [n], from the group of the lane and page that own [n]. *)
Lemma gather_page_value (blk_pos th : Z * Z) (page : Z) (s : scratch) (n : Z) :
  used_element h v n -> valid_lane th -> 0 <= page < num_pages h v ->
  (th, page) = fst (owner h v n) \/ s n = gathered_value tie h v sample blk_pos n ->
  gather_page tie h v sample blk_pos th s page n = gathered_value tie h v sample blk_pos n.
Proof.
  intros Hn Hth Hp Hor. destruct (owner_valid h v n Hn) as (Hth0 & Hp0 & Ho0 & Hc).
  rewrite gather_page_slots. cbv zeta.
  assert (forall o, valid_slot h v o -> n = slot_cell h v th page o ->
            fsub (of_Z (slot_level h
                          (rgb_to_ycbcr_subsampled tie h v (page_offset h v blk_pos th page)
                             (sample_in sample) (sample_size sample)) o)) f_128
            = gathered_value tie h v sample blk_pos n) as Hval.
  { intros o Ho E. unfold gathered_value. rewrite E at 1 2 3.
    now rewrite (owner_slot_cell h v th page o Hth Hp Ho). }
  assert (forall (a : scratch) o, In o (slots h v) ->
            a n = gathered_value tie h v sample blk_pos n ->
            store a (slot_cell h v th page o)
              (fsub (of_Z (slot_level h
                             (rgb_to_ycbcr_subsampled tie h v
                                (page_offset h v blk_pos th page)
                                (sample_in sample) (sample_size sample)) o)) f_128) n
            = gathered_value tie h v sample blk_pos n) as Hkeep.
  { intros a o Hin Ha. unfold store.
    destruct (Z.eqb_spec n (slot_cell h v th page o)) as [E | _]; [ | exact Ha].
    apply Hval; [now apply slots_valid | exact E]. }
  destruct Hor as [Hown | Hs].
  - apply (fold_left_reaches (fun a : scratch => a n = gathered_value tie h v sample blk_pos n)
             _ _ (snd (owner h v n)) (in_slots h v _ Ho0)).
    + intros a. destruct (owner h v n) as [[th0 page0] o0]. cbn [fst snd] in *.
      injection Hown as -> ->. unfold store. rewrite <- Hc at 1. rewrite Z.eqb_refl.
      apply Hval; [exact Ho0 | now symmetry].
    + exact Hkeep.
  - apply (fold_left_keeps (fun a : scratch => a n = gathered_value tie h v sample blk_pos n));
      [exact Hkeep | exact Hs].
Qed.

Lemma gather_stage_value (blk_pos : Z * Z) (s : scratch) (n : Z) :
  used_element h v n ->
  gather_stage tie h v 32 16 sample blk_pos s n = gathered_value tie h v sample blk_pos n.
Proof.
  intros Hn. destruct (owner_valid h v n Hn) as (Hth0 & Hp0 & Ho0 & Hc).
  unfold gather_stage.
  apply (fold_left_reaches (fun a : scratch => a n = gathered_value tie h v sample blk_pos n)
           _ _ (fst (fst (owner h v n)))).
  - now apply in_threads.
  - intros a. unfold gather_thread.
    apply (fold_left_reaches
             (fun a : scratch => a n = gathered_value tie h v sample blk_pos n)
             _ _ (snd (fst (owner h v n)))).
    + now apply in_range_iff.
    + intros a'. apply gather_page_value; [assumption .. | left].
      now destruct (owner h v n) as [[? ?] ?].
    + intros a' page Hpage Ha'. apply in_range_iff in Hpage.
      apply gather_page_value; [assumption .. | now right].
  - intros a th Hth Ha. apply in_threads in Hth. unfold gather_thread.
    apply (fold_left_keeps (fun a : scratch => a n = gathered_value tie h v sample blk_pos n));
      [ | exact Ha].
    intros a' page Hpage Ha'. apply in_range_iff in Hpage.
    apply gather_page_value; [assumption .. | now right].
Qed.

Lemma gather_stage_unused (blk_pos : Z * Z) (s : scratch) :
  same_unused h v s (gather_stage tie h v 32 16 sample blk_pos s).
Proof.
  unfold gather_stage. apply (fold_left_keeps (same_unused h v s)); [ | now intros n _].
  intros a th Hth Ha. apply in_threads in Hth. unfold gather_thread.
  apply (fold_left_keeps (same_unused h v s)); [ | exact Ha].
  intros a' page Hpage Ha'. apply in_range_iff in Hpage. now apply gather_page_unused.
Qed.

(** Stages 2 and 4 read and write elements in use only. *)
Lemma store_slice_cong (s s' : scratch) (base stride : Z) (vals : list float32) :
  same_used h v s s' ->
  same_used h v (store_slice s base stride vals) (store_slice s' base stride vals).
Proof.
  intros Hs. unfold store_slice.
  apply (fold_left_rel2 (same_used h v)); [ | exact Hs].
  intros a a' k _ Ha. now apply store_used_cong.
Qed.

Lemma dct_pass_cong (f : list float32 -> list float32) (stride : Z) (base_of : Z -> Z)
    (s s' : scratch) :
  (forall id k, 0 <= id < total_blocks h v * 8 -> (k < 8)%nat ->
     used_element h v (base_of id + Z.of_nat k * stride)) ->
  same_used h v s s' ->
  same_used h v (dct_pass h v 32 16 f stride base_of s) (dct_pass h v 32 16 f stride base_of s').
Proof.
  intros Hused Hs. unfold dct_pass.
  apply (fold_left_rel2 (same_used h v)); [ | exact Hs].
  intros a a' th Hth Ha. apply in_threads in Hth. unfold dct_thread.
  apply (fold_left_rel2 (same_used h v)); [ | exact Ha].
  intros b b' id Hid Hb. apply slice_ids_all in Hid; [ | exact Hth].
  unfold dct_in_place.
  replace (load_slice b' (base_of id) stride) with (load_slice b (base_of id) stride).
  - now apply store_slice_cong.
  - unfold load_slice. apply map_ext_in. intros k Hk. apply in_seq in Hk.
    apply Hb, Hused; [exact Hid | lia].
Qed.

Lemma dct_pass_unused (f : list float32 -> list float32) (stride : Z) (base_of : Z -> Z)
    (s : scratch) :
  (forall id k, 0 <= id < total_blocks h v * 8 -> (k < 8)%nat ->
     used_element h v (base_of id + Z.of_nat k * stride)) ->
  same_unused h v s (dct_pass h v 32 16 f stride base_of s).
Proof.
  intros Hused. unfold dct_pass.
  apply (fold_left_keeps (same_unused h v s)); [ | now intros n _].
  intros a th Hth Ha. apply in_threads in Hth. unfold dct_thread.
  apply (fold_left_keeps (same_unused h v s)); [ | exact Ha].
  intros b id Hid Hb. apply slice_ids_all in Hid; [ | exact Hth].
  unfold dct_in_place, store_slice.
  apply (fold_left_keeps (same_unused h v s)); [ | exact Hb].
  intros c k Hk Hc. apply in_seq in Hk. apply store_unused; [ | exact Hc].
  apply Hused; [exact Hid | lia].
Qed.

(** Stage 3 likewise. *)
Lemma quantize_stage_cong (s s' : scratch) :
  same_used h v s s' ->
  same_used h v (quantize_stage h v quantization 32 16 sample s)
                (quantize_stage h v quantization 32 16 sample s').
Proof.
  intros Hs. unfold quantize_stage. destruct quantization; [ | exact Hs].
  apply (fold_left_rel2 (same_used h v)); [ | exact Hs].
  intros a a' th Hth Ha. apply in_threads in Hth. unfold quantize_thread.
  apply (fold_left_rel2 (same_used h v)); [ | exact Ha].
  intros b b' page Hp Hb. apply in_range_iff in Hp. rewrite !quantize_page_slots.
  apply (fold_left_rel2 (same_used h v)); [ | exact Hb].
  intros c c' o Ho Hc. apply store_used_cong; [exact Hc | ].
  intros Hu. now rewrite (Hc _ Hu).
Qed.

Lemma quantize_stage_unused (s : scratch) :
  same_unused h v s (quantize_stage h v quantization 32 16 sample s).
Proof.
  unfold quantize_stage. destruct quantization; [ | now intros n _].
  apply (fold_left_keeps (same_unused h v s)); [ | now intros n _].
  intros a th Hth Ha. apply in_threads in Hth. unfold quantize_thread.
  apply (fold_left_keeps (same_unused h v s)); [ | exact Ha].
  intros b page Hp Hb. apply in_range_iff in Hp. rewrite quantize_page_slots.
  apply (fold_left_keeps (same_unused h v s)); [ | exact Hb].
  intros c o Ho Hc. apply store_unused; [ | exact Hc].
  apply slot_cell_used; [assumption | assumption | now apply slots_valid].
Qed.

(** Stage 5 reads elements in use only. *)
Lemma scatter_stage_cong (blk_pos : Z * Z) (s s' : scratch) (out : surface) :
  same_used h v s s' ->
  scatter_stage tie h v 32 16 sample blk_pos s out
  = scatter_stage tie h v 32 16 sample blk_pos s' out.
Proof.
  intros Hs. unfold scatter_stage. apply fold_left_ext_in.
  intros a th Hth. apply in_threads in Hth. unfold scatter_thread. apply fold_left_ext_in.
  intros b page Hp. apply in_range_iff in Hp. unfold scatter_page. cbv zeta.
  replace (scattered_group tie h v th s' page) with (scattered_group tie h v th s page);
    [reflexivity | ].
  rewrite !scattered_group_slots. f_equal.
  - apply map_ext_in. intros [[i j] k] Hin.
    rewrite (Hs (slot_cell h v th page (SLuma i j))); [reflexivity | ].
    apply slot_cell_used; [assumption | assumption | now apply (in_sub_positions h v i j k)].
  - now rewrite (Hs _ (slot_cell_used h v th page SCb Hth Hp I)).
  - now rewrite (Hs _ (slot_cell_used h v th page SCr Hth Hp I)).
Qed.

Lemma transforms_cong (s s' : scratch) :
  same_used h v s s' ->
  same_used h v
    (inverse_dct h v dct_inv 32 16
       (quantize_stage h v quantization 32 16 sample (forward_dct h v dct_fwd 32 16 s)))
    (inverse_dct h v dct_inv 32 16
       (quantize_stage h v quantization 32 16 sample (forward_dct h v dct_fwd 32 16 s'))).
Proof.
  intros Hs. unfold inverse_dct, forward_dct.
  apply dct_pass_cong; [intros; now apply slice_elements_used | ].
  apply dct_pass_cong; [intros; now apply slice_elements_used | ].
  apply quantize_stage_cong.
  apply dct_pass_cong; [intros; now apply slice_elements_used | ].
  apply dct_pass_cong; [intros; now apply slice_elements_used | exact Hs].
Qed.

Lemma tile_step_output (st st' : scratch * surface) (blk_pos : Z * Z) :
  snd st = snd st' ->
  snd (tile_step tie h v quantization dct_fwd dct_inv 32 16 sample st blk_pos)
  = snd (tile_step tie h v quantization dct_fwd dct_inv 32 16 sample st' blk_pos).
Proof.
  intros E. unfold tile_step. cbn [fst snd]. rewrite E.
  apply scatter_stage_cong, transforms_cong.
  intros n Hn. now rewrite !gather_stage_value.
Qed.

Lemma tile_step_unused (st : scratch * surface) (blk_pos : Z * Z) :
  same_unused h v (fst st)
    (fst (tile_step tie h v quantization dct_fwd dct_inv 32 16 sample st blk_pos)).
Proof.
  unfold tile_step. cbn [fst snd]. intros n Hn. unfold inverse_dct, forward_dct.
  rewrite <- dct_pass_unused by (try exact Hn; intros; now apply slice_elements_used).
  rewrite <- dct_pass_unused by (try exact Hn; intros; now apply slice_elements_used).
  rewrite <- quantize_stage_unused by exact Hn.
  rewrite <- dct_pass_unused by (try exact Hn; intros; now apply slice_elements_used).
  rewrite <- dct_pass_unused by (try exact Hn; intros; now apply slice_elements_used).
  now apply gather_stage_unused.
Qed.

End ScratchUse.

(** X16: the output of [JpegCompressionDistortion] (32x16 lanes, any
    subsampling flags, with or without quantization, whatever the 1-D
    transforms) does not depend on what the shared scratch memory held
    when the kernel started: every element the later stages read has
    been written by the gather of the same tile. *)
Theorem kernel_ignores_initial_scratch (tie : tie_rule) (h v quantization : bool)
    (dct_fwd dct_inv : list float32 -> list float32) (sample : SampleDesc)
    (block : BlockDesc) (s0 s0' : scratch) (out : surface) :
  JpegCompressionDistortion tie h v quantization dct_fwd dct_inv 32 16 sample block s0 out
  = JpegCompressionDistortion tie h v quantization dct_fwd dct_inv 32 16 sample block s0' out.
Proof.
  unfold JpegCompressionDistortion. cbv zeta.
  apply (fold_left_rel2 (fun a a' : scratch * surface => snd a = snd a')); [ | reflexivity].
  intros a a' y _ Ha.
  apply (fold_left_rel2 (fun a a' : scratch * surface => snd a = snd a')); [ | exact Ha].
  intros b b' x _ Hb. now apply tile_step_output.
Qed.

(** X17: one tile iteration of [JpegCompressionDistortion] (gather,
    forward transform, quantization, inverse transform) writes no
    scratch element outside [flat_blocks[total_blocks][8][9]] and never
    the ninth, padding float of a row. *)
Theorem tile_writes_stay_in_scratch (tie : tie_rule) (h v quantization : bool)
    (dct_fwd dct_inv : list float32 -> list float32) (sample : SampleDesc)
    (st : scratch * surface) (blk_pos : Z * Z) (n : Z) :
  n < 0 \/ total_blocks h v * 72 <= n \/ n mod 9 = 8 ->
  fst (tile_step tie h v quantization dct_fwd dct_inv 32 16 sample st blk_pos) n = fst st n.
Proof.
  intros Hn. symmetry. apply tile_step_unused. unfold used_element. lia.
Qed.

Lemma tile_writes_stay_in_scratch_witness :
  fst (tile_step TiesEven true true true (fun l => l) (fun l => l) 32 16
         (SampleDesc_default TiesEven two_tone (16, 16))
         (fun _ => S754_zero false, ∅) (0, 0)) 8
  = S754_zero false.
Proof.
  apply (tile_writes_stay_in_scratch TiesEven true true true (fun l => l) (fun l => l)
           (SampleDesc_default TiesEven two_tone (16, 16)) (fun _ => S754_zero false, ∅)
           (0, 0) 8).
  right. right. reflexivity.
Defined.

Lemma centred_checked : forallb centred_check (range 256) = true.
Proof. vm_compute. reflexivity. Qed.

Lemma centred_exact (k : Z) :
  0 <= k <= 255 ->
  is_finite (fsub (of_Z k) f_128) = true
  /\ (to_Q (fsub (of_Z k) f_128) == inject_Z (k - 128))%Q.
Proof.
  intros Hk. pose proof centred_checked as H. rewrite forallb_forall in H.
  specialize (H k (in_range 256 k ltac:(lia))). unfold centred_check in H. cbv zeta in H.
  apply andb_prop in H as [H1 H2]. split; [exact H1 | now apply Qeq_bool_iff].
Qed.

Lemma slot_level_range (tie : tie_rule) (h v : bool) (offset : ivec2) (img : image)
    (size : ivec2) (o : slot) :
  0 <= slot_level h (rgb_to_ycbcr_subsampled tie h v offset img size) o <= 255.
Proof.
  unfold rgb_to_ycbcr_subsampled, rgb_to_cb_cr.
  destruct o as [ | | i j]; cbn [slot_level].
  - destruct (h && v); [ | destruct h; [ | destruct v]]; cbn [cb fst]; apply ConvertSat_range.
  - destruct (h && v); [ | destruct h; [ | destruct v]]; cbn [cr snd]; apply ConvertSat_range.
  - unfold luma_at. set (k := Z.to_nat _). clearbody k.
    destruct (h && v); [ | destruct h; [ | destruct v]]; cbn [luma];
      repeat (destruct k as [| k]; cbn [nth]; [apply ConvertSat_range | ]);
      destruct k; cbn [nth]; lia.
Qed.

(** X18: after the gather stage of [JpegCompressionDistortion], under
    any subsampling flags and for any input, every scratch element in
    use holds exactly an integer of [-128, 127]: a level of [0,255]
    shifted by 128, whatever the scratch held before. *)
Theorem gather_centres_levels (tie : tie_rule) (h v : bool) (sample : SampleDesc)
    (blk_pos : Z * Z) (s : scratch) (n : Z) :
  0 <= n < total_blocks h v * 72 -> n mod 9 < 8 ->
  exists k, -128 <= k <= 127
    /\ is_finite (gather_stage tie h v 32 16 sample blk_pos s n) = true
    /\ (to_Q (gather_stage tie h v 32 16 sample blk_pos s n) == inject_Z k)%Q.
Proof.
  intros Hn Hc. rewrite gather_stage_value by (split; assumption).
  unfold gathered_value. cbv zeta.
  set (k := slot_level h _ _).
  assert (0 <= k <= 255) as Hk by apply slot_level_range.
  clearbody k. destruct (centred_exact k Hk) as [Hf Hv].
  exists (k - 128). split; [lia | split; assumption].
Qed.

Lemma gather_centres_levels_witness :
  let x := gather_stage TiesAway true false 32 16
             (SampleDesc_default TiesAway two_tone (16, 16)) (0, 0) (fun _ => S754_nan) 100 in
  exists k, -128 <= k <= 127 /\ is_finite x = true /\ (to_Q x == inject_Z k)%Q.
Proof.
  apply (gather_centres_levels TiesAway true false
           (SampleDesc_default TiesAway two_tone (16, 16)) (0, 0) (fun _ => S754_nan) 100).
  - change (total_blocks true false) with 96. lia.
  - reflexivity.
Defined.

(** X19: without subsampling, whatever the 1-D transforms and whether
    or not quantization is on, [JpegCompressionDistortion] writes every
    pixel of its tile that lies in the image. *)
Theorem kernel_writes_whole_tile (tie : tie_rule) (quantization : bool)
    (dct_fwd dct_inv : list float32 -> list float32) (sample : SampleDesc)
    (block : BlockDesc) (s0 : scratch) (out : surface) (x y : Z) :
  fst (block_start block) <= x < fst (block_end block) ->
  snd (block_start block) <= y < snd (block_end block) ->
  in_bounds (sample_size sample) (x, y) = true ->
  exists px,
    JpegCompressionDistortion tie false false quantization dct_fwd dct_inv 32 16
      sample block s0 out !! (x, y) = Some px.
Proof.
  intros Hx Hy Hb.
  assert (forall (st : scratch * surface) blk,
            writes_ok (fun _ _ => True) (snd st)
              (snd (tile_step tie false false quantization dct_fwd dct_inv 32 16 sample st blk))
            /\ forall th page, valid_lane th -> 0 <= page < 4 ->
                 in_bounds (sample_size sample) (page_offset false false blk th page) = true ->
                 holds_at (fun _ _ => True) (page_offset false false blk th page)
                   (snd (tile_step tie false false quantization dct_fwd dct_inv 32 16
                           sample st blk))) as Hstep.
  { intros st blk.
    apply (scatter_stage_ok tie sample (fun _ _ => True) blk
             (fst (tile_step tie false false quantization dct_fwd dct_inv 32 16 sample st blk))
             (snd st)). intros; exact I. }
  destruct (kernel_covers tie quantization dct_fwd dct_inv sample (fun _ _ => True)
              ltac:(intros st blk; apply Hstep) ltac:(intros st blk; apply Hstep)
              block s0 out x y Hx Hy Hb) as (px & Hpx & _).
  now exists px.
Qed.

Lemma kernel_writes_whole_tile_witness :
  exists px,
    JpegCompressionDistortion TiesEven false false true (fun l => l) (fun l => l) 32 16
      (SampleDesc_default TiesEven two_tone (20, 12)) (mk_BlockDesc (0, 0) (20, 12))
      (fun _ => S754_zero false) ∅ !! (19, 11) = Some px.
Proof.
  apply (kernel_writes_whole_tile TiesEven true (fun l => l) (fun l => l)
           (SampleDesc_default TiesEven two_tone (20, 12)) (mk_BlockDesc (0, 0) (20, 12))
           (fun _ => S754_zero false) ∅ 19 11); [cbn; lia | cbn; lia | reflexivity].
Defined.
